(** * Proofreading workflows of [ffn/utils/proofreading.py]

    A shallow embedding of the batched review navigation ([Base]), the
    review outcome collectors ([ObjectReview], [ObjectClassification]) and
    the agglomeration graph editor ([GraphUpdater]), with the properties
    of their index arithmetic, prefetch window, bad/classification sets
    and split/merge session.

    Python integers are unbounded, hence [Z].  Every Python object that a
    method mutates is a field of the state record of its class; a method
    is a state transformer that either returns or raises, and the state
    it leaves behind when it raises is kept, because assignments made
    before the exception persist in Python. *)

From stdpp Require Import gmap strings list fin_maps.

#[local] Open Scope Z_scope.
#[local] Set Warnings "-clear-no-such-hyp".

(** ** Exceptions and the two monads *)

(** The exceptions that the modelled code paths can raise. *)
Inductive exn :=
  | IndexError       (* list index out of range *)
  | KeyError         (* missing dict key *)
  | TypeError        (* indexing a [str] with a [str] *)
  | NetworkXError    (* [remove_edge] of an edge that is not there *)
  | NetworkXNoPath   (* [shortest_path]: target not reachable *)
  | NodeNotFound.    (* [shortest_path]: endpoint not in the graph *)

#[global] Instance exn_eq_dec : EqDecision exn.
Proof. solve_decision. Defined.

(** Outcome of an expression that only reads the state. *)
Inductive result (A : Type) :=
  | Ok (a : A)
  | Raise (e : exn).
Arguments Ok {A} a.
Arguments Raise {A} e.

#[global] Instance result_ret : MRet result := λ A a, Ok a.
#[global] Instance result_bind : MBind result :=
  λ A B f m, match m with Ok a => f a | Raise e => Raise e end.

Definition from_option {A} (e : exn) (o : option A) : result A :=
  match o with Some a => Ok a | None => Raise e end.

Fixpoint map_result {A B} (f : A → result B) (l : list A) : result (list B) :=
  match l with
  | [] => Ok []
  | x :: l' => y ← f x; ys ← map_result f l'; mret (y :: ys)
  end.

(** A method: runs on a state [S], returns or raises, and leaves a state. *)
Definition M (S A : Type) : Type := S → result A * S.

#[global] Instance M_ret S : MRet (M S) := λ A a s, (Ok a, s).
#[global] Instance M_bind S : MBind (M S) :=
  λ A B f m s,
    match m s with
    | (Ok a, s') => f a s'
    | (Raise e, s') => (Raise e, s')
    end.

Definition get {S} : M S S := λ s, (Ok s, s).
Definition put {S} (s : S) : M S unit := λ _, (Ok tt, s).
Definition modify {S} (f : S → S) : M S unit := λ s, (Ok tt, f s).
Definition raise {S A} (e : exn) : M S A := λ s, (Raise e, s).
Definition lift_result {S A} (r : result A) : M S A := λ s, (r, s).

(** [for x in l: body(x)] *)
Fixpoint for_each {S A} (l : list A) (body : A → M S unit) : M S unit :=
  match l with
  | [] => mret tt
  | x :: l' => body x;; for_each l' body
  end.

(** State left by a method, whether it returned or raised. *)
Definition exec {S A} (m : M S A) (s : S) : S := (m s).2.
Definition outcome {S A} (m : M S A) (s : S) : result A := (m s).1.

(** ** Python lists *)

Module Py.

Definition len {A} (l : list A) : Z := Z.of_nat (length l).

(** [l[i]]: negative indices count from the end. *)
Definition index {A} (l : list A) (i : Z) : option A :=
  if decide (0 ≤ i) then l !! Z.to_nat i
  else if decide (- len l ≤ i) then l !! Z.to_nat (len l + i)
  else None.

(** A slice bound: negative bounds are offset by the length, then every
    bound is clipped to [0, len]. *)
Definition bound (n i : Z) : Z :=
  if decide (i < 0) then Z.max 0 (i + n) else Z.min i n.

(** [l[a:b]] *)
Definition slice {A} (l : list A) (a b : Z) : list A :=
  let lo := bound (len l) a in
  let hi := bound (len l) b in
  take (Z.to_nat (hi - lo)) (drop (Z.to_nat lo) l).

(** [zip(l, l[1:])] *)
Definition zip_next {A} (l : list A) : list (A * A) := zip l (slice l 1 (len l)).

End Py.

(** ** The Neuroglancer viewer, as far as the workflows read and write it *)

Definition Location : Type := Z * Z * Z.

(** The text of the status line: the format that built it and its arguments. *)
Inductive custom_msg :=
  | CustomNone                              (* the empty string *)
  | CustomNumBad (n : Z)                    (* ['num_bad: %d'] *)
  | CustomCounts (cs : list (string * Z)).  (* ['%s:%d' ...] *)

Inductive status_msg :=
  | MsgBatch (index total batch : Z) (c : custom_msg)
      (* ['index:%d/%d  batch:%d  %s'] *)
  | MsgDecreaseBatch        (* ['decrease batch to 1 to mark objects bad'] *)
  | MsgMarkedBad (sids : list Z)       (* ['marked bad: %r'] of a list *)
  | MsgMarkedBadSet (sids : gset Z)    (* ['marked bad: %r'] of a set *)
  | MsgSplitsCleared        (* ['splits cleared'] *)
  | MsgSplitting (path : list Z)       (* ['splitting: %s'] *)
  | MsgSplit (objs : list Z).          (* ['split: %s'] *)

Module Layer.
Record t := mk {
  segments : list Z;
  visible : bool;
  equivalences : list (list Z)
}.
Definition set_segments (x : list Z) (l : t) : t :=
  mk x (visible l) (equivalences l).
Definition set_visible (x : bool) (l : t) : t :=
  mk (segments l) x (equivalences l).
Definition clear_equivalences (l : t) : t :=
  mk (segments l) (visible l) [].
End Layer.

Module ViewerState.
Record t := mk {
  layers : gmap string Layer.t;
  position : option Location;
  layout : option string
}.
Definition set_layers (x : gmap string Layer.t) (s : t) : t :=
  mk x (position s) (layout s).
Definition set_position (x : Location) (s : t) : t :=
  mk (layers s) (Some x) (layout s).
Definition set_layout (x : string) (s : t) : t :=
  mk (layers s) (position s) (Some x).

(** [s.layers[name]].  The layers are Neuroglancer's.  What the lookup
    of a name does when the viewer has no layer of that name is not
    decided by this repository; here it raises, and the properties that
    depend on the outcome are stated for layers that the viewer has. *)
Definition layer (name : string) (s : t) : result Layer.t :=
  from_option KeyError (layers s !! name).

(** [s.layers[name].field = ...], as a change [f] of that layer. *)
Definition update_layer (name : string) (f : Layer.t → Layer.t) (s : t) : result t :=
  l ← layer name s; mret (set_layers (<[name := f l]> (layers s)) s).
End ViewerState.

Record PrefetchState := mkPrefetchState {
  pf_state : ViewerState.t;
  pf_priority : Z
}.

Module Viewer.
Record t := mk {
  state : ViewerState.t;
  status : option status_msg;          (* [config_state.status_messages['status']] *)
  prefetch : list PrefetchState        (* [config_state.prefetch] *)
}.
Definition set_state (x : ViewerState.t) (v : t) : t :=
  mk x (status v) (prefetch v).
Definition set_status (x : status_msg) (v : t) : t :=
  mk (state v) (Some x) (prefetch v).
Definition set_prefetch (x : list PrefetchState) (v : t) : t :=
  mk (state v) (status v) x.
End Viewer.

(** A work item: a dict from layer name to a list of segment ids. *)
Definition WorkItem : Type := gmap string (list Z).

(** ** class Base *)

Module Base.

Record t := mk {
  viewer : Viewer.t;
  num_to_prefetch : Z;
  managed_layers : list string;   (* the set, in its iteration order *)
  todo : list WorkItem;
  index : Z;
  batch : Z;
  apply_equivs : bool;
  locations : option (list Location)
}.

Definition set_viewer (x : Viewer.t) (b : t) : t :=
  mk x (num_to_prefetch b) (managed_layers b) (todo b) (index b) (batch b)
     (apply_equivs b) (locations b).
Definition set_index (x : Z) (b : t) : t :=
  mk (viewer b) (num_to_prefetch b) (managed_layers b) (todo b) x (batch b)
     (apply_equivs b) (locations b).
Definition set_batch (x : Z) (b : t) : t :=
  mk (viewer b) (num_to_prefetch b) (managed_layers b) (todo b) (index b) x
     (apply_equivs b) (locations b).
Definition set_apply_equivs (x : bool) (b : t) : t :=
  mk (viewer b) (num_to_prefetch b) (managed_layers b) (todo b) (index b)
     (batch b) x (locations b).

(** [with self.viewer.config_state.txn() as s: s.status_messages['status'] = msg] *)
Definition update_msg (msg : status_msg) : M t unit :=
  modify (λ b, set_viewer (Viewer.set_status msg (viewer b)) b).

(** [self.viewer.set_state(s)] *)
Definition set_state (s : ViewerState.t) : M t unit :=
  modify (λ b, set_viewer (Viewer.set_state s (viewer b)) b).

(** The ids of [x[layer]] for [x] in [self.todo[index : index + self.batch]],
    chained, made a set and listed.  The order in which Python lists a
    set is not specified; the first occurrences are kept here. *)
Definition list_segments (b : t) (idx : Z) (layer : string) : result (list Z) :=
  xs ← map_result (λ x : WorkItem, from_option KeyError (x !! layer))
                  (Py.slice (todo b) idx (idx + batch b));
  mret (remove_dups (concat xs)).

(** The [else] branch of [update_segments]: for every work item [a] of
    the batch, [[aa[layer] for aa in a]] runs over the keys of the dict
    [a], which are strings, and indexes each of them with the string
    [layer]: a [TypeError] as soon as an item has a key.  An item with no
    key contributes [union()] of nothing. *)
Definition union_equivs (b : t) : result unit :=
  _ ← map_result (λ a : WorkItem, if decide (a = ∅) then Ok tt else Raise TypeError)
                 (Py.slice (todo b) (index b) (index b + batch b));
  mret tt.

Definition update_segments (segs : list Z) (loc : option Location) (layer : string)
  : M t unit :=
  b ← get;
  let s := Viewer.state (viewer b) in
  l ← lift_result (ViewerState.layer layer s);
  let l := Layer.set_segments segs l in
  let l := Layer.clear_equivalences l in
  (if apply_equivs b then lift_result (union_equivs b) else mret tt);;
  let s := ViewerState.set_layers (<[layer := l]> (ViewerState.layers s)) s in
  let s := match loc with Some p => ViewerState.set_position p s | None => s end in
  set_state s.

(** [update_batch]; [custom] is what the class's [custom_msg()] returns. *)
Definition update_batch (custom : custom_msg) : M t unit :=
  b ← get;
  loc ← lift_result
          (if decide (batch b = 1) then
             match locations b with
             | Some ls => p ← from_option IndexError (Py.index ls (index b)); mret (Some p)
             | None => mret None
             end
           else mret None);
  for_each (managed_layers b) (λ layer,
    b' ← get;
    segs ← lift_result (list_segments b' (index b') layer);
    update_segments segs loc layer);;
  update_msg (MsgBatch (index b) (Py.len (todo b)) (batch b) custom).

(** The body of the prefetch loop for one candidate [idx]. *)
Definition prefetch_state (b : t) (idx : Z) : result ViewerState.t :=
  let fix fill (ls : list string) (s : ViewerState.t) : result ViewerState.t :=
    match ls with
    | [] => Ok s
    | layer :: ls' =>
        segs ← list_segments b idx layer;
        s' ← ViewerState.update_layer layer (Layer.set_segments segs) s;
        fill ls' s'
    end in
  s ← fill (managed_layers b) (Viewer.state (viewer b));
  let s := ViewerState.set_layout "3d" s in
  match locations b with
  | Some ls => p ← from_option IndexError (Py.index ls idx); mret (ViewerState.set_position p s)
  | None => mret s
  end.

(** The [for i in range(self.num_to_prefetch)] loop over the values [ivals]
    of [i]; it returns [prefetch_states]. *)
Fixpoint prefetch_loop (b : t) (ivals : list Z) : result (list ViewerState.t) :=
  match ivals with
  | [] => Ok []
  | i :: ivals' =>
      let idx := index b + (i + 1) * batch b in
      if decide (idx >= Py.len (todo b)) then Ok [] (* break *)
      else
        s ← prefetch_state b idx;
        states ← prefetch_loop b ivals';
        mret (s :: states)
  end.

(** The candidates [idx] for which the loop builds a state: those that
    pass the bound check, in order, up to the [break]. *)
Fixpoint prefetch_indices (b : t) (ivals : list Z) : list Z :=
  match ivals with
  | [] => []
  | i :: ivals' =>
      let idx := index b + (i + 1) * batch b in
      if decide (idx >= Py.len (todo b)) then [] (* break *)
      else idx :: prefetch_indices b ivals'
  end.

(** [range(n)] *)
Definition range (n : Z) : list Z := Z.of_nat <$> seq 0 (Z.to_nat n).

(** [[PrefetchState(state=s, priority=-i) for i, s in enumerate(states)]] *)
Definition prioritise (states : list ViewerState.t) : list PrefetchState :=
  imap (λ i s, mkPrefetchState s (- Z.of_nat i)) states.

Definition prefetch : M t unit :=
  b ← get;
  prefetch_states ← lift_result
    (prefetch_loop b (range (num_to_prefetch b)));
  modify (λ b, set_viewer (Viewer.set_prefetch (prioritise prefetch_states) (viewer b)) b).

Definition toggle_equiv (custom : custom_msg) : M t unit :=
  modify (λ b, set_apply_equivs (negb (apply_equivs b)) b);;
  update_batch custom.

Definition batch_dec (custom : custom_msg) : M t unit :=
  modify (λ b, set_batch (batch b `div` 2) b);;
  modify (λ b, set_batch (Z.max (batch b) 1) b);;
  update_batch custom.

Definition batch_inc (custom : custom_msg) : M t unit :=
  modify (λ b, set_batch (batch b * 2) b);;
  update_batch custom.

Definition next_batch (custom : custom_msg) : M t unit :=
  modify (λ b, set_index (index b + batch b) b);;
  modify (λ b, set_index (Z.min (index b) (Py.len (todo b) - 1)) b);;
  prefetch;;
  update_batch custom.

Definition prev_batch (custom : custom_msg) : M t unit :=
  modify (λ b, set_index (index b - batch b) b);;
  modify (λ b, set_index (Z.max 0 (index b)) b);;
  update_batch custom.

(** [self.todo[self.index]['seg']] *)
Definition current_seg (b : t) : result (list Z) :=
  item ← from_option IndexError (Py.index (todo b) (index b));
  from_option KeyError (item !! "seg").

End Base.

(** ** The part of networkx that [GraphUpdater] calls

    An undirected [networkx.Graph] keeps a dict from every node to the
    set of its neighbours, and [add_edge] / [remove_edge] update both
    directions.  The library functions are modelled on that dict. *)

Module Nx.

Abbreviation Graph := (gmap Z (gset Z)).

Definition neighbors (g : Graph) (u : Z) : gset Z := default ∅ (g !! u).

(** [u in g] *)
Definition has_node (g : Graph) (u : Z) : Prop := u ∈ dom g.
(** [g.has_edge(u, v)] *)
Definition has_edge (g : Graph) (u v : Z) : Prop := v ∈ neighbors g u.

#[global] Instance has_node_dec g u : Decision (has_node g u).
Proof. unfold has_node. apply _. Defined.
#[global] Instance has_edge_dec g u v : Decision (has_edge g u v).
Proof. unfold has_edge. apply _. Defined.

(** The invariant of a graph built through the library: neighbours are
    nodes, and adjacency is symmetric. *)
Definition wf (g : Graph) : Prop :=
  (∀ u v, has_edge g u v → has_node g v) ∧ (∀ u v, has_edge g u v → has_edge g v u).

Definition add_node (u : Z) (g : Graph) : Graph :=
  match g !! u with Some _ => g | None => <[u := ∅]> g end.

Definition add_edge (u v : Z) (g : Graph) : Graph :=
  let g := add_node u g in
  let g := add_node v g in
  let g := <[u := neighbors g u ∪ {[v]}]> g in
  <[v := neighbors g v ∪ {[u]}]> g.

Definition add_edges_from (es : list (Z * Z)) (g : Graph) : Graph :=
  foldl (λ g e, add_edge e.1 e.2 g) g es.

(** [del adj[u][v]; if u != v: del adj[v][u]], a missing entry raising
    [NetworkXError]. *)
Definition remove_edge (u v : Z) : M Graph unit :=
  g ← get;
  if decide (has_edge g u v) then
    put (<[u := neighbors g u ∖ {[v]}]> g);;
    if decide (u = v) then mret tt
    else
      g ← get;
      if decide (has_edge g v u) then put (<[v := neighbors g v ∖ {[u]}]> g)
      else raise NetworkXError
  else raise NetworkXError.

(** Breadth-first search by levels: [seen] are the nodes reached so far,
    [frontier] the last level.  The library loops until a level is
    empty; every other level adds a node, so as many rounds as there are
    nodes are enough ([bfs_closed] below). *)
Fixpoint bfs (fuel : nat) (g : Graph) (seen frontier : gset Z) : gset Z :=
  match fuel with
  | O => seen
  | S fuel' =>
      let next := set_bind (neighbors g) frontier ∖ seen in
      if decide (next = ∅) then seen
      else bfs fuel' g (seen ∪ next) next
  end.

(** [nx.node_connected_component(g, n)], for [n in g] *)
Definition node_connected_component (g : Graph) (n : Z) : gset Z :=
  bfs (size g) g {[n]} {[n]}.

(** One level of the search for a shortest path: every entry of
    [frontier] is a path from the source, last node first. *)
Fixpoint extend (g : Graph) (seen : gset Z) (frontier : list (list Z))
  : gset Z * list (list Z) :=
  match frontier with
  | [] => (seen, [])
  | p :: ps =>
      let fresh := filter (λ w, w ∉ seen) (elements (neighbors g (default 0 (head p)))) in
      let '(seen', ps') := extend g (seen ∪ list_to_set fresh) ps in
      (seen', ((λ w, w :: p) <$> fresh) ++ ps')
  end.

Fixpoint search (fuel : nat) (g : Graph) (target : Z) (seen : gset Z)
  (frontier : list (list Z)) : option (list Z) :=
  match list_find (λ p, head p = Some target) frontier with
  | Some (_, p) => Some (reverse p)
  | None =>
      match fuel with
      | O => None
      | S fuel' =>
          let '(seen', frontier') := extend g seen frontier in
          match frontier' with
          | [] => None
          | _ => search fuel' g target seen' frontier'
          end
      end
  end.

(** [nx.shortest_path(g, source, target)]: a path with the fewest edges,
    as the list of its nodes.  Which one the library returns among
    several shortest paths is not modelled. *)
Definition shortest_path (g : Graph) (source target : Z) : result (list Z) :=
  if decide (has_node g source ∧ has_node g target) then
    from_option NetworkXNoPath (search (size g) g target {[source]} [[source]])
  else Raise NodeNotFound.

(** [p] walks along edges of [g]. *)
Fixpoint is_walk (g : Graph) (p : list Z) : Prop :=
  match p with
  | u :: (v :: _) as p' => has_edge g u v ∧ is_walk g p'
  | _ => True
  end.

(** [v] can be reached from [u] along edges. *)
Definition connected (g : Graph) : relation Z := rtc (has_edge g).

End Nx.

(** ** The set of objects flagged as bad

    Its elements are single ids ([bad.add(list(sids)[0])], [bad |= new_bad])
    and frozensets of ids ([bad.add(frozenset(sids))]). *)

Inductive bad_elem :=
  | BadId (sid : Z)
  | BadGroup (sids : gset Z).

#[global] Instance bad_elem_eq_dec : EqDecision bad_elem.
Proof. solve_decision. Defined.

#[global] Instance bad_elem_countable : Countable bad_elem :=
  inj_countable'
    (λ x, match x with BadId z => inl z | BadGroup s => inr s end)
    (λ y, match y with inl z => BadId z | inr s => BadGroup s end)
    (λ x, match x with BadId _ | BadGroup _ => eq_refl end).

(** The element that [mark_bad] adds for the ids [sids] of a work item. *)
Definition bad_of (sids : list Z) : result bad_elem :=
  if decide (Py.len sids = 1) then
    sid ← from_option IndexError (Py.index sids 0); mret (BadId sid)
  else mret (BadGroup (list_to_set sids)).

(** ** class ObjectReview(Base) *)

Module ObjectReview.

Record t := mk {
  base : Base.t;
  bad : gset bad_elem
}.

Definition set_base (x : Base.t) (st : t) : t := mk x (bad st).
Definition set_bad (x : gset bad_elem) (st : t) : t := mk (base st) x.

(** A method inherited from [Base]. *)
Definition inherited {A} (m : M Base.t A) : M t A :=
  λ st, let '(r, b) := m (base st) in (r, set_base b st).

Definition custom_msg (st : t) : custom_msg := CustomNumBad (Z.of_nat (size (bad st))).

Definition update_msg (msg : status_msg) : M t unit := inherited (Base.update_msg msg).
Definition next_batch : M t unit := st ← get; inherited (Base.next_batch (custom_msg st)).
Definition prev_batch : M t unit := st ← get; inherited (Base.prev_batch (custom_msg st)).

Definition mark_bad : M t unit :=
  st ← get;
  if decide (Base.batch (base st) > 1) then update_msg MsgDecreaseBatch (* return *)
  else
    sids ← lift_result (Base.current_seg (base st));
    x ← lift_result (bad_of sids);
    modify (λ st, set_bad (bad st ∪ {[x]}) st);;
    update_msg (MsgMarkedBad sids);;
    next_batch.

Definition mark_removed_bad : M t unit :=
  st ← get;
  segs ← lift_result (Base.list_segments (base st) (Base.index (base st)) "seg");
  let original : gset Z := list_to_set segs in
  l ← lift_result (ViewerState.layer "seg" (Viewer.state (Base.viewer (base st))));
  let new_bad : gset Z := original ∖ list_to_set (Layer.segments l) in
  if decide (new_bad ≠ ∅) then
    modify (λ st, set_bad (bad st ∪ set_map BadId new_bad) st);;
    update_msg (MsgMarkedBadSet new_bad)
  else mret tt.

End ObjectReview.

(** ** class ObjectClassification(Base) *)

Module ObjectClassification.

Record t := mk {
  base : Base.t;
  results : gmap string (gset Z)   (* [defaultdict(set)]: class to ids *)
}.

Definition set_base (x : Base.t) (st : t) : t := mk x (results st).
Definition set_results (x : gmap string (gset Z)) (st : t) : t := mk (base st) x.

Definition inherited {A} (m : M Base.t A) : M t A :=
  λ st, let '(r, b) := m (base st) in (r, set_base b st).

(** One ['%s:%d'] per class; the dict lists its classes in insertion
    order, the map in the order of its keys. *)
Definition custom_msg (st : t) : custom_msg :=
  CustomCounts (map_to_list ((λ v : gset Z, Z.of_nat (size v)) <$> results st)).

Definition next_batch : M t unit := st ← get; inherited (Base.next_batch (custom_msg st)).
Definition prev_batch : M t unit := st ← get; inherited (Base.prev_batch (custom_msg st)).

(** [for v in self.results.values(): v -= set([sid])] *)
Definition discard (sid : Z) (res : gmap string (gset Z)) : gmap string (gset Z) :=
  (λ v, v ∖ {[sid]}) <$> res.

(** [self.results[cls].add(sid)]; a missing class starts from [set()]. *)
Definition add (cls : string) (sid : Z) (res : gmap string (gset Z)) : gmap string (gset Z) :=
  <[cls := default ∅ (res !! cls) ∪ {[sid]}]> res.

(** What [classify(cls)] does to [results] for the current id [sid];
    [None] is the class of the [unclassify] action. *)
Definition classify_results (sid : Z) (cls : option string) (res : gmap string (gset Z))
  : gmap string (gset Z) :=
  let res := discard sid res in
  match cls with
  | Some c => add c sid res
  | None => res
  end.

(** [list(self.todo[self.index]['seg'])[0]] *)
Definition current_sid (b : Base.t) : result Z :=
  sids ← Base.current_seg b; from_option IndexError (Py.index sids 0).

Definition classify (cls : option string) : M t unit :=
  st ← get;
  sid ← lift_result (current_sid (base st));
  modify (λ st, set_results (classify_results sid cls (results st)) st);;
  next_batch.

(** The ids filed under class [c]. *)
Definition members (c : string) (res : gmap string (gset Z)) : gset Z :=
  default ∅ (res !! c).

End ObjectClassification.

(** ** class GraphUpdater(Base) *)

Module GraphUpdater.

Record t := mk {
  base : Base.t;
  graph : Nx.Graph;
  split_objects : list Z;
  split_path : list Z;
  split_index : Z;
  sem : Z;                 (* the counter of [threading.Semaphore()] *)
  bad : gset bad_elem
}.

Definition set_base (x : Base.t) (st : t) : t :=
  mk x (graph st) (split_objects st) (split_path st) (split_index st) (sem st) (bad st).
Definition set_graph (x : Nx.Graph) (st : t) : t :=
  mk (base st) x (split_objects st) (split_path st) (split_index st) (sem st) (bad st).
Definition set_split_objects (x : list Z) (st : t) : t :=
  mk (base st) (graph st) x (split_path st) (split_index st) (sem st) (bad st).
Definition set_split_path (x : list Z) (st : t) : t :=
  mk (base st) (graph st) (split_objects st) x (split_index st) (sem st) (bad st).
Definition set_split_index (x : Z) (st : t) : t :=
  mk (base st) (graph st) (split_objects st) (split_path st) x (sem st) (bad st).
Definition set_sem (x : Z) (st : t) : t :=
  mk (base st) (graph st) (split_objects st) (split_path st) (split_index st) x (bad st).
Definition set_bad (x : gset bad_elem) (st : t) : t :=
  mk (base st) (graph st) (split_objects st) (split_path st) (split_index st) (sem st) x.

Definition inherited {A} (m : M Base.t A) : M t A :=
  λ st, let '(r, b) := m (base st) in (r, set_base b st).

(** A call of a method of [self.graph]. *)
Definition on_graph {A} (m : M Nx.Graph A) : M t A :=
  λ st, let '(r, g) := m (graph st) in (r, set_graph g st).

(** [Base.custom_msg] is not overridden. *)
Definition custom_msg (st : t) : custom_msg := CustomNone.

Definition update_msg (msg : status_msg) : M t unit := inherited (Base.update_msg msg).
Definition next_batch : M t unit := st ← get; inherited (Base.next_batch (custom_msg st)).
Definition prev_batch : M t unit := st ← get; inherited (Base.prev_batch (custom_msg st)).

(** [s = copy.deepcopy(self.viewer.state)] *)
Definition viewer_state : M t ViewerState.t :=
  st ← get; mret (Viewer.state (Base.viewer (base st))).

(** [self.viewer.state.layers['seg'].segments] *)
Definition seg_segments : M t (list Z) :=
  s ← viewer_state; l ← lift_result (ViewerState.layer "seg" s); mret (Layer.segments l).

Definition merge_segments : M t unit :=
  segments ← seg_segments;
  let sids := filter (λ sid, sid > 0) segments in
  modify (λ st, set_graph (Nx.add_edges_from (Py.zip_next sids) (graph st)) st).

Definition update_split : M t unit :=
  st ← get;
  s ← viewer_state;
  s ← lift_result
        (ViewerState.update_layer "split"
           (Layer.set_segments (Py.slice (split_path st) 0 (split_index st))) s);
  inherited (Base.set_state s).

Definition inc_split : M t unit :=
  modify (λ st, set_split_index (Z.min (Py.len (split_path st)) (split_index st + 1)) st);;
  update_split.

Definition dec_split : M t unit :=
  modify (λ st, set_split_index (Z.max 1 (split_index st - 1)) st);;
  update_split.

(** The loop of [add_ccs] over the displayed ids [segments]. *)
Definition expand_connected (g : Nx.Graph) (segments : list Z) : gset Z :=
  foldl (λ curr sid,
           if decide (Nx.has_node g sid) then curr ∪ Nx.node_connected_component g sid
           else curr)
        (list_to_set segments) segments.

(** [self.sem.acquire(blocking=False)] *)
Definition try_acquire : M t bool :=
  st ← get;
  if decide (sem st > 0) then modify (set_sem (sem st - 1));; mret true
  else mret false.

Definition release : M t unit := modify (λ st, set_sem (sem st + 1) st).

Definition add_ccs : M t unit :=
  acquired ← try_acquire;
  if acquired : bool then
    segments ← seg_segments;
    st ← get;
    let curr := expand_connected (graph st) segments in
    inherited (Base.update_segments (elements curr) None "seg");;
    release
  else mret tt.

Definition clear_splits : M t unit :=
  modify (set_split_objects []);;
  update_msg MsgSplitsCleared;;
  s ← viewer_state;
  s ← lift_result (ViewerState.update_layer "split" (Layer.set_visible false) s);
  s ← lift_result (ViewerState.update_layer "seg" (Layer.set_visible true) s);
  inherited (Base.set_state s).

Definition accept_split : M t unit :=
  st ← get;
  let edge := Py.slice (split_path st) (split_index st - 1) (split_index st + 1) in
  match edge with
  | u :: v :: _ =>
      on_graph (Nx.remove_edge u v);;
      clear_splits
  | _ => mret tt (* [len(edge) < 2]: return *)
  end.

Definition start_split : M t unit :=
  st ← get;
  a ← lift_result (from_option IndexError (Py.index (split_objects st) 0));
  b ← lift_result (from_option IndexError (Py.index (split_objects st) 1));
  path ← lift_result (Nx.shortest_path (graph st) a b);
  modify (set_split_path path);;
  modify (set_split_index 1);;
  update_msg (MsgSplitting path);;
  s ← viewer_state;
  s ← lift_result (ViewerState.update_layer "seg" (Layer.set_visible false) s);
  s ← lift_result (ViewerState.update_layer "split" (Layer.set_visible true) s);
  inherited (Base.set_state s);;
  update_split.

(** [add_split(s)]; [value] is [s.selected_values['seg'].value]. *)
Definition add_split (value : Z) : M t unit :=
  st ← get;
  (if decide (Py.len (split_objects st) < 2)
   then modify (set_split_objects (split_objects st ++ [value]))
   else mret tt);;
  st ← get;
  update_msg (MsgSplit (split_objects st));;
  if decide (Py.len (split_objects st) = 2) then start_split else mret tt.

Definition mark_bad : M t unit :=
  st ← get;
  if decide (Base.batch (base st) > 1) then update_msg MsgDecreaseBatch (* return *)
  else
    sids ← lift_result (Base.current_seg (base st));
    x ← lift_result (bad_of sids);
    modify (λ st, set_bad (bad st ∪ {[x]}) st);;
    update_msg (MsgMarkedBad sids);;
    next_batch.

(** No split is in progress: no endpoint is selected. *)
Definition idle (st : t) : Prop := split_objects st = [].

End GraphUpdater.

(** * Properties *)

(** ** The monads *)

Lemma bind_run {S A B} (m : M S A) (f : A → M S B) (s : S) :
  (m ≫= f) s = match m s with
               | (Ok a, s') => f a s'
               | (Raise e, s') => (Raise e, s')
               end.
Proof. reflexivity. Qed.

Lemma exec_bind_ok {S A B} (m : M S A) (f : A → M S B) (s s' : S) (a : A) :
  m s = (Ok a, s') → exec (m ≫= f) s = exec (f a) s'.
Proof. intros H. unfold exec. rewrite bind_run, H. reflexivity. Qed.

Lemma map_result_ok {A B} (f : A → result B) (l : list A) :
  (∀ x, x ∈ l → ∃ y, f x = Ok y) → ∃ ys, map_result f l = Ok ys.
Proof.
  induction l as [|x l IH]; intros Hall; simpl.
  - by eexists.
  - destruct (Hall x) as [y Hy]; [by left|]. rewrite Hy. simpl.
    destruct IH as [ys Hys].
    + intros z Hz. apply Hall. by right.
    + rewrite Hys. by eexists.
Qed.

(** A method of [Base] that writes to the viewer only. *)
Definition viewer_only {A} (m : M Base.t A) : Prop :=
  ∀ b, ∃ v, (m b).2 = Base.set_viewer v b.

Lemma viewer_only_ret {A} (a : A) : viewer_only (mret a).
Proof. intros [v ? ? ? ? ? ? ?]. by exists v. Qed.

Lemma viewer_only_lift {A} (r : result A) : viewer_only (lift_result r).
Proof. intros [v ? ? ? ? ? ? ?]. by exists v. Qed.

Lemma viewer_only_get : viewer_only get.
Proof. intros [v ? ? ? ? ? ? ?]. by exists v. Qed.

Lemma viewer_only_bind {A B} (m : M Base.t A) (f : A → M Base.t B) :
  viewer_only m → (∀ a, viewer_only (f a)) → viewer_only (m ≫= f).
Proof.
  intros Hm Hf b. rewrite bind_run. destruct (Hm b) as [v Hv].
  destruct (m b) as [[a|e] b']; simpl in Hv; subst b'.
  - destruct (Hf a (Base.set_viewer v b)) as [v' Hv']. exists v'. by rewrite Hv'.
  - by exists v.
Qed.

Lemma viewer_only_for_each {A} (l : list A) (body : A → M Base.t unit) :
  (∀ x, viewer_only (body x)) → viewer_only (for_each l body).
Proof.
  intros Hb. induction l as [|x l IH]; simpl.
  - apply viewer_only_ret.
  - apply viewer_only_bind; auto.
Qed.

Lemma viewer_only_update_msg msg : viewer_only (Base.update_msg msg).
Proof. intros b. by eexists. Qed.

Lemma viewer_only_set_state s : viewer_only (Base.set_state s).
Proof. intros b. by eexists. Qed.

Create HintDb viewer discriminated.
#[local] Hint Resolve viewer_only_ret viewer_only_lift viewer_only_get
  viewer_only_update_msg viewer_only_set_state : viewer.

Ltac viewer_only :=
  repeat first
    [ apply viewer_only_bind; [|intros ?]
    | apply viewer_only_for_each; intros ?
    | solve [auto with viewer]
    | match goal with |- viewer_only (if ?c then _ else _) => destruct c end ].

Lemma viewer_only_update_segments segs loc layer :
  viewer_only (Base.update_segments segs loc layer).
Proof. unfold Base.update_segments. viewer_only. Qed.

Lemma viewer_only_update_batch custom : viewer_only (Base.update_batch custom).
Proof.
  unfold Base.update_batch. viewer_only.
Qed.

Lemma viewer_only_prefetch : viewer_only Base.prefetch.
Proof. unfold Base.prefetch. viewer_only. intros b. by eexists. Qed.

(** ** Navigation: [next_batch] and [prev_batch] *)

Lemma exec_modify {S A} (f : S → S) (m : M S A) (s : S) :
  exec (modify f ≫= λ _, m) s = exec m (f s).
Proof. reflexivity. Qed.

Lemma next_batch_exec custom (b : Base.t) :
  ∃ v, exec (Base.next_batch custom) b =
       Base.set_viewer v
         (Base.set_index (Z.min (Base.index b + Base.batch b) (Py.len (Base.todo b) - 1)) b).
Proof.
  unfold Base.next_batch. rewrite !exec_modify.
  assert (viewer_only (Base.prefetch ≫= λ _, Base.update_batch custom)) as Hv.
  { apply viewer_only_bind; [apply viewer_only_prefetch|intros _; apply viewer_only_update_batch]. }
  match goal with |- ∃ v, exec _ ?b1 = _ => destruct (Hv b1) as [v Hv1] end.
  exists v. unfold exec. rewrite Hv1. by destruct b.
Qed.

Lemma prev_batch_exec custom (b : Base.t) :
  ∃ v, exec (Base.prev_batch custom) b =
       Base.set_viewer v (Base.set_index (Z.max 0 (Base.index b - Base.batch b)) b).
Proof.
  unfold Base.prev_batch. rewrite !exec_modify.
  match goal with
  | |- ∃ v, exec _ ?b1 = _ => destruct (viewer_only_update_batch custom b1) as [v Hv1]
  end.
  exists v. unfold exec. rewrite Hv1. by destruct b.
Qed.

Module Nav.

(** The two navigation actions, bound to the keys [j] and [k]. *)
Inductive move := Advance | Retreat.

Definition step (custom : custom_msg) (mv : move) : M Base.t unit :=
  match mv with
  | Advance => Base.next_batch custom
  | Retreat => Base.prev_batch custom
  end.

(** The actions [mvs] one after the other, each from the state its
    predecessor left. *)
Definition run (custom : custom_msg) (mvs : list move) (b : Base.t) : Base.t :=
  foldl (λ b mv, exec (step custom mv) b) b mvs.

(** [0 <= index <= len(todo) - 1] *)
Definition in_range (b : Base.t) : Prop :=
  0 ≤ Base.index b ≤ Py.len (Base.todo b) - 1.

End Nav.

Lemma step_exec custom mv (b : Base.t) :
  ∃ v i, exec (Nav.step custom mv) b = Base.set_viewer v (Base.set_index i b)
         ∧ i = match mv with
               | Nav.Advance => Z.min (Base.index b + Base.batch b) (Py.len (Base.todo b) - 1)
               | Nav.Retreat => Z.max (Base.index b - Base.batch b) 0
               end.
Proof.
  destruct mv; simpl.
  - destruct (next_batch_exec custom b) as [v Hv]. eexists v, _. by split.
  - destruct (prev_batch_exec custom b) as [v Hv]. eexists v, _. split; [done|lia].
Qed.

Lemma step_in_range custom mv (b : Base.t) :
  Nav.in_range b → 1 ≤ Base.batch b →
  Nav.in_range (exec (Nav.step custom mv) b)
  ∧ Base.batch (exec (Nav.step custom mv) b) = Base.batch b
  ∧ Base.todo (exec (Nav.step custom mv) b) = Base.todo b.
Proof.
  intros Hr Hb. destruct (step_exec custom mv b) as (v & i & -> & ->).
  unfold Nav.in_range in *. simpl. destruct mv; repeat split; lia.
Qed.

Lemma run_in_range custom (mvs : list Nav.move) (b : Base.t) :
  Nav.in_range b → 1 ≤ Base.batch b →
  Nav.in_range (Nav.run custom mvs b)
  ∧ Base.todo (Nav.run custom mvs b) = Base.todo b
  ∧ Base.batch (Nav.run custom mvs b) = Base.batch b.
Proof.
  revert b. induction mvs as [|mv mvs IH]; intros b Hr Hb; [done|].
  destruct (step_in_range custom mv b Hr Hb) as (Hr' & Hb' & Ht').
  destruct (IH (exec (Nav.step custom mv) b)) as (H1 & H2 & H3); [done|lia|].
  unfold Nav.run in *. simpl. split_and!; [done|congruence..].
Qed.

(** C1. From a position with [0 <= index <= len(todo) - 1] and
    [batch >= 1], every finite sequence of [next_batch] / [prev_batch]
    calls leaves [0 <= index <= len(todo) - 1] (store and batch size are
    not touched); one [next_batch] sets [index] to
    [min(index + batch, len(todo) - 1)] and one [prev_batch] sets it to
    [max(index - batch, 0)], so the boundary is met by clamping. *)
Theorem navigation_keeps_index_in_range custom (b : Base.t) (mvs : list Nav.move) :
  Nav.in_range b → 1 ≤ Base.batch b →
  Nav.in_range (Nav.run custom mvs b)
  ∧ Base.todo (Nav.run custom mvs b) = Base.todo b
  ∧ Base.batch (Nav.run custom mvs b) = Base.batch b
  ∧ Base.index (exec (Base.next_batch custom) b)
    = Z.min (Base.index b + Base.batch b) (Py.len (Base.todo b) - 1)
  ∧ Base.index (exec (Base.prev_batch custom) b)
    = Z.max (Base.index b - Base.batch b) 0.
Proof.
  intros Hr Hb.
  destruct (run_in_range custom mvs b Hr Hb) as (H1 & H2 & H3).
  split_and!; [done..| |].
  - destruct (step_exec custom Nav.Advance b) as (v & i & Hv & ->).
    simpl in Hv. by rewrite Hv.
  - destruct (step_exec custom Nav.Retreat b) as (v & i & Hv & ->).
    simpl in Hv. by rewrite Hv.
Qed.

(** ** Prefetch *)

Lemma prefetch_loop_indices (b : Base.t) (ivals : list Z) :
  Base.prefetch_loop b ivals
  = map_result (Base.prefetch_state b) (Base.prefetch_indices b ivals).
Proof.
  induction ivals as [|i ivals IH]; simpl; [done|].
  case_decide; [done|]. simpl. by rewrite IH.
Qed.

Lemma filter_none {A} (P : A → Prop) `{∀ x, Decision (P x)} (l : list A) :
  (∀ x, x ∈ l → ¬ P x) → filter P l = [].
Proof.
  induction l as [|x l IH]; intros Hall; [done|].
  rewrite filter_cons_False by (apply Hall; by left).
  apply IH. intros y Hy. apply Hall. by right.
Qed.

(** The candidate of the loop variable [i]. *)
Definition candidate (b : Base.t) (i : Z) : Z := Base.index b + (i + 1) * Base.batch b.

Lemma prefetch_indices_filter (b : Base.t) (s n : nat) :
  1 ≤ Base.batch b →
  Base.prefetch_indices b (Z.of_nat <$> seq s n)
  = filter (λ idx, idx < Py.len (Base.todo b)) (candidate b <$> (Z.of_nat <$> seq s n)).
Proof.
  intros Hb. revert s. induction n as [|n IH]; intros s; simpl; [done|].
  fold (candidate b (Z.of_nat s)). case_decide as Hc.
  - symmetry. apply filter_none. intros idx Hin.
    assert (∃ k : nat, idx = candidate b (Z.of_nat k) ∧ (s ≤ k)%nat) as (k & -> & Hk).
    { apply elem_of_cons in Hin as [->|Hin]; [by exists s|].
      apply list_elem_of_fmap in Hin as (i & -> & Hi).
      apply list_elem_of_fmap in Hi as (k & -> & Hk).
      apply elem_of_seq in Hk. exists k. split; [done|lia]. }
    unfold candidate in *. nia.
  - rewrite filter_cons_True by lia. by rewrite IH.
Qed.

Lemma prioritise_lookup (states : list ViewerState.t) (i : nat) (e : PrefetchState) :
  Base.prioritise states !! i = Some e →
  pf_priority e = - Z.of_nat i ∧ states !! i = Some (pf_state e).
Proof.
  unfold Base.prioritise. rewrite list_lookup_imap.
  destruct (states !! i); simpl; [|done]. by intros [= <-].
Qed.

Lemma map_result_lookup {A B} (f : A → result B) (l : list A) (ys : list B) :
  map_result f l = Ok ys →
  length ys = length l ∧ ∀ i x y, l !! i = Some x → ys !! i = Some y → f x = Ok y.
Proof.
  revert ys. induction l as [|x l IH]; simpl; intros ys.
  - intros [= <-]. split; [done|]. by intros [|?] ???.
  - destruct (f x) as [y|] eqn:Hfx; simpl; [|done].
    destruct (map_result f l) as [ys'|]; simpl; [|done].
    intros [= <-]. destruct (IH ys' eq_refl) as [Hlen Hlk].
    split; [simpl; by rewrite Hlen|].
    intros [|i] x' y'; simpl; [congruence|eauto].
Qed.

Lemma prefetch_exec (b : Base.t) (states : list ViewerState.t) :
  Base.prefetch_loop b (Base.range (Base.num_to_prefetch b)) = Ok states →
  Base.prefetch b
  = (Ok tt, Base.set_viewer (Viewer.set_prefetch (Base.prioritise states) (Base.viewer b)) b).
Proof.
  intros H. unfold Base.prefetch. rewrite bind_run. simpl.
  rewrite bind_run. unfold lift_result. by rewrite H.
Qed.

Module Scenario.

Definition seg_layer : Layer.t := Layer.mk [] true [].
Definition split_layer : Layer.t := Layer.mk [] false [].
Definition viewer : Viewer.t :=
  Viewer.mk (ViewerState.mk {[ "seg" := seg_layer; "split" := split_layer ]} None None)
            None [].

(** A store of 25 work items; item [k] is the object [k + 1]. *)
Definition store25 : list WorkItem :=
  (λ k : nat, {[ "seg" := [Z.of_nat k + 1] ]}) <$> seq 0 25.

(** Store length 25, [index = 0], [batch = 5], [num_to_prefetch = 10]. *)
Definition review25 : Base.t := Base.mk viewer 10 ["seg"] store25 0 5 false None.

(** The graph [1 - 2 - 3 - 4]. *)
Definition path_graph : Nx.Graph := Nx.add_edges_from [(1, 2); (2, 3); (3, 4)] ∅.

(** A [GraphUpdater] on that graph, as its constructor leaves it. *)
Definition editor : GraphUpdater.t :=
  GraphUpdater.mk
    (Base.mk viewer 0 ["seg"] [ {[ "seg" := [1; 2; 3; 4] ]} ] 0 1 false None)
    path_graph [] [] 1 1 ∅.

(** Endpoints 1 and 4 selected. *)
Definition selected : GraphUpdater.t :=
  exec (GraphUpdater.add_split 4) (exec (GraphUpdater.add_split 1) editor).

(** The cursor advanced twice. *)
Definition trimmed : GraphUpdater.t :=
  exec GraphUpdater.inc_split (exec GraphUpdater.inc_split selected).

(** The split accepted. *)
Definition committed : GraphUpdater.t := exec GraphUpdater.accept_split trimmed.

(** The graph [1 - 2] and [3 - 4]: no path from 1 to 4. *)
Definition two_parts : Nx.Graph := Nx.add_edges_from [(1, 2); (3, 4)] ∅.

Definition editor_two_parts : GraphUpdater.t :=
  GraphUpdater.set_graph two_parts editor.

End Scenario.

(** ** The split cursor *)

(** A method of [GraphUpdater] that writes to the inherited part only. *)
Definition base_only {A} (m : M GraphUpdater.t A) : Prop :=
  ∀ st, ∃ b, (m st).2 = GraphUpdater.set_base b st.

Lemma base_only_ret {A} (a : A) : base_only (mret a).
Proof. intros st. exists (GraphUpdater.base st). by destruct st. Qed.

Lemma base_only_lift {A} (r : result A) : base_only (lift_result r).
Proof. intros st. exists (GraphUpdater.base st). by destruct st. Qed.

Lemma base_only_get : base_only get.
Proof. intros st. exists (GraphUpdater.base st). by destruct st. Qed.

Lemma base_only_inherited {A} (m : M Base.t A) : base_only (GraphUpdater.inherited m).
Proof.
  intros st. unfold GraphUpdater.inherited.
  destruct (m (GraphUpdater.base st)) as [r b]. by exists b.
Qed.

Lemma base_only_bind {A B} (m : M GraphUpdater.t A) (f : A → M GraphUpdater.t B) :
  base_only m → (∀ a, base_only (f a)) → base_only (m ≫= f).
Proof.
  intros Hm Hf st. rewrite bind_run. destruct (Hm st) as [b Hb].
  destruct (m st) as [[a|e] st']; simpl in Hb; subst st'.
  - destruct (Hf a (GraphUpdater.set_base b st)) as [b' Hb']. exists b'. by rewrite Hb'.
  - by exists b.
Qed.

#[local] Hint Resolve base_only_ret base_only_lift base_only_get base_only_inherited : viewer.

Ltac base_only :=
  repeat first
    [ apply base_only_bind; [|intros ?]
    | solve [auto with viewer]
    | match goal with |- base_only (if ?c then _ else _) => destruct c end ].

Lemma base_only_update_split : base_only GraphUpdater.update_split.
Proof. unfold GraphUpdater.update_split, GraphUpdater.viewer_state. base_only. Qed.

Lemma base_only_update_msg msg : base_only (GraphUpdater.update_msg msg).
Proof. apply base_only_inherited. Qed.

Lemma base_only_next_batch : base_only GraphUpdater.next_batch.
Proof. unfold GraphUpdater.next_batch. base_only. Qed.

Lemma then_base_only {A} (f : GraphUpdater.t → GraphUpdater.t) (m : M GraphUpdater.t A) st :
  base_only m → ∃ b, exec (modify f ≫= λ _, m) st = GraphUpdater.set_base b (f st).
Proof. intros Hm. rewrite exec_modify. apply Hm. Qed.

Lemma inc_split_exec (st : GraphUpdater.t) :
  ∃ b, exec GraphUpdater.inc_split st
       = GraphUpdater.set_base b
           (GraphUpdater.set_split_index
              (Z.min (Py.len (GraphUpdater.split_path st)) (GraphUpdater.split_index st + 1)) st).
Proof.
  unfold GraphUpdater.inc_split.
  match goal with |- context [modify ?f] => apply (then_base_only f) end.
  apply base_only_update_split.
Qed.

Lemma dec_split_exec (st : GraphUpdater.t) :
  ∃ b, exec GraphUpdater.dec_split st
       = GraphUpdater.set_base b
           (GraphUpdater.set_split_index (Z.max 1 (GraphUpdater.split_index st - 1)) st).
Proof.
  unfold GraphUpdater.dec_split.
  match goal with |- context [modify ?f] => apply (then_base_only f) end.
  apply base_only_update_split.
Qed.

Module Cursor.

(** The two cursor actions, bound to [shift+]] and [shift+[]. *)
Inductive move := Inc | Dec.

Definition step (mv : move) : M GraphUpdater.t unit :=
  match mv with
  | Inc => GraphUpdater.inc_split
  | Dec => GraphUpdater.dec_split
  end.

Definition run (mvs : list move) (st : GraphUpdater.t) : GraphUpdater.t :=
  foldl (λ st mv, exec (step mv) st) st mvs.

(** [1 <= split_index <= len(split_path)] *)
Definition in_path (st : GraphUpdater.t) : Prop :=
  1 ≤ GraphUpdater.split_index st ≤ Py.len (GraphUpdater.split_path st).

End Cursor.

Lemma slice_pair {A} (l : list A) (c : Z) (u v : A) :
  1 ≤ c →
  l !! Z.to_nat (c - 1) = Some u → l !! Z.to_nat c = Some v →
  Py.slice l (c - 1) (c + 1) = [u; v].
Proof.
  intros Hc Hu Hv.
  assert (c < Py.len l) as Hlt.
  { apply lookup_lt_Some in Hv. unfold Py.len. lia. }
  unfold Py.slice, Py.bound. rewrite !decide_False by lia.
  rewrite (drop_S _ u) by (rewrite <- Hu; f_equal; lia).
  replace (S (Z.to_nat ((c - 1) `min` Py.len l))) with (Z.to_nat c) by lia.
  rewrite (drop_S _ v) by done.
  replace (Z.to_nat ((c + 1) `min` Py.len l - (c - 1) `min` Py.len l)) with 2%nat by lia.
  simpl. by rewrite take_0.
Qed.

Lemma slice_last {A} (l : list A) :
  l ≠ [] → ∃ x, Py.slice l (Py.len l - 1) (Py.len l + 1) = [x].
Proof.
  intros Hl. destruct (last l) as [x|] eqn:Hx; [|by apply last_None in Hx].
  exists x. rewrite last_lookup in Hx.
  assert (0 < Py.len l) by (destruct l; [done|unfold Py.len; simpl; lia]).
  unfold Py.slice, Py.bound. rewrite !decide_False by lia.
  replace (Z.to_nat ((Py.len l - 1) `min` Py.len l)) with (pred (length l))
    by (unfold Py.len in *; lia).
  rewrite (drop_S _ x) by done.
  replace (Z.to_nat ((Py.len l + 1) `min` Py.len l - (Py.len l - 1) `min` Py.len l))
    with 1%nat by lia.
  simpl. by rewrite take_0.
Qed.

Lemma cursor_step (mv : Cursor.move) (st : GraphUpdater.t) :
  Cursor.in_path st →
  Cursor.in_path (exec (Cursor.step mv) st)
  ∧ GraphUpdater.split_path (exec (Cursor.step mv) st) = GraphUpdater.split_path st
  ∧ GraphUpdater.graph (exec (Cursor.step mv) st) = GraphUpdater.graph st.
Proof.
  unfold Cursor.in_path. intros Hin. destruct mv; simpl.
  - destruct (inc_split_exec st) as [b ->]. simpl. split_and!; [lia..|done|done].
  - destruct (dec_split_exec st) as [b ->]. simpl. split_and!; [lia..|done|done].
Qed.

Lemma cursor_run (mvs : list Cursor.move) (st : GraphUpdater.t) :
  Cursor.in_path st →
  Cursor.in_path (Cursor.run mvs st)
  ∧ GraphUpdater.split_path (Cursor.run mvs st) = GraphUpdater.split_path st
  ∧ GraphUpdater.graph (Cursor.run mvs st) = GraphUpdater.graph st.
Proof.
  revert st. induction mvs as [|mv mvs IH]; intros st Hin; [done|].
  destruct (cursor_step mv st Hin) as (H1 & H2 & H3).
  destruct (IH _ H1) as (H4 & H5 & H6).
  unfold Cursor.run in *. simpl. split_and!; [done|congruence..].
Qed.

(** ** The graph operations *)

Lemma neighbors_insert (g : Nx.Graph) (k u : Z) (s : gset Z) :
  Nx.neighbors (<[k := s]> g) u = if decide (k = u) then s else Nx.neighbors g u.
Proof.
  unfold Nx.neighbors. case_decide as Hk.
  - subst. by rewrite lookup_insert_eq.
  - by rewrite lookup_insert_ne.
Qed.

Lemma neighbors_add_node (g : Nx.Graph) (k u : Z) :
  Nx.neighbors (Nx.add_node k g) u = Nx.neighbors g u.
Proof.
  unfold Nx.add_node. destruct (g !! k) eqn:Hk; [done|].
  rewrite neighbors_insert. case_decide; [|done].
  subst. unfold Nx.neighbors. by rewrite Hk.
Qed.

Lemma dom_add_node (g : Nx.Graph) (k : Z) : dom (Nx.add_node k g) = dom g ∪ {[k]}.
Proof.
  unfold Nx.add_node. destruct (g !! k) eqn:Hk.
  - apply (elem_of_dom_2 (D := gset Z)) in Hk. set_solver.
  - rewrite dom_insert_L. set_solver.
Qed.

Lemma has_edge_add_edge (g : Nx.Graph) (a b u v : Z) :
  Nx.has_edge (Nx.add_edge a b g) u v
  ↔ Nx.has_edge g u v ∨ (u = a ∧ v = b) ∨ (u = b ∧ v = a).
Proof.
  unfold Nx.has_edge, Nx.add_edge. rewrite !neighbors_insert.
  repeat case_decide; subst;
    rewrite ?neighbors_insert, ?neighbors_add_node;
    repeat case_decide; subst; rewrite ?neighbors_add_node; set_solver.
Qed.

Lemma dom_add_edge (g : Nx.Graph) (a b : Z) :
  dom (Nx.add_edge a b g) = dom g ∪ {[a; b]}.
Proof.
  unfold Nx.add_edge. rewrite !dom_insert_L, !dom_add_node. set_solver.
Qed.

Lemma has_edge_add_edges_from (es : list (Z * Z)) (g : Nx.Graph) (u v : Z) :
  Nx.has_edge (Nx.add_edges_from es g) u v
  ↔ Nx.has_edge g u v ∨ (u, v) ∈ es ∨ (v, u) ∈ es.
Proof.
  unfold Nx.add_edges_from. revert g.
  induction es as [|[a b] es IH]; intros g; simpl.
  - set_solver.
  - rewrite IH, has_edge_add_edge, !elem_of_cons. naive_solver.
Qed.

Lemma dom_add_edges_from (es : list (Z * Z)) (g : Nx.Graph) (x : Z) :
  x ∈ dom (Nx.add_edges_from es g)
  ↔ x ∈ dom g ∨ ∃ e, e ∈ es ∧ (x = e.1 ∨ x = e.2).
Proof.
  unfold Nx.add_edges_from. revert g.
  induction es as [|[a b] es IH]; intros g; simpl.
  - set_solver.
  - rewrite IH, dom_add_edge. setoid_rewrite elem_of_cons. set_solver.
Qed.

Lemma wf_empty : Nx.wf ∅.
Proof. split; intros u v; unfold Nx.has_edge, Nx.neighbors; rewrite lookup_empty; set_solver. Qed.

Lemma wf_add_edge (g : Nx.Graph) (a b : Z) : Nx.wf g → Nx.wf (Nx.add_edge a b g).
Proof.
  intros [Hn Hs]. split; intros u v; rewrite !has_edge_add_edge.
  - unfold Nx.has_node. rewrite dom_add_edge. intros [H|[[-> ->]|[-> ->]]]; [|set_solver..].
    apply Hn in H. unfold Nx.has_node in H. set_solver.
  - naive_solver.
Qed.

Lemma wf_add_edges_from (es : list (Z * Z)) (g : Nx.Graph) :
  Nx.wf g → Nx.wf (Nx.add_edges_from es g).
Proof.
  unfold Nx.add_edges_from. revert g.
  induction es as [|[a b] es IH]; intros g Hg; simpl; [done|].
  by apply IH, wf_add_edge.
Qed.

Lemma remove_edge_run (g : Nx.Graph) (u v : Z) :
  Nx.has_edge g u v → Nx.has_edge g v u →
  ∃ g', Nx.remove_edge u v g = (Ok tt, g')
        ∧ dom g' = dom g
        ∧ ∀ x y, Nx.has_edge g' x y
                 ↔ Nx.has_edge g x y ∧ ¬ ((x = u ∧ y = v) ∨ (x = v ∧ y = u)).
Proof.
  intros Huv Hvu. unfold Nx.remove_edge. rewrite bind_run. simpl.
  rewrite decide_True by done. rewrite bind_run. simpl.
  assert (u ∈ dom g) as Hu.
  { unfold Nx.has_edge, Nx.neighbors in Huv. apply elem_of_dom.
    destruct (g !! u); [done|set_solver]. }
  assert (v ∈ dom g) as Hv.
  { unfold Nx.has_edge, Nx.neighbors in Hvu. apply elem_of_dom.
    destruct (g !! v); [done|set_solver]. }
  destruct (decide (u = v)) as [->|Hne].
  - eexists. split; [done|]. split; [rewrite dom_insert_L; set_solver|].
    intros x y. unfold Nx.has_edge. rewrite neighbors_insert.
    case_decide; subst; set_solver.
  - rewrite bind_run. simpl. rewrite decide_True.
    2:{ unfold Nx.has_edge. rewrite neighbors_insert, decide_False by done. done. }
    eexists. split; [done|]. split; [rewrite !dom_insert_L; set_solver|].
    intros x y. unfold Nx.has_edge. rewrite !neighbors_insert.
    repeat case_decide; subst; rewrite ?neighbors_insert; repeat case_decide; set_solver.
Qed.

(** ** Connected components *)

(** What the search knows after some rounds from [source]. *)
Definition bfs_inv (g : Nx.Graph) (source : Z) (fuel : nat) (seen frontier : gset Z) : Prop :=
  source ∈ seen
  ∧ frontier ⊆ seen
  ∧ (∀ x, x ∈ seen → Nx.connected g source x)
  ∧ (∀ x y, x ∈ seen → x ∉ frontier → Nx.has_edge g x y → y ∈ seen)
  ∧ seen ⊆ dom g
  ∧ (size (dom g) < size seen + fuel)%nat.

Lemma closed_reaches (g : Nx.Graph) (source : Z) (seen : gset Z) :
  source ∈ seen →
  (∀ x y, x ∈ seen → Nx.has_edge g x y → y ∈ seen) →
  ∀ x, Nx.connected g source x → x ∈ seen.
Proof.
  intros Hs Hclosed x Hx. induction Hx as [|x y z Hxy _ IH]; [done|].
  apply IH. by eapply Hclosed.
Qed.

Lemma bfs_closed (g : Nx.Graph) (source : Z) (fuel : nat) (seen frontier : gset Z) :
  Nx.wf g → bfs_inv g source fuel seen frontier →
  ∀ x, x ∈ Nx.bfs fuel g seen frontier ↔ Nx.connected g source x.
Proof.
  intros [Hnodes _]. revert seen frontier.
  induction fuel as [|fuel IH]; intros seen frontier (Hs & Hf & Hreach & Hdone & Hdom & Hsize).
  { apply subseteq_size in Hdom. lia. }
  simpl. set (next := set_bind (Nx.neighbors g) frontier ∖ seen).
  assert (∀ x y, x ∈ frontier → Nx.has_edge g x y → y ∈ seen ∨ y ∈ next) as Hstep.
  { intros x y Hx Hxy. destruct (decide (y ∈ seen)); [by left|right].
    apply elem_of_difference. split; [|done]. apply elem_of_set_bind. by exists x. }
  case_decide as Hnext.
  - intros x. split; [apply Hreach|].
    apply closed_reaches; [done|]. intros a c Ha Hac.
    destruct (decide (a ∈ frontier)) as [Hin|Hout]; [|by eapply Hdone].
    destruct (Hstep a c Hin Hac) as [?|Hc]; [done|]. rewrite Hnext in Hc. set_solver.
  - apply IH. split_and!.
    + set_solver.
    + set_solver.
    + intros x [Hx|Hx]%elem_of_union; [by apply Hreach|].
      apply elem_of_difference in Hx as [Hx _].
      apply elem_of_set_bind in Hx as (a & Ha & Hax).
      eapply rtc_r; [apply Hreach, Hf, Ha|done].
    + intros x y [Hx|Hx]%elem_of_union Hout Hxy; [|done].
      destruct (decide (x ∈ frontier)) as [Hin|Hnin].
      * destruct (Hstep x y Hin Hxy); set_solver.
      * apply elem_of_union_l. by eapply Hdone.
    + intros x [Hx|Hx]%elem_of_union; [by apply Hdom|].
      apply elem_of_difference in Hx as [Hx _].
      apply elem_of_set_bind in Hx as (a & Ha & Hax). by eapply Hnodes.
    + rewrite size_union by set_solver.
      assert (size next ≠ 0%nat) by (by intros ?%size_empty_inv%leibniz_equiv).
      lia.
Qed.

Lemma node_connected_component_spec (g : Nx.Graph) (n x : Z) :
  Nx.wf g → Nx.has_node g n →
  x ∈ Nx.node_connected_component g n ↔ Nx.connected g n x.
Proof.
  intros Hwf Hn. apply bfs_closed; [done|].
  split_and!; [set_solver..| | | |].
  - intros y ->%elem_of_singleton. apply rtc_refl.
  - set_solver.
  - unfold Nx.has_node in Hn. set_solver.
  - rewrite size_singleton, size_dom. lia.
Qed.

Lemma expand_connected_spec (g : Nx.Graph) (segments : list Z) (x : Z) :
  Nx.wf g →
  x ∈ GraphUpdater.expand_connected g segments
  ↔ x ∈ segments ∨ ∃ s, s ∈ segments ∧ Nx.has_node g s ∧ Nx.connected g s x.
Proof.
  intros Hwf. unfold GraphUpdater.expand_connected.
  assert (∀ (l : list Z) (acc : gset Z),
    x ∈ foldl (λ curr sid,
                 if decide (Nx.has_node g sid)
                 then curr ∪ Nx.node_connected_component g sid else curr) acc l
    ↔ x ∈ acc ∨ ∃ s, s ∈ l ∧ Nx.has_node g s ∧ Nx.connected g s x) as Hfold.
  { induction l as [|s l IH]; intros acc; simpl.
    - set_solver.
    - rewrite IH. setoid_rewrite elem_of_cons. case_decide as Hs.
      + rewrite elem_of_union, node_connected_component_spec by done. naive_solver.
      + naive_solver. }
  rewrite Hfold, elem_of_list_to_set. naive_solver.
Qed.

Lemma expand_connected_idempotent (g : Nx.Graph) (segments : list Z) :
  Nx.wf g →
  GraphUpdater.expand_connected g (elements (GraphUpdater.expand_connected g segments))
  = GraphUpdater.expand_connected g segments.
Proof.
  intros Hwf. apply set_eq. intros x.
  rewrite (expand_connected_spec g (elements _)) by done.
  setoid_rewrite elem_of_elements. split; [|by left].
  intros [Hx|(s & Hs & Hnode & Hsx)]; [done|].
  apply expand_connected_spec in Hs as [Hs|(s0 & Hs0 & Hnode0 & Hs0s)]; [| |done].
  - apply expand_connected_spec; [done|]. right. by exists s.
  - apply expand_connected_spec; [done|]. right. exists s0.
    split_and!; [done..|]. by etrans.
Qed.

(** ** Shortest paths *)

Lemma is_walk_snoc (g : Nx.Graph) (l : list Z) (w : Z) :
  Nx.is_walk g l → (∀ u, last l = Some u → Nx.has_edge g u w) → Nx.is_walk g (l ++ [w]).
Proof.
  induction l as [|a [|b l] IH]; simpl; intros Hl Hw; [done|split; [by apply Hw|done]|].
  destruct Hl as [Hab Hl]. split; [done|]. apply IH; [done|]. intros u Hu. by apply Hw.
Qed.

Lemma walk_connected (g : Nx.Graph) (p : list Z) (a b : Z) :
  Nx.is_walk g p → head p = Some a → last p = Some b → Nx.connected g a b.
Proof.
  revert a. induction p as [|x [|y p] IH]; intros a Hw Ha Hb; simplify_eq/=.
  - apply rtc_refl.
  - destruct Hw as [Hxy Hw]. eapply rtc_l; [done|]. by apply IH.
Qed.

(** An entry of the frontier: a walk from [source], last node first. *)
Definition from_source (g : Nx.Graph) (source : Z) (p : list Z) : Prop :=
  p ≠ [] ∧ last p = Some source ∧ Nx.is_walk g (reverse p).

Lemma extend_from_source (g : Nx.Graph) (source : Z) (seen : gset Z) (frontier : list (list Z)) :
  Forall (from_source g source) frontier →
  Forall (from_source g source) (Nx.extend g seen frontier).2.
Proof.
  revert seen. induction frontier as [|p ps IH]; intros seen Hall; simpl; [done|].
  apply Forall_cons in Hall as [(Hne & Hlast & Hwalk) Hps].
  destruct (Nx.extend g _ ps) as [seen' ps'] eqn:Hext. simpl.
  apply Forall_app. split.
  - apply Forall_fmap, Forall_forall. intros w Hw.
    apply list_elem_of_filter in Hw as [_ Hw]. apply elem_of_elements in Hw.
    destruct p as [|u p]; [done|]. simpl in *.
    split_and!; [done|done|].
    rewrite reverse_cons. apply is_walk_snoc; [done|].
    intros u'. rewrite last_reverse. by intros [= <-].
  - specialize (IH (seen ∪ list_to_set
      (filter (λ w, w ∉ seen) (elements (Nx.neighbors g (default 0 (head p)))))) Hps).
    by rewrite Hext in IH.
Qed.

Lemma search_sound (g : Nx.Graph) (source target : Z) (fuel : nat) (seen : gset Z)
  (frontier : list (list Z)) (path : list Z) :
  Forall (from_source g source) frontier →
  Nx.search fuel g target seen frontier = Some path →
  head path = Some source ∧ last path = Some target ∧ Nx.is_walk g path.
Proof.
  revert seen frontier. induction fuel as [|fuel IH]; intros seen frontier Hall; simpl.
  - destruct (list_find _ frontier) as [[i p]|] eqn:Hfind; [|done].
    intros [= <-]. apply list_find_Some in Hfind as (Hp & Hhead & _).
    apply list_elem_of_lookup_2 in Hp.
    apply (proj1 (Forall_forall _ _) Hall) in Hp as (_ & Hlast & Hwalk).
    by rewrite head_reverse, last_reverse.
  - destruct (list_find _ frontier) as [[i p]|] eqn:Hfind.
    + intros [= <-]. apply list_find_Some in Hfind as (Hp & Hhead & _).
      apply list_elem_of_lookup_2 in Hp.
      apply (proj1 (Forall_forall _ _) Hall) in Hp as (_ & Hlast & Hwalk).
      by rewrite head_reverse, last_reverse.
    + pose proof (extend_from_source g source seen frontier Hall) as Hnext.
      destruct (Nx.extend g seen frontier) as [seen' frontier']. simpl in Hnext.
      destruct frontier' as [|p ps]; [done|]. by apply IH.
Qed.

Lemma shortest_path_sound (g : Nx.Graph) (a b : Z) (path : list Z) :
  Nx.shortest_path g a b = Ok path →
  Nx.has_node g a ∧ Nx.has_node g b
  ∧ head path = Some a ∧ last path = Some b ∧ Nx.is_walk g path.
Proof.
  unfold Nx.shortest_path. case_decide as Hn; [|done].
  destruct (Nx.search _ _ _ _ _) as [p|] eqn:Hs; [|done]. intros [= <-].
  destruct Hn. split_and!; [done..| | |]; eapply (search_sound g a b); try exact Hs;
    apply Forall_singleton; by split_and!.
Qed.

Lemma shortest_path_no_path (g : Nx.Graph) (a b : Z) :
  Nx.has_node g a → Nx.has_node g b → ¬ Nx.connected g a b →
  Nx.shortest_path g a b = Raise NetworkXNoPath.
Proof.
  intros Ha Hb Hnc. destruct (Nx.shortest_path g a b) as [p|e] eqn:Hsp.
  - apply shortest_path_sound in Hsp as (_ & _ & Hh & Hl & Hw).
    destruct Hnc. by eapply walk_connected.
  - unfold Nx.shortest_path in Hsp. rewrite decide_True in Hsp by done.
    destruct (Nx.search _ _ _ _ _); simpl in Hsp; congruence.
Qed.

(** ** The split session *)

Lemma run_get {S B} (f : S → M S B) (s : S) : (get ≫= f) s = f s s.
Proof. reflexivity. Qed.

Lemma run_modify {S B} (g : S → S) (f : unit → M S B) (s : S) :
  (modify g ≫= f) s = f tt (g s).
Proof. reflexivity. Qed.

Lemma run_lift_ok {S A B} (a : A) (f : A → M S B) (s : S) :
  (lift_result (Ok a) ≫= f) s = f a s.
Proof. reflexivity. Qed.

Lemma run_lift_raise {S A B} (e : exn) (f : A → M S B) (s : S) :
  (lift_result (Raise e) ≫= f) s = (Raise e, s).
Proof. reflexivity. Qed.

Lemma run_ret {S A B} (a : A) (f : A → M S B) (s : S) : (mret a ≫= f) s = f a s.
Proof. reflexivity. Qed.

Lemma run_update_msg (msg : status_msg) (st : GraphUpdater.t) :
  GraphUpdater.update_msg msg st
  = (Ok tt, GraphUpdater.set_base
              (Base.set_viewer
                 (Viewer.set_status msg (Base.viewer (GraphUpdater.base st)))
                 (GraphUpdater.base st)) st).
Proof. reflexivity. Qed.

Lemma base_only_start_split_tail :
  base_only
    (s ← GraphUpdater.viewer_state;
     s ← lift_result (ViewerState.update_layer "seg" (Layer.set_visible false) s);
     s ← lift_result (ViewerState.update_layer "split" (Layer.set_visible true) s);
     GraphUpdater.inherited (Base.set_state s);;
     GraphUpdater.update_split).
Proof. unfold GraphUpdater.viewer_state. base_only. Qed.

Lemma start_split_exec (st : GraphUpdater.t) (a d : Z) (path : list Z) :
  GraphUpdater.split_objects st = [a; d] →
  Nx.shortest_path (GraphUpdater.graph st) a d = Ok path →
  ∃ b, exec GraphUpdater.start_split st
       = GraphUpdater.set_base b
           (GraphUpdater.set_split_index 1 (GraphUpdater.set_split_path path st)).
Proof.
  intros Hobj Hsp. unfold GraphUpdater.start_split, exec.
  rewrite run_get, Hobj. simpl Py.index. simpl from_option.
  rewrite !run_lift_ok, Hsp, run_lift_ok, !run_modify.
  rewrite bind_run, run_update_msg.
  match goal with |- ∃ b, (_ ?s).2 = _ => destruct (base_only_start_split_tail s) as [b Hb] end.
  exists b. rewrite Hb. by destruct st.
Qed.

Lemma start_split_raise (st : GraphUpdater.t) (a d : Z) (e : exn) :
  GraphUpdater.split_objects st = [a; d] →
  Nx.shortest_path (GraphUpdater.graph st) a d = Raise e →
  GraphUpdater.start_split st = (Raise e, st).
Proof.
  intros Hobj Hsp. unfold GraphUpdater.start_split.
  rewrite run_get, Hobj. simpl Py.index. simpl from_option.
  by rewrite !run_lift_ok, Hsp, run_lift_raise.
Qed.

(** The inherited part after [update_msg(msg)]. *)
Definition with_status (msg : status_msg) (b : Base.t) : Base.t :=
  Base.set_viewer (Viewer.set_status msg (Base.viewer b)) b.

Lemma add_split_first (st : GraphUpdater.t) (a : Z) :
  GraphUpdater.split_objects st = [] →
  GraphUpdater.add_split a st
  = (Ok tt, GraphUpdater.set_base (with_status (MsgSplit [a]) (GraphUpdater.base st))
              (GraphUpdater.set_split_objects [a] st)).
Proof.
  intros Hobj. unfold GraphUpdater.add_split.
  rewrite run_get, Hobj. simpl. by destruct st.
Qed.

Lemma add_split_second_prefix (st : GraphUpdater.t) (a d : Z) :
  GraphUpdater.split_objects st = [a] →
  GraphUpdater.add_split d st
  = GraphUpdater.start_split
      (GraphUpdater.set_base (with_status (MsgSplit [a; d]) (GraphUpdater.base st))
         (GraphUpdater.set_split_objects [a; d] st)).
Proof.
  intros Hobj. unfold GraphUpdater.add_split.
  rewrite run_get, Hobj. simpl. by destruct st.
Qed.

Lemma add_split_second (st : GraphUpdater.t) (a d : Z) (path : list Z) :
  GraphUpdater.split_objects st = [a] →
  Nx.shortest_path (GraphUpdater.graph st) a d = Ok path →
  ∃ b, exec (GraphUpdater.add_split d) st
       = GraphUpdater.set_base b
           (GraphUpdater.set_split_index 1
              (GraphUpdater.set_split_path path
                 (GraphUpdater.set_split_objects [a; d] st))).
Proof.
  intros Hobj Hsp. unfold exec. rewrite (add_split_second_prefix st a d Hobj).
  match goal with |- ∃ b, (_ ?s).2 = _ =>
    destruct (start_split_exec s a d path) as [b Hb]; [done|by destruct st|] end.
  exists b. unfold exec in Hb. rewrite Hb. by destruct st.
Qed.

Lemma add_split_second_raise (st : GraphUpdater.t) (a d : Z) (e : exn) :
  GraphUpdater.split_objects st = [a] →
  Nx.shortest_path (GraphUpdater.graph st) a d = Raise e →
  GraphUpdater.add_split d st
  = (Raise e, GraphUpdater.set_base (with_status (MsgSplit [a; d]) (GraphUpdater.base st))
                (GraphUpdater.set_split_objects [a; d] st)).
Proof.
  intros Hobj Hsp. rewrite (add_split_second_prefix st a d Hobj).
  apply (start_split_raise _ a d); [done|by destruct st].
Qed.

Lemma base_only_clear_splits_tail :
  base_only
    (GraphUpdater.update_msg MsgSplitsCleared;;
     s ← GraphUpdater.viewer_state;
     s ← lift_result (ViewerState.update_layer "split" (Layer.set_visible false) s);
     s ← lift_result (ViewerState.update_layer "seg" (Layer.set_visible true) s);
     GraphUpdater.inherited (Base.set_state s)).
Proof. unfold GraphUpdater.viewer_state, GraphUpdater.update_msg. base_only. Qed.

Lemma clear_splits_exec (st : GraphUpdater.t) :
  ∃ b, exec GraphUpdater.clear_splits st
       = GraphUpdater.set_base b (GraphUpdater.set_split_objects [] st).
Proof.
  unfold GraphUpdater.clear_splits.
  apply (then_base_only (GraphUpdater.set_split_objects [])), base_only_clear_splits_tail.
Qed.

Lemma accept_split_exec (st : GraphUpdater.t) (u v : Z) (rest : list Z) (g' : Nx.Graph) :
  Py.slice (GraphUpdater.split_path st)
           (GraphUpdater.split_index st - 1) (GraphUpdater.split_index st + 1)
  = u :: v :: rest →
  Nx.remove_edge u v (GraphUpdater.graph st) = (Ok tt, g') →
  ∃ b, exec GraphUpdater.accept_split st
       = GraphUpdater.set_base b
           (GraphUpdater.set_split_objects [] (GraphUpdater.set_graph g' st)).
Proof.
  intros Hedge Hrm. unfold GraphUpdater.accept_split, exec.
  rewrite run_get, Hedge, bind_run. unfold GraphUpdater.on_graph at 1. rewrite Hrm.
  destruct (clear_splits_exec (GraphUpdater.set_graph g' st)) as [b Hb].
  exists b. apply Hb.
Qed.

Lemma accept_split_no_edge (st : GraphUpdater.t) (x : Z) :
  Py.slice (GraphUpdater.split_path st)
           (GraphUpdater.split_index st - 1) (GraphUpdater.split_index st + 1)
  = [x] →
  GraphUpdater.accept_split st = (Ok tt, st).
Proof.
  intros Hedge. unfold GraphUpdater.accept_split. by rewrite run_get, Hedge.
Qed.

(** C3, as stated, fails: on the path [1, 2, 3, 4] with the cursor at
    [3 = len(split_path) - 1], [inc_split] moves the cursor to
    [4 = len(split_path)], where [split_path[3:5]] is the single node 4
    and no edge is addressed. *)
Lemma cursor_reaches_path_length :
  let st := Scenario.trimmed in
  1 ≤ GraphUpdater.split_index st ≤ Py.len (GraphUpdater.split_path st) - 1
  ∧ ¬ (GraphUpdater.split_index (exec GraphUpdater.inc_split st)
       ≤ Py.len (GraphUpdater.split_path (exec GraphUpdater.inc_split st)) - 1)
  ∧ Py.slice (GraphUpdater.split_path (exec GraphUpdater.inc_split st))
             (GraphUpdater.split_index (exec GraphUpdater.inc_split st) - 1)
             (GraphUpdater.split_index (exec GraphUpdater.inc_split st) + 1) = [4].
Proof. vm_compute. split_and!; [discriminate..| |reflexivity]. intros H. by apply H. Qed.

(** C3, amended: [inc_split] sets the cursor to
    [min(len(split_path), split_index + 1)] and [dec_split] to
    [max(1, split_index - 1)]; from [1 <= split_index <= len(split_path)]
    every sequence of cursor moves keeps [1 <= split_index <= len(split_path)]
    and the path.  The edge [(split_path[split_index - 1], split_path[split_index])]
    is addressed while [split_index <= len(split_path) - 1]; at
    [split_index = len(split_path)] there is none and [accept_split]
    returns without a change. *)
Theorem cursor_stays_in_path (st : GraphUpdater.t) (mvs : list Cursor.move) :
  Cursor.in_path st →
  let path := GraphUpdater.split_path st in
  let cursor := GraphUpdater.split_index st in
  Cursor.in_path (Cursor.run mvs st)
  ∧ GraphUpdater.split_path (Cursor.run mvs st) = path
  ∧ GraphUpdater.split_index (exec GraphUpdater.inc_split st) = Z.min (Py.len path) (cursor + 1)
  ∧ GraphUpdater.split_index (exec GraphUpdater.dec_split st) = Z.max 1 (cursor - 1)
  ∧ (cursor ≤ Py.len path - 1 →
     ∃ u v, path !! Z.to_nat (cursor - 1) = Some u ∧ path !! Z.to_nat cursor = Some v
            ∧ Py.slice path (cursor - 1) (cursor + 1) = [u; v])
  ∧ (cursor = Py.len path → GraphUpdater.accept_split st = (Ok tt, st)).
Proof.
  intros Hin path cursor.
  destruct (cursor_run mvs st Hin) as (H1 & H2 & _).
  unfold Cursor.in_path in Hin. fold path cursor in Hin.
  split_and!; [done|done| | | |].
  - destruct (inc_split_exec st) as [b ->]. done.
  - destruct (dec_split_exec st) as [b ->]. done.
  - intros Hc.
    destruct (lookup_lt_is_Some_2 path (Z.to_nat (cursor - 1))) as [u Hu];
      [unfold Py.len in *; lia|].
    destruct (lookup_lt_is_Some_2 path (Z.to_nat cursor)) as [v Hv];
      [unfold Py.len in *; lia|].
    exists u, v. split_and!; [done..|]. apply slice_pair; [lia|done..].
  - intros Hc.
    destruct (slice_last path) as [x Hx].
    { intros Hnil. rewrite Hnil in Hin. unfold Py.len in Hin. simpl in Hin. lia. }
    apply (accept_split_no_edge st x). fold path cursor. by rewrite Hc.
Qed.

Lemma cursor_stays_in_path_witness :
  Cursor.in_path Scenario.selected
  ∧ Cursor.in_path (Cursor.run [Cursor.Inc; Cursor.Inc; Cursor.Inc; Cursor.Dec] Scenario.selected).
Proof.
  assert (Cursor.in_path Scenario.selected) as H by (by vm_compute).
  split; [exact H|].
  apply (cursor_stays_in_path Scenario.selected
           [Cursor.Inc; Cursor.Inc; Cursor.Inc; Cursor.Dec] H).
Defined.

(** C4, as stated, fails in its last part: after the split of the path
    [1 - 2 - 3 - 4] is accepted, no endpoint is selected any more, but
    [split_path] and [split_index] are what they were before. *)
Lemma accept_split_keeps_path_and_cursor :
  GraphUpdater.idle Scenario.committed
  ∧ GraphUpdater.split_path Scenario.committed = [1; 2; 3; 4]
  ∧ GraphUpdater.split_index Scenario.committed = 3
  ∧ ¬ (GraphUpdater.split_path Scenario.committed = []
       ∧ GraphUpdater.split_index Scenario.committed = 1).
Proof. vm_compute. split_and!; [reflexivity..|]. by intros [[=] _]. Qed.

(** C4, amended: when the shortest path between [A] and [D] is
    [A, B, C, D], selecting [A] and then [D] from a session with no
    endpoint gives [split_objects = [A, D]], [split_path = [A, B, C, D]]
    and [split_index = 1]; two [inc_split] give [split_index = 3];
    [accept_split] then removes exactly the edge [(C, D)] (both
    directions, nodes kept) and empties [split_objects].  [split_path]
    and [split_index] are left as they are. *)
Theorem split_scenario (st : GraphUpdater.t) (A B C D : Z) :
  Nx.wf (GraphUpdater.graph st) →
  GraphUpdater.idle st →
  Nx.shortest_path (GraphUpdater.graph st) A D = Ok [A; B; C; D] →
  let selected := exec (GraphUpdater.add_split D) (exec (GraphUpdater.add_split A) st) in
  let trimmed := exec GraphUpdater.inc_split (exec GraphUpdater.inc_split selected) in
  let committed := exec GraphUpdater.accept_split trimmed in
  (GraphUpdater.split_objects selected = [A; D]
   ∧ GraphUpdater.split_path selected = [A; B; C; D]
   ∧ GraphUpdater.split_index selected = 1)
  ∧ GraphUpdater.split_index trimmed = 3
  ∧ Nx.has_edge (GraphUpdater.graph st) C D
  ∧ (∀ u v, Nx.has_edge (GraphUpdater.graph committed) u v
            ↔ Nx.has_edge (GraphUpdater.graph st) u v
              ∧ ¬ ((u = C ∧ v = D) ∨ (u = D ∧ v = C)))
  ∧ dom (GraphUpdater.graph committed) = dom (GraphUpdater.graph st)
  ∧ GraphUpdater.idle committed
  ∧ GraphUpdater.split_path committed = [A; B; C; D]
  ∧ GraphUpdater.split_index committed = 3.
Proof.
  intros [Hnodes Hsym] Hidle Hsp selected trimmed committed.
  unfold GraphUpdater.idle in *.
  assert (Nx.has_edge (GraphUpdater.graph st) C D) as HCD.
  { apply shortest_path_sound in Hsp as (_ & _ & _ & _ & Hw). simpl in Hw. tauto. }
  assert (exec (GraphUpdater.add_split A) st
          = GraphUpdater.set_base
              (with_status (MsgSplit [A]) (GraphUpdater.base st))
              (GraphUpdater.set_split_objects [A] st)) as H1.
  { unfold exec. by rewrite add_split_first. }
  destruct (add_split_second (exec (GraphUpdater.add_split A) st) A D [A; B; C; D])
    as [b2 H2]; [by rewrite H1|by rewrite H1|].
  fold selected in H2. rewrite H1 in H2. simpl in H2.
  destruct (inc_split_exec selected) as [b3 H3].
  destruct (inc_split_exec (exec GraphUpdater.inc_split selected)) as [b4 H4].
  fold trimmed in H4. rewrite H3 in H4. rewrite H2 in H3, H4. simpl in H3, H4.
  destruct (remove_edge_run (GraphUpdater.graph st) C D HCD (Hsym _ _ HCD))
    as (g' & Hrm & Hdom & Hedges).
  destruct (accept_split_exec trimmed C D [] g') as [b5 H5].
  { rewrite H4. reflexivity. }
  { by rewrite H4. }
  fold committed in H5. rewrite H4 in H5. simpl in H5.
  rewrite H2, H4, H5. simpl. split_and!; done.
Qed.

Lemma split_scenario_witness :
  Nx.wf (GraphUpdater.graph Scenario.editor)
  ∧ GraphUpdater.idle Scenario.editor
  ∧ Nx.shortest_path (GraphUpdater.graph Scenario.editor) 1 4 = Ok [1; 2; 3; 4]
  ∧ let selected := exec (GraphUpdater.add_split 4) (exec (GraphUpdater.add_split 1) Scenario.editor) in
    let trimmed := exec GraphUpdater.inc_split (exec GraphUpdater.inc_split selected) in
    let committed := exec GraphUpdater.accept_split trimmed in
    GraphUpdater.split_index trimmed = 3
  ∧ ¬ Nx.has_edge (GraphUpdater.graph committed) 3 4.
Proof.
  assert (Nx.wf (GraphUpdater.graph Scenario.editor)) as Hwf
    by apply wf_add_edges_from, wf_empty.
  assert (GraphUpdater.idle Scenario.editor) as Hidle by reflexivity.
  assert (Nx.shortest_path (GraphUpdater.graph Scenario.editor) 1 4 = Ok [1; 2; 3; 4])
    as Hsp by (vm_compute; reflexivity).
  split; [exact Hwf|]. split; [exact Hidle|]. split; [exact Hsp|].
  intros selected trimmed committed.
  pose proof (split_scenario Scenario.editor 1 2 3 4 Hwf Hidle Hsp) as H.
  destruct H as (_ & Hcursor & _ & Hedges & _).
  split; [exact Hcursor|].
  intros Hin. apply (proj1 (Hedges 3 4)) in Hin. destruct Hin as [_ Hno]. apply Hno. left. split; reflexivity.
Defined.

(** ** No path between the selected endpoints *)

(** C9, as stated, fails: with the graph [1 - 2], [3 - 4], selecting 1
    and then 4 makes [add_split] raise [NetworkXNoPath]; both endpoints
    stay selected and the status line is the selection message. *)
Lemma add_split_raises_no_path :
  let st := exec (GraphUpdater.add_split 1) Scenario.editor_two_parts in
  outcome (GraphUpdater.add_split 4) st = Raise NetworkXNoPath
  ∧ ¬ GraphUpdater.idle (exec (GraphUpdater.add_split 4) st)
  ∧ Viewer.status (Base.viewer (GraphUpdater.base (exec (GraphUpdater.add_split 4) st)))
    = Some (MsgSplit [1; 4]).
Proof. vm_compute. split_and!; [reflexivity| |reflexivity]. discriminate. Qed.

(** C9, amended: when the second selected endpoint [d] cannot be reached
    from the first, [a], both being nodes of the graph, [add_split] raises
    [NetworkXNoPath] to its caller.  [split_objects] stays [[a, d]], the
    status line is the selection message ['split: a:d'], and graph, path
    and cursor are unchanged. *)
Theorem no_path_is_raised (st : GraphUpdater.t) (a d : Z) :
  GraphUpdater.idle st →
  Nx.has_node (GraphUpdater.graph st) a →
  Nx.has_node (GraphUpdater.graph st) d →
  ¬ Nx.connected (GraphUpdater.graph st) a d →
  let st1 := exec (GraphUpdater.add_split a) st in
  let st2 := exec (GraphUpdater.add_split d) st1 in
  outcome (GraphUpdater.add_split d) st1 = Raise NetworkXNoPath
  ∧ GraphUpdater.split_objects st2 = [a; d]
  ∧ ¬ GraphUpdater.idle st2
  ∧ Viewer.status (Base.viewer (GraphUpdater.base st2)) = Some (MsgSplit [a; d])
  ∧ GraphUpdater.graph st2 = GraphUpdater.graph st
  ∧ GraphUpdater.split_path st2 = GraphUpdater.split_path st
  ∧ GraphUpdater.split_index st2 = GraphUpdater.split_index st.
Proof.
  intros Hidle Ha Hd Hnc st1 st2. unfold GraphUpdater.idle in *.
  assert (st1 = GraphUpdater.set_base
                  (with_status (MsgSplit [a]) (GraphUpdater.base st))
                  (GraphUpdater.set_split_objects [a] st)) as H1.
  { unfold st1, exec. by rewrite add_split_first. }
  pose proof (add_split_second_raise st1 a d NetworkXNoPath) as H2.
  rewrite H1 in H2 at 1 2. simpl in H2.
  specialize (H2 eq_refl (shortest_path_no_path _ a d Ha Hd Hnc)).
  unfold st2, outcome, exec. rewrite H2, H1. simpl. split_and!; done.
Qed.

Lemma no_path_is_raised_witness :
  GraphUpdater.idle Scenario.editor_two_parts
  ∧ Nx.has_node Scenario.two_parts 1
  ∧ Nx.has_node Scenario.two_parts 4
  ∧ ¬ Nx.connected Scenario.two_parts 1 4
  ∧ outcome (GraphUpdater.add_split 4)
            (exec (GraphUpdater.add_split 1) Scenario.editor_two_parts)
    = Raise NetworkXNoPath.
Proof.
  assert (Nx.wf Scenario.two_parts) as Hwf by apply wf_add_edges_from, wf_empty.
  assert (GraphUpdater.idle Scenario.editor_two_parts) as Hidle by reflexivity.
  assert (Nx.has_node Scenario.two_parts 1) as H1 by (by vm_compute).
  assert (Nx.has_node Scenario.two_parts 4) as H4 by (by vm_compute).
  assert (¬ Nx.connected Scenario.two_parts 1 4) as Hnc.
  { intros Hc. apply (node_connected_component_spec _ 1 4 Hwf H1) in Hc.
    by vm_compute in Hc. }
  split_and!; [done..|].
  apply (no_path_is_raised Scenario.editor_two_parts 1 4 Hidle H1 H4 Hnc).
Defined.

(** ** Merging *)

Lemma slice_tail {A} (l : list A) : Py.slice l 1 (Py.len l) = drop 1 l.
Proof.
  unfold Py.slice, Py.bound, Py.len. rewrite !decide_False by lia.
  destruct l as [|x l]; [done|]. simpl length.
  replace (Z.to_nat (1 `min` Z.of_nat (S (length l)))) with 1%nat by lia.
  apply take_ge. rewrite length_drop. simpl. lia.
Qed.

Lemma elem_of_zip_next {A} (l : list A) (a b : A) :
  (a, b) ∈ Py.zip_next l ↔ ∃ i : nat, l !! i = Some a ∧ l !! S i = Some b.
Proof.
  unfold Py.zip_next. rewrite slice_tail, list_elem_of_lookup.
  setoid_rewrite lookup_zip_Some. setoid_rewrite lookup_drop. done.
Qed.

(** C5. [merge_segments] keeps the displayed ids [sid > 0], in order, and
    adds to the graph the edges between neighbours in that list and
    nothing else: the graph has an edge afterwards exactly when it had it
    before or its ends are two consecutive kept ids.  The rest of the
    state is untouched.  For the ids [5, 7, 0, 9] the added edges are
    [(5, 7)] and [(7, 9)]. *)
Theorem merge_adds_consecutive_edges (st : GraphUpdater.t) (l : Layer.t) :
  ViewerState.layers (Viewer.state (Base.viewer (GraphUpdater.base st))) !! "seg" = Some l →
  let sids := filter (λ sid, sid > 0) (Layer.segments l) in
  let st' := exec GraphUpdater.merge_segments st in
  GraphUpdater.merge_segments st
  = (Ok tt, GraphUpdater.set_graph
              (Nx.add_edges_from (Py.zip_next sids) (GraphUpdater.graph st)) st)
  ∧ (∀ u v, Nx.has_edge (GraphUpdater.graph st') u v
            ↔ Nx.has_edge (GraphUpdater.graph st) u v
              ∨ ∃ i : nat, (sids !! i = Some u ∧ sids !! S i = Some v)
                           ∨ (sids !! i = Some v ∧ sids !! S i = Some u))
  ∧ (∀ sid, sid ∈ sids ↔ sid ∈ Layer.segments l ∧ sid > 0)
  ∧ (Layer.segments l = [5; 7; 0; 9] → Py.zip_next sids = [(5, 7); (7, 9)]).
Proof.
  intros Hl sids st'.
  assert (GraphUpdater.merge_segments st
          = (Ok tt, GraphUpdater.set_graph
                      (Nx.add_edges_from (Py.zip_next sids) (GraphUpdater.graph st)) st)) as Hrun.
  { unfold GraphUpdater.merge_segments, GraphUpdater.seg_segments, GraphUpdater.viewer_state.
    rewrite !bind_run. simpl. unfold ViewerState.layer. rewrite Hl. reflexivity. }
  split_and!; [done| | |].
  - intros u v. unfold st', exec. rewrite Hrun. simpl.
    rewrite has_edge_add_edges_from, !elem_of_zip_next. naive_solver.
  - intros sid. unfold sids. by rewrite list_elem_of_filter, (comm and).
  - intros Hids. unfold sids. rewrite Hids. reflexivity.
Qed.

Module MergeScenario.

(** The editor with the ids 5, 7, 0, 9 displayed, on an empty graph. *)
Definition st : GraphUpdater.t :=
  GraphUpdater.mk
    (Base.mk
       (Viewer.mk
          (ViewerState.mk {[ "seg" := Layer.mk [5; 7; 0; 9] true [] ]} None None)
          None [])
       0 ["seg"] [] 0 1 false None)
    ∅ [] [] 1 1 ∅.

End MergeScenario.

Lemma merge_adds_consecutive_edges_witness :
  Py.zip_next (filter (λ sid, sid > 0) [5; 7; 0; 9]) = [(5, 7); (7, 9)]
  ∧ GraphUpdater.graph (exec GraphUpdater.merge_segments MergeScenario.st)
    = Nx.add_edges_from [(5, 7); (7, 9)] ∅.
Proof.
  pose proof (merge_adds_consecutive_edges MergeScenario.st
                (Layer.mk [5; 7; 0; 9] true []) eq_refl) as (Hrun & _ & _ & Hpairs).
  split; [exact (Hpairs eq_refl)|].
  unfold exec. rewrite Hrun. reflexivity.
Defined.

(** ** Classification *)

Lemma members_classify_results (sid : Z) (cls : option string)
  (res : gmap string (gset Z)) (c : string) :
  ObjectClassification.members c (ObjectClassification.classify_results sid cls res)
  = ObjectClassification.members c res ∖ {[sid]}
    ∪ (if decide (cls = Some c) then {[sid]} else ∅).
Proof.
  unfold ObjectClassification.members, ObjectClassification.classify_results,
    ObjectClassification.add, ObjectClassification.discard.
  destruct cls as [c'|].
  - destruct (decide (c' = c)) as [->|Hne].
    + rewrite lookup_insert_eq, lookup_fmap, decide_True by done. simpl.
      destruct (res !! c); simpl; set_solver.
    + rewrite lookup_insert_ne, lookup_fmap, decide_False by congruence.
      destruct (res !! c); simpl; set_solver.
  - rewrite lookup_fmap, decide_False by done. destruct (res !! c); simpl; set_solver.
Qed.

Lemma classify_exec (cls : option string) (st : ObjectClassification.t) (sid : Z) :
  ObjectClassification.current_sid (ObjectClassification.base st) = Ok sid →
  ObjectClassification.results (exec (ObjectClassification.classify cls) st)
  = ObjectClassification.classify_results sid cls (ObjectClassification.results st).
Proof.
  intros Hsid. unfold ObjectClassification.classify, exec.
  rewrite run_get, Hsid, run_lift_ok, run_modify.
  unfold ObjectClassification.next_batch. rewrite run_get.
  unfold ObjectClassification.inherited. simpl.
  by destruct (Base.next_batch _ _).
Qed.

(** C6. [classify] takes the id out of the set of every class and then,
    unless the class is [None], puts it into the set of that class,
    created empty when missing: the members of a class [c] afterwards are
    the former ones without the id, plus the id when [c] is the given
    class.  So after [classify(X)] and [classify(Y)] of one id, the id is
    in the set of at most one class (that of [Y], or none for [None]).
    On the state, [classify] applies this to the first id of the current
    work item. *)
Theorem classify_at_most_one_class (sid : Z) (X Y : option string)
  (res : gmap string (gset Z)) :
  let once := ObjectClassification.classify_results sid X res in
  let twice := ObjectClassification.classify_results sid Y once in
  (∀ c, ObjectClassification.members c once
        = ObjectClassification.members c res ∖ {[sid]}
          ∪ (if decide (X = Some c) then {[sid]} else ∅))
  ∧ (∀ c1 c2, sid ∈ ObjectClassification.members c1 twice →
              sid ∈ ObjectClassification.members c2 twice → c1 = c2)
  ∧ (∀ c, sid ∈ ObjectClassification.members c twice ↔ Y = Some c)
  ∧ (∀ st, ObjectClassification.results st = res →
           ObjectClassification.current_sid (ObjectClassification.base st) = Ok sid →
           ObjectClassification.results (exec (ObjectClassification.classify X) st) = once).
Proof.
  intros once twice.
  assert (∀ c, sid ∈ ObjectClassification.members c twice ↔ Y = Some c) as Hin.
  { intros c. unfold twice. rewrite members_classify_results.
    case_decide; set_solver. }
  split_and!.
  - apply members_classify_results.
  - intros c1 c2 H1%Hin H2%Hin. congruence.
  - done.
  - intros st <- Hsid. by apply classify_exec.
Qed.

(** ** Marking bad *)

Lemma bad_of_ok (sids : list Z) :
  ∃ x, bad_of sids = Ok x
       ∧ (∀ sid, sids = [sid] → x = BadId sid)
       ∧ (length sids ≠ 1%nat → x = BadGroup (list_to_set sids)).
Proof.
  unfold bad_of, Py.len. case_decide as Hlen.
  - destruct sids as [|sid [|? ?]]; simpl in Hlen; try lia.
    exists (BadId sid). split_and!; [done| |done]. by intros ? [= <-].
  - eexists. split_and!; [done| |done]. intros sid ->. done.
Qed.

Lemma review_next_batch_exec (st : ObjectReview.t) :
  ∃ v, exec ObjectReview.next_batch st
       = ObjectReview.set_base
           (Base.set_viewer v
              (Base.set_index
                 (Z.min (Base.index (ObjectReview.base st) + Base.batch (ObjectReview.base st))
                        (Py.len (Base.todo (ObjectReview.base st)) - 1))
                 (ObjectReview.base st))) st.
Proof.
  unfold ObjectReview.next_batch, exec. rewrite run_get. unfold ObjectReview.inherited.
  destruct (next_batch_exec (ObjectReview.custom_msg st) (ObjectReview.base st)) as [v Hv].
  exists v. unfold exec in Hv.
  destruct (Base.next_batch _ _) as [r b]. simpl in *. by rewrite Hv.
Qed.

Lemma editor_next_batch_exec (st : GraphUpdater.t) :
  ∃ v, exec GraphUpdater.next_batch st
       = GraphUpdater.set_base
           (Base.set_viewer v
              (Base.set_index
                 (Z.min (Base.index (GraphUpdater.base st) + Base.batch (GraphUpdater.base st))
                        (Py.len (Base.todo (GraphUpdater.base st)) - 1))
                 (GraphUpdater.base st))) st.
Proof.
  unfold GraphUpdater.next_batch, exec. rewrite run_get. unfold GraphUpdater.inherited.
  destruct (next_batch_exec (GraphUpdater.custom_msg st) (GraphUpdater.base st)) as [v Hv].
  exists v. unfold exec in Hv.
  destruct (Base.next_batch _ _) as [r b]. simpl in *. by rewrite Hv.
Qed.

Lemma review_mark_bad_batch (st : ObjectReview.t) :
  Base.batch (ObjectReview.base st) > 1 →
  ObjectReview.mark_bad st
  = (Ok tt, ObjectReview.set_base (with_status MsgDecreaseBatch (ObjectReview.base st)) st).
Proof.
  intros Hb. unfold ObjectReview.mark_bad. rewrite run_get, decide_True by done. done.
Qed.

Lemma editor_mark_bad_batch (st : GraphUpdater.t) :
  Base.batch (GraphUpdater.base st) > 1 →
  GraphUpdater.mark_bad st
  = (Ok tt, GraphUpdater.set_base (with_status MsgDecreaseBatch (GraphUpdater.base st)) st).
Proof.
  intros Hb. unfold GraphUpdater.mark_bad. rewrite run_get, decide_True by done. done.
Qed.

Lemma review_mark_bad_one (st : ObjectReview.t) (sids : list Z) (x : bad_elem) :
  ¬ Base.batch (ObjectReview.base st) > 1 →
  Base.current_seg (ObjectReview.base st) = Ok sids →
  bad_of sids = Ok x →
  let st' := exec ObjectReview.mark_bad st in
  ObjectReview.bad st' = ObjectReview.bad st ∪ {[x]}
  ∧ Base.index (ObjectReview.base st')
    = Z.min (Base.index (ObjectReview.base st) + Base.batch (ObjectReview.base st))
            (Py.len (Base.todo (ObjectReview.base st)) - 1)
  ∧ Base.batch (ObjectReview.base st') = Base.batch (ObjectReview.base st).
Proof.
  intros Hb Hseg Hx st'.
  assert (exec ObjectReview.mark_bad st
          = exec ObjectReview.next_batch
              (ObjectReview.set_base
                 (with_status (MsgMarkedBad sids) (ObjectReview.base st))
                 (ObjectReview.set_bad (ObjectReview.bad st ∪ {[x]}) st))) as Hrun.
  { unfold ObjectReview.mark_bad, exec. rewrite run_get, decide_False by done.
    by rewrite Hseg, run_lift_ok, Hx, run_lift_ok, run_modify. }
  unfold st'. rewrite Hrun.
  match goal with |- context [exec ObjectReview.next_batch ?s] =>
    destruct (review_next_batch_exec s) as [v ->] end.
  done.
Qed.

Lemma editor_mark_bad_one (st : GraphUpdater.t) (sids : list Z) (x : bad_elem) :
  ¬ Base.batch (GraphUpdater.base st) > 1 →
  Base.current_seg (GraphUpdater.base st) = Ok sids →
  bad_of sids = Ok x →
  let st' := exec GraphUpdater.mark_bad st in
  GraphUpdater.bad st' = GraphUpdater.bad st ∪ {[x]}
  ∧ Base.index (GraphUpdater.base st')
    = Z.min (Base.index (GraphUpdater.base st) + Base.batch (GraphUpdater.base st))
            (Py.len (Base.todo (GraphUpdater.base st)) - 1)
  ∧ Base.batch (GraphUpdater.base st') = Base.batch (GraphUpdater.base st).
Proof.
  intros Hb Hseg Hx st'.
  assert (exec GraphUpdater.mark_bad st
          = exec GraphUpdater.next_batch
              (GraphUpdater.set_base
                 (with_status (MsgMarkedBad sids) (GraphUpdater.base st))
                 (GraphUpdater.set_bad (GraphUpdater.bad st ∪ {[x]}) st))) as Hrun.
  { unfold GraphUpdater.mark_bad, exec. rewrite run_get, decide_False by done.
    by rewrite Hseg, run_lift_ok, Hx, run_lift_ok, run_modify. }
  unfold st'. rewrite Hrun.
  match goal with |- context [exec GraphUpdater.next_batch ?s] =>
    destruct (editor_next_batch_exec s) as [v ->] end.
  done.
Qed.

Module MarkScenario.

(** A review of the items [{42}], [{42, 43}], [{7}] at the first item. *)
Definition base (batch : Z) : Base.t :=
  Base.mk Scenario.viewer 10 ["seg"]
    [ {[ "seg" := [42] ]}; {[ "seg" := [42; 43] ]}; {[ "seg" := [7] ]} ]
    0 batch false None.

Definition review (batch : Z) : ObjectReview.t := ObjectReview.mk (base batch) ∅.

Definition editor (batch : Z) : GraphUpdater.t :=
  GraphUpdater.mk (base batch) ∅ [] [] 1 1 ∅.

(** The same store at the item [index]. *)
Definition base_at (index batch : Z) : Base.t := Base.set_index index (base batch).

Definition review_at (index batch : Z) : ObjectReview.t :=
  ObjectReview.mk (base_at index batch) ∅.

Definition editor_at (index batch : Z) : GraphUpdater.t :=
  GraphUpdater.mk (base_at index batch) ∅ [] [] 1 1 ∅.

End MarkScenario.

Lemma current_seg_lookup (b : Base.t) (item : WorkItem) (sids : list Z) :
  0 ≤ Base.index b →
  Base.todo b !! Z.to_nat (Base.index b) = Some item →
  item !! "seg" = Some sids →
  Base.current_seg b = Ok sids.
Proof.
  intros Hi Hitem Hsids. unfold Base.current_seg, Py.index.
  rewrite decide_True by done. rewrite Hitem. simpl. by rewrite Hsids.
Qed.

(** C10. With [batch > 1], [mark_bad] of [ObjectReview] and of
    [GraphUpdater] only sets the status line and returns: the bad set,
    [index] and [batch] are as before.  Otherwise (with [batch >= 1]:
    [batch == 1]) it adds to the bad set the sole id of the current work
    item, the item [todo[index]] of the store with its ids under [seg],
    when the item has one id and the frozenset of its ids when not, and
    moves on as [next_batch] does.  So from [batch >= 1], a changed bad
    set or index means [batch == 1]. *)
Theorem mark_bad_needs_batch_one (r : ObjectReview.t) (e : GraphUpdater.t) :
  (Base.batch (ObjectReview.base r) > 1 →
   outcome ObjectReview.mark_bad r = Ok tt
   ∧ ObjectReview.bad (exec ObjectReview.mark_bad r) = ObjectReview.bad r
   ∧ Base.index (ObjectReview.base (exec ObjectReview.mark_bad r))
     = Base.index (ObjectReview.base r)
   ∧ Base.batch (ObjectReview.base (exec ObjectReview.mark_bad r))
     = Base.batch (ObjectReview.base r)
   ∧ Viewer.status (Base.viewer (ObjectReview.base (exec ObjectReview.mark_bad r)))
     = Some MsgDecreaseBatch)
  ∧ (Base.batch (GraphUpdater.base e) > 1 →
     outcome GraphUpdater.mark_bad e = Ok tt
     ∧ GraphUpdater.bad (exec GraphUpdater.mark_bad e) = GraphUpdater.bad e
     ∧ Base.index (GraphUpdater.base (exec GraphUpdater.mark_bad e))
       = Base.index (GraphUpdater.base e)
     ∧ Base.batch (GraphUpdater.base (exec GraphUpdater.mark_bad e))
       = Base.batch (GraphUpdater.base e)
     ∧ Viewer.status (Base.viewer (GraphUpdater.base (exec GraphUpdater.mark_bad e)))
       = Some MsgDecreaseBatch)
  ∧ (∀ (item : WorkItem) sids, Base.batch (ObjectReview.base r) = 1 →
       0 ≤ Base.index (ObjectReview.base r) →
       Base.todo (ObjectReview.base r) !! Z.to_nat (Base.index (ObjectReview.base r))
       = Some item →
       item !! "seg" = Some sids →
       ∃ x, ObjectReview.bad (exec ObjectReview.mark_bad r) = ObjectReview.bad r ∪ {[x]}
            ∧ (∀ sid, sids = [sid] → x = BadId sid)
            ∧ (length sids ≠ 1%nat → x = BadGroup (list_to_set sids))
            ∧ Base.index (ObjectReview.base (exec ObjectReview.mark_bad r))
              = Z.min (Base.index (ObjectReview.base r) + 1)
                      (Py.len (Base.todo (ObjectReview.base r)) - 1))
  ∧ (∀ (item : WorkItem) sids, Base.batch (GraphUpdater.base e) = 1 →
       0 ≤ Base.index (GraphUpdater.base e) →
       Base.todo (GraphUpdater.base e) !! Z.to_nat (Base.index (GraphUpdater.base e))
       = Some item →
       item !! "seg" = Some sids →
       ∃ x, GraphUpdater.bad (exec GraphUpdater.mark_bad e) = GraphUpdater.bad e ∪ {[x]}
            ∧ (∀ sid, sids = [sid] → x = BadId sid)
            ∧ (length sids ≠ 1%nat → x = BadGroup (list_to_set sids))
            ∧ Base.index (GraphUpdater.base (exec GraphUpdater.mark_bad e))
              = Z.min (Base.index (GraphUpdater.base e) + 1)
                      (Py.len (Base.todo (GraphUpdater.base e)) - 1))
  ∧ (1 ≤ Base.batch (ObjectReview.base r) →
     ObjectReview.bad (exec ObjectReview.mark_bad r) ≠ ObjectReview.bad r
     ∨ Base.index (ObjectReview.base (exec ObjectReview.mark_bad r))
       ≠ Base.index (ObjectReview.base r) →
     Base.batch (ObjectReview.base r) = 1)
  ∧ (1 ≤ Base.batch (GraphUpdater.base e) →
     GraphUpdater.bad (exec GraphUpdater.mark_bad e) ≠ GraphUpdater.bad e
     ∨ Base.index (GraphUpdater.base (exec GraphUpdater.mark_bad e))
       ≠ Base.index (GraphUpdater.base e) →
     Base.batch (GraphUpdater.base e) = 1).
Proof.
  assert (Base.batch (ObjectReview.base r) > 1 →
          outcome ObjectReview.mark_bad r = Ok tt
          ∧ ObjectReview.bad (exec ObjectReview.mark_bad r) = ObjectReview.bad r
          ∧ Base.index (ObjectReview.base (exec ObjectReview.mark_bad r))
            = Base.index (ObjectReview.base r)
          ∧ Base.batch (ObjectReview.base (exec ObjectReview.mark_bad r))
            = Base.batch (ObjectReview.base r)
          ∧ Viewer.status (Base.viewer (ObjectReview.base (exec ObjectReview.mark_bad r)))
            = Some MsgDecreaseBatch) as Hr.
  { intros Hb. unfold outcome, exec. by rewrite review_mark_bad_batch. }
  assert (Base.batch (GraphUpdater.base e) > 1 →
          outcome GraphUpdater.mark_bad e = Ok tt
          ∧ GraphUpdater.bad (exec GraphUpdater.mark_bad e) = GraphUpdater.bad e
          ∧ Base.index (GraphUpdater.base (exec GraphUpdater.mark_bad e))
            = Base.index (GraphUpdater.base e)
          ∧ Base.batch (GraphUpdater.base (exec GraphUpdater.mark_bad e))
            = Base.batch (GraphUpdater.base e)
          ∧ Viewer.status (Base.viewer (GraphUpdater.base (exec GraphUpdater.mark_bad e)))
            = Some MsgDecreaseBatch) as He.
  { intros Hb. unfold outcome, exec. by rewrite editor_mark_bad_batch. }
  split_and!; [done|done| | | |].
  - intros item sids Hb Hi Hitem Hsids.
    pose proof (current_seg_lookup _ item sids Hi Hitem Hsids) as Hseg.
    destruct (bad_of_ok sids) as (x & Hx & Hone & Hmany).
    destruct (review_mark_bad_one r sids x) as (Hbad & Hidx & _); [lia|done..|].
    exists x. rewrite Hb in Hidx. by split_and!.
  - intros item sids Hb Hi Hitem Hsids.
    pose proof (current_seg_lookup _ item sids Hi Hitem Hsids) as Hseg.
    destruct (bad_of_ok sids) as (x & Hx & Hone & Hmany).
    destruct (editor_mark_bad_one e sids x) as (Hbad & Hidx & _); [lia|done..|].
    exists x. rewrite Hb in Hidx. by split_and!.
  - intros Hb Hchanged. destruct (decide (Base.batch (ObjectReview.base r) > 1)) as [Hgt|]; [|lia].
    destruct (Hr Hgt) as (_ & Hbad & Hidx & _). by destruct Hchanged.
  - intros Hb Hchanged. destruct (decide (Base.batch (GraphUpdater.base e) > 1)) as [Hgt|]; [|lia].
    destruct (He Hgt) as (_ & Hbad & Hidx & _). by destruct Hchanged.
Qed.

Lemma mark_bad_needs_batch_one_witness :
  (Base.batch (ObjectReview.base (MarkScenario.review_at 1 2)) > 1
   ∧ ObjectReview.bad (exec ObjectReview.mark_bad (MarkScenario.review_at 1 2)) = ∅
   ∧ Base.index (ObjectReview.base (exec ObjectReview.mark_bad (MarkScenario.review_at 1 2)))
     = 1)
  ∧ (ObjectReview.bad (exec ObjectReview.mark_bad (MarkScenario.review_at 2 1))
     = ∅ ∪ {[ BadId 7 ]})
  ∧ (GraphUpdater.bad (exec GraphUpdater.mark_bad (MarkScenario.editor_at 1 1))
     = ∅ ∪ {[ BadGroup (list_to_set [42; 43]) ]}
     ∧ Base.index (GraphUpdater.base (exec GraphUpdater.mark_bad (MarkScenario.editor_at 1 1)))
       = 2).
Proof.
  split; [|split].
  - pose proof (mark_bad_needs_batch_one (MarkScenario.review_at 1 2)
                  (MarkScenario.editor_at 1 1)) as (Hr & _).
    assert (Base.batch (ObjectReview.base (MarkScenario.review_at 1 2)) > 1) as Hb
      by reflexivity.
    destruct (Hr Hb) as (_ & Hbad & Hidx & _).
    split; [exact Hb|]. split; [exact Hbad|exact Hidx].
  - pose proof (mark_bad_needs_batch_one (MarkScenario.review_at 2 1)
                  (MarkScenario.editor_at 1 1)) as (_ & _ & Hr & _).
    assert (0 ≤ Base.index (ObjectReview.base (MarkScenario.review_at 2 1))) as Hi
      by discriminate.
    destruct (Hr {[ "seg" := [7] ]} [7] eq_refl Hi eq_refl eq_refl) as (x & Hbad & Hone & _).
    rewrite (Hone 7 eq_refl) in Hbad. exact Hbad.
  - pose proof (mark_bad_needs_batch_one (MarkScenario.review_at 2 1)
                  (MarkScenario.editor_at 1 1)) as (_ & _ & _ & He & _).
    assert (0 ≤ Base.index (GraphUpdater.base (MarkScenario.editor_at 1 1))) as Hi
      by discriminate.
    destruct (He {[ "seg" := [42; 43] ]} [42; 43] eq_refl Hi eq_refl eq_refl)
      as (x & Hbad & _ & Hmany & Hidx).
    assert (length [42; 43] ≠ 1%nat) as Hlen by discriminate.
    rewrite (Hmany Hlen) in Hbad. split; [exact Hbad|exact Hidx].
Defined.

(** ** Flagging the removed ids *)

Lemma mark_removed_bad_run (st : ObjectReview.t) (segs : list Z) (l : Layer.t) :
  Base.list_segments (ObjectReview.base st) (Base.index (ObjectReview.base st)) "seg" = Ok segs →
  ViewerState.layers (Viewer.state (Base.viewer (ObjectReview.base st))) !! "seg" = Some l →
  let new_bad : gset Z := list_to_set segs ∖ list_to_set (Layer.segments l) in
  ObjectReview.mark_removed_bad st
  = if decide (new_bad ≠ ∅) then
      (Ok tt, ObjectReview.set_base
                (with_status (MsgMarkedBadSet new_bad) (ObjectReview.base st))
                (ObjectReview.set_bad (ObjectReview.bad st ∪ set_map BadId new_bad) st))
    else (Ok tt, st).
Proof.
  intros Hsegs Hl new_bad. unfold ObjectReview.mark_removed_bad.
  rewrite run_get, Hsegs, run_lift_ok. unfold ViewerState.layer. rewrite Hl. simpl from_option.
  rewrite run_lift_ok. fold new_bad. by case_decide.
Qed.

(** C7. With [original] the ids of the active batch and [current] the ids
    displayed in the [seg] layer, [current ⊆ original], [mark_removed_bad]
    returns with the bad set grown by exactly the ids of
    [original - current], each as a single id; when the difference is not
    empty the status line reports it, and when [current == original] the
    state, status line included, is unchanged. *)
Theorem mark_removed_bad_adds_difference (st : ObjectReview.t) (segs : list Z) (l : Layer.t) :
  Base.list_segments (ObjectReview.base st) (Base.index (ObjectReview.base st)) "seg" = Ok segs →
  ViewerState.layers (Viewer.state (Base.viewer (ObjectReview.base st))) !! "seg" = Some l →
  let original : gset Z := list_to_set segs in
  let current : gset Z := list_to_set (Layer.segments l) in
  let st' := exec ObjectReview.mark_removed_bad st in
  current ⊆ original →
  outcome ObjectReview.mark_removed_bad st = Ok tt
  ∧ ObjectReview.bad st' = ObjectReview.bad st ∪ set_map BadId (original ∖ current)
  ∧ (∀ x, x ∈ ObjectReview.bad st'
          ↔ x ∈ ObjectReview.bad st ∨ ∃ sid, x = BadId sid ∧ sid ∈ original ∧ sid ∉ current)
  ∧ (original ∖ current ≠ ∅ →
     Viewer.status (Base.viewer (ObjectReview.base st'))
     = Some (MsgMarkedBadSet (original ∖ current)))
  ∧ (current = original → st' = st).
Proof.
  intros Hsegs Hl original current st' Hsub.
  pose proof (mark_removed_bad_run st segs l Hsegs Hl) as Hrun. simpl in Hrun.
  fold original current in Hrun.
  assert (ObjectReview.bad st'
          = ObjectReview.bad st ∪ set_map BadId (original ∖ current)) as Hbad.
  { unfold st', exec. rewrite Hrun. case_decide as Hne; [done|].
    rewrite Hne. set_solver. }
  split_and!.
  - unfold outcome. rewrite Hrun. by case_decide.
  - done.
  - intros x. rewrite Hbad, elem_of_union, elem_of_map.
    setoid_rewrite elem_of_difference. naive_solver.
  - intros Hne. unfold st', exec. rewrite Hrun, decide_True by done. done.
  - intros Heq. unfold st', exec. rewrite Hrun, decide_False; [done|].
    intros Hne. apply Hne. rewrite Heq. set_solver.
Qed.

Module RemovedScenario.

(** The batch [{1, 2, 3}] of which the reviewer has deselected 2. *)
Definition st : ObjectReview.t :=
  ObjectReview.mk
    (Base.mk
       (Viewer.mk
          (ViewerState.mk {[ "seg" := Layer.mk [1; 3] true [] ]} None None) None [])
       10 ["seg"] [ {[ "seg" := [1; 2; 3] ]} ] 0 1 false None)
    {[ BadId 9 ]}.

End RemovedScenario.

Lemma mark_removed_bad_adds_difference_witness :
  (list_to_set [1; 3] : gset Z) ⊆ list_to_set [1; 2; 3]
  ∧ ObjectReview.bad (exec ObjectReview.mark_removed_bad RemovedScenario.st)
    = {[ BadId 9 ]} ∪ set_map BadId ((list_to_set [1; 2; 3] : gset Z) ∖ list_to_set [1; 3]).
Proof.
  assert ((list_to_set [1; 3] : gset Z) ⊆ list_to_set [1; 2; 3]) as Hsub.
  { apply (bool_decide_unpack _). by vm_compute. }
  split; [exact Hsub|].
  exact (proj1 (proj2 (mark_removed_bad_adds_difference RemovedScenario.st
                         [1; 2; 3] (Layer.mk [1; 3] true []) eq_refl eq_refl Hsub))).
Defined.

(** ** Expanding the selection to connected components *)

(** The viewer state after [l.segments = segs; l.equivalences.clear()] on
    the layer [l] named [layer]. *)
Definition show_segments (segs : list Z) (layer : string) (l : Layer.t) (b : Base.t) : Base.t :=
  let s := Viewer.state (Base.viewer b) in
  Base.set_viewer
    (Viewer.set_state
       (ViewerState.set_layers
          (<[layer := Layer.clear_equivalences (Layer.set_segments segs l)]>
             (ViewerState.layers s)) s)
       (Base.viewer b)) b.

(** The ids displayed in the [seg] layer. *)
Definition displayed (st : GraphUpdater.t) : option (list Z) :=
  Layer.segments
    <$> ViewerState.layers (Viewer.state (Base.viewer (GraphUpdater.base st))) !! "seg".

Lemma update_segments_run (b : Base.t) (segs : list Z) (layer : string) (l : Layer.t) :
  ViewerState.layers (Viewer.state (Base.viewer b)) !! layer = Some l →
  (Base.apply_equivs b = true → Base.union_equivs b = Ok tt) →
  Base.update_segments segs None layer b = (Ok tt, show_segments segs layer l b).
Proof.
  intros Hl Heq. unfold Base.update_segments.
  rewrite run_get. unfold ViewerState.layer. rewrite Hl. simpl from_option.
  rewrite run_lift_ok. destruct (Base.apply_equivs b) eqn:Ha.
  - rewrite Heq by done. reflexivity.
  - reflexivity.
Qed.

Lemma update_segments_ok_inv (b : Base.t) (segs : list Z) (layer : string) :
  (Base.update_segments segs None layer b).1 = Ok tt →
  ∃ l, ViewerState.layers (Viewer.state (Base.viewer b)) !! layer = Some l
       ∧ (Base.apply_equivs b = true → Base.union_equivs b = Ok tt).
Proof.
  unfold Base.update_segments. rewrite run_get. unfold ViewerState.layer.
  destruct (ViewerState.layers _ !! layer) as [l|]; [|done]. simpl from_option.
  rewrite run_lift_ok. intros Hok. exists l. split; [done|]. intros Ha.
  rewrite Ha in Hok. destruct (Base.union_equivs b) as [[]|]; [done|done].
Qed.

Lemma add_ccs_busy (st : GraphUpdater.t) :
  ¬ GraphUpdater.sem st > 0 → GraphUpdater.add_ccs st = (Ok tt, st).
Proof.
  intros Hsem. unfold GraphUpdater.add_ccs, GraphUpdater.try_acquire.
  rewrite bind_run, run_get, decide_False by done. reflexivity.
Qed.

Lemma try_acquire_run (st : GraphUpdater.t) :
  GraphUpdater.try_acquire st
  = if decide (GraphUpdater.sem st > 0)
    then (Ok true, GraphUpdater.set_sem (GraphUpdater.sem st - 1) st)
    else (Ok false, st).
Proof. unfold GraphUpdater.try_acquire. rewrite run_get. by case_decide. Qed.

Lemma seg_segments_run (st : GraphUpdater.t) :
  GraphUpdater.seg_segments st
  = match ViewerState.layers (Viewer.state (Base.viewer (GraphUpdater.base st))) !! "seg" with
    | Some l => (Ok (Layer.segments l), st)
    | None => (Raise KeyError, st)
    end.
Proof.
  unfold GraphUpdater.seg_segments, GraphUpdater.viewer_state, ViewerState.layer.
  rewrite !bind_run. cbn.
  by destruct (ViewerState.layers _ !! "seg").
Qed.

Lemma inherited_run {A} (m : M Base.t A) (st : GraphUpdater.t) :
  GraphUpdater.inherited m st
  = ((m (GraphUpdater.base st)).1, GraphUpdater.set_base (m (GraphUpdater.base st)).2 st).
Proof. unfold GraphUpdater.inherited. by destruct (m _). Qed.

(** The body of [add_ccs] between [acquire] and [release]. *)
Definition add_ccs_body : M GraphUpdater.t unit :=
  segments ← GraphUpdater.seg_segments;
  st ← get;
  let curr := GraphUpdater.expand_connected (GraphUpdater.graph st) segments in
  GraphUpdater.inherited (Base.update_segments (elements curr) None "seg");;
  GraphUpdater.release.

Lemma add_ccs_run (st : GraphUpdater.t) :
  GraphUpdater.add_ccs st
  = if decide (GraphUpdater.sem st > 0)
    then add_ccs_body (GraphUpdater.set_sem (GraphUpdater.sem st - 1) st)
    else (Ok tt, st).
Proof.
  unfold GraphUpdater.add_ccs. rewrite bind_run, try_acquire_run. by case_decide.
Qed.

Lemma add_ccs_body_run (st : GraphUpdater.t) :
  add_ccs_body st
  = match ViewerState.layers (Viewer.state (Base.viewer (GraphUpdater.base st))) !! "seg" with
    | Some l =>
        let segs := elements (GraphUpdater.expand_connected (GraphUpdater.graph st)
                                (Layer.segments l)) in
        let r := Base.update_segments segs None "seg" (GraphUpdater.base st) in
        match r.1 with
        | Ok _ => (Ok tt, GraphUpdater.set_sem (GraphUpdater.sem st + 1)
                            (GraphUpdater.set_base r.2 st))
        | Raise e => (Raise e, GraphUpdater.set_base r.2 st)
        end
    | None => (Raise KeyError, st)
    end.
Proof.
  unfold add_ccs_body. rewrite bind_run, seg_segments_run.
  destruct (ViewerState.layers _ !! "seg") as [l|]; [|done].
  rewrite run_get, bind_run, inherited_run. simpl.
  by destruct (Base.update_segments _ None "seg" (GraphUpdater.base st)) as [[[]|e] b'].
Qed.

Lemma add_ccs_free (st : GraphUpdater.t) (l : Layer.t) :
  GraphUpdater.sem st > 0 →
  ViewerState.layers (Viewer.state (Base.viewer (GraphUpdater.base st))) !! "seg" = Some l →
  (Base.apply_equivs (GraphUpdater.base st) = true →
   Base.union_equivs (GraphUpdater.base st) = Ok tt) →
  GraphUpdater.add_ccs st
  = (Ok tt,
     GraphUpdater.set_base
       (show_segments
          (elements (GraphUpdater.expand_connected (GraphUpdater.graph st) (Layer.segments l)))
          "seg" l (GraphUpdater.base st)) st).
Proof.
  intros Hsem Hl Heq. rewrite add_ccs_run, decide_True, add_ccs_body_run by done.
  change (GraphUpdater.base (GraphUpdater.set_sem (GraphUpdater.sem st - 1) st))
    with (GraphUpdater.base st).
  rewrite Hl. cbv zeta. rewrite (update_segments_run _ _ _ l Hl Heq).
  destruct st. cbn. f_equal. unfold GraphUpdater.set_sem, GraphUpdater.set_base. cbn.
  f_equal. lia.
Qed.

Lemma add_ccs_ok_inv (st : GraphUpdater.t) :
  outcome GraphUpdater.add_ccs st = Ok tt → GraphUpdater.sem st > 0 →
  ∃ l, ViewerState.layers (Viewer.state (Base.viewer (GraphUpdater.base st))) !! "seg" = Some l
       ∧ (Base.apply_equivs (GraphUpdater.base st) = true →
          Base.union_equivs (GraphUpdater.base st) = Ok tt).
Proof.
  intros Hok Hsem. unfold outcome in Hok.
  rewrite add_ccs_run, decide_True, add_ccs_body_run in Hok by done.
  change (GraphUpdater.base (GraphUpdater.set_sem (GraphUpdater.sem st - 1) st))
    with (GraphUpdater.base st) in Hok.
  destruct (ViewerState.layers _ !! "seg") as [l|] eqn:Hl; [|done].
  exists l. split; [done|]. cbv zeta in Hok.
  match type of Hok with context [Base.update_segments ?segs None "seg" ?b] =>
    destruct (update_segments_ok_inv b segs "seg") as (l' & _ & Heq);
      [|done];
    destruct (Base.update_segments segs None "seg" b) as [[[]|err] b']; done end.
Qed.

(** C8. [add_ccs] shows the displayed ids together with the connected
    component of every displayed id that is a node of the graph: an id is
    shown afterwards exactly when it was displayed or can be reached from
    a displayed node; ids that are not nodes stay and add nothing.
    Expanding the expanded selection gives the same set, and when
    [add_ccs] returns, a second [add_ccs] leaves the state as the first
    one left it. *)
Theorem add_ccs_idempotent (st : GraphUpdater.t) :
  Nx.wf (GraphUpdater.graph st) →
  let g := GraphUpdater.graph st in
  (∀ segments x,
     x ∈ GraphUpdater.expand_connected g segments
     ↔ x ∈ segments ∨ ∃ s, s ∈ segments ∧ Nx.has_node g s ∧ Nx.connected g s x)
  ∧ (∀ segments,
       GraphUpdater.expand_connected g (elements (GraphUpdater.expand_connected g segments))
       = GraphUpdater.expand_connected g segments)
  ∧ (∀ segments, GraphUpdater.sem st > 0 → displayed st = Some segments →
       outcome GraphUpdater.add_ccs st = Ok tt →
       displayed (exec GraphUpdater.add_ccs st)
       = Some (elements (GraphUpdater.expand_connected g segments)))
  ∧ (outcome GraphUpdater.add_ccs st = Ok tt →
     exec GraphUpdater.add_ccs (exec GraphUpdater.add_ccs st) = exec GraphUpdater.add_ccs st).
Proof.
  intros Hwf g. split_and!.
  - intros segments x. by apply expand_connected_spec.
  - intros segments. by apply expand_connected_idempotent.
  - intros segments Hsem Hshown Hok.
    destruct (add_ccs_ok_inv st Hok Hsem) as (l & Hl & Heq).
    unfold displayed in Hshown. rewrite Hl in Hshown. simpl in Hshown.
    injection Hshown as <-.
    unfold exec. rewrite (add_ccs_free st l Hsem Hl Heq).
    unfold displayed. simpl. by rewrite lookup_insert_eq.
  - intros Hok. destruct (decide (GraphUpdater.sem st > 0)) as [Hsem|Hsem].
    + destruct (add_ccs_ok_inv st Hok Hsem) as (l & Hl & Heq).
      unfold exec. rewrite (add_ccs_free st l Hsem Hl Heq).
      set (segs := elements (GraphUpdater.expand_connected (GraphUpdater.graph st)
                               (Layer.segments l))).
      rewrite (add_ccs_free _ (Layer.clear_equivalences (Layer.set_segments segs l)));
        [|exact Hsem|cbn; apply lookup_insert_eq|exact Heq].
      simpl. unfold show_segments. simpl. unfold segs.
      rewrite (expand_connected_idempotent _ _ Hwf), insert_insert_eq. by destruct st.
    + unfold exec. rewrite (add_ccs_busy st Hsem). simpl. by rewrite (add_ccs_busy st Hsem).
Qed.

Module ExpandScenario.

(** The graph [1 - 2 - 3], [4 - 5] with the ids 1, 4 and 9 displayed;
    9 is not a node. *)
Definition st : GraphUpdater.t :=
  GraphUpdater.mk
    (Base.mk
       (Viewer.mk
          (ViewerState.mk {[ "seg" := Layer.mk [1; 4; 9] true [] ]} None None) None [])
       0 ["seg"] [] 0 1 false None)
    (Nx.add_edges_from [(1, 2); (2, 3); (4, 5)] ∅) [] [] 1 1 ∅.

End ExpandScenario.

Lemma add_ccs_idempotent_witness :
  Nx.wf (GraphUpdater.graph ExpandScenario.st)
  ∧ outcome GraphUpdater.add_ccs ExpandScenario.st = Ok tt
  ∧ exec GraphUpdater.add_ccs (exec GraphUpdater.add_ccs ExpandScenario.st)
    = exec GraphUpdater.add_ccs ExpandScenario.st.
Proof.
  assert (Nx.wf (GraphUpdater.graph ExpandScenario.st)) as Hwf
    by apply wf_add_edges_from, wf_empty.
  assert (outcome GraphUpdater.add_ccs ExpandScenario.st = Ok tt) as Hok
    by (vm_compute; reflexivity).
  split; [exact Hwf|]. split; [exact Hok|].
  exact (proj2 (proj2 (proj2 (add_ccs_idempotent ExpandScenario.st Hwf))) Hok).
Defined.

Lemma navigation_keeps_index_in_range_witness :
  Nav.in_range Scenario.review25
  ∧ 1 ≤ Base.batch Scenario.review25
  ∧ Nav.in_range
      (Nav.run CustomNone
         [Nav.Retreat; Nav.Advance; Nav.Advance; Nav.Advance; Nav.Advance; Nav.Advance;
          Nav.Advance; Nav.Retreat] Scenario.review25).
Proof.
  assert (Nav.in_range Scenario.review25) as Hr by (by vm_compute).
  assert (1 ≤ Base.batch Scenario.review25) as Hb by (by vm_compute).
  split; [exact Hr|]. split; [exact Hb|].
  exact (proj1 (navigation_keeps_index_in_range CustomNone Scenario.review25
                  [Nav.Retreat; Nav.Advance; Nav.Advance; Nav.Advance; Nav.Advance;
                   Nav.Advance; Nav.Advance; Nav.Retreat] Hr Hb)).
Defined.

Module ClassifyScenario.

(** A classification of the single item [{11}], filed under [axon]. *)
Definition st : ObjectClassification.t :=
  ObjectClassification.mk
    (Base.mk Scenario.viewer 10 ["seg"] [ {[ "seg" := [11] ]} ] 0 1 false None)
    {[ "axon" := {[ 11 ]} ]}.

End ClassifyScenario.

Lemma classify_at_most_one_class_witness :
  ObjectClassification.current_sid (ObjectClassification.base ClassifyScenario.st) = Ok 11
  ∧ ObjectClassification.results
      (exec (ObjectClassification.classify (Some "glia")) ClassifyScenario.st)
    = ObjectClassification.classify_results 11 (Some "glia") {[ "axon" := {[ 11 ]} ]}.
Proof.
  split; [reflexivity|].
  exact (proj2 (proj2 (proj2 (classify_at_most_one_class 11 (Some "glia") None
                                {[ "axon" := {[ 11 ]} ]})))
           ClassifyScenario.st eq_refl eq_refl).
Defined.

(** * Further properties of the workflows *)

(** ** Slices and the ids of a batch *)

Lemma elem_of_slice {A} (l : list A) (a b : Z) (x : A) :
  x ∈ Py.slice l a b → x ∈ l.
Proof.
  unfold Py.slice. intros Hx.
  apply list_elem_of_lookup in Hx as [i Hi].
  apply lookup_take_Some in Hi as [Hi _]. rewrite lookup_drop in Hi.
  by eapply list_elem_of_lookup_2.
Qed.

Lemma slice_lookup {A} (l : list A) (a b : Z) (x : A) :
  0 ≤ a → 0 ≤ b →
  x ∈ Py.slice l a b ↔ ∃ i : nat, a ≤ Z.of_nat i < b ∧ l !! i = Some x.
Proof.
  intros Ha Hb. unfold Py.slice, Py.bound, Py.len. rewrite !decide_False by lia.
  rewrite list_elem_of_lookup.
  assert (∀ i : nat, l !! i = Some x → Z.of_nat i < Z.of_nat (length l)) as Hlen.
  { intros i Hi%lookup_lt_Some. lia. }
  split.
  - intros [i Hi]. apply lookup_take_Some in Hi as [Hi Hlt]. rewrite lookup_drop in Hi.
    pose proof (Hlen _ Hi). eexists. split; [|exact Hi]. lia.
  - intros (i & Hi & Hx). pose proof (Hlen _ Hx).
    exists (i - Z.to_nat a)%nat. apply lookup_take_Some. split.
    + rewrite lookup_drop, <- Hx. f_equal. lia.
    + lia.
Qed.

Lemma slice_beyond {A} (l : list A) (a b : Z) : Py.len l ≤ a → Py.slice l a b = [].
Proof.
  intros Ha. unfold Py.slice, Py.bound. rewrite (decide_False (P := a < 0)).
  2:{ unfold Py.len in *. lia. }
  rewrite drop_ge; [by rewrite take_nil|]. unfold Py.len in *. lia.
Qed.

Lemma map_result_inv {A B} (f : A → result B) (l : list A) (ys : list B) :
  map_result f l = Ok ys → Forall2 (λ x y, f x = Ok y) l ys.
Proof.
  revert ys. induction l as [|x l IH]; simpl; intros ys.
  - intros [= <-]. constructor.
  - destruct (f x) as [y|] eqn:Hfx; simpl; [|done].
    destruct (map_result f l) as [ys'|]; simpl; [|done].
    intros [= <-]. constructor; auto.
Qed.

Lemma map_result_raise {A B} (f : A → result B) (l : list A) (e : exn) :
  map_result f l = Raise e → ∃ x, x ∈ l ∧ f x = Raise e.
Proof.
  induction l as [|x l IH]; simpl; [done|].
  destruct (f x) as [y|e'] eqn:Hfx; simpl.
  - destruct (map_result f l) as [ys'|e'']; simpl; [done|].
    intros [= ->]. destruct IH as (x' & Hx' & Hf); [done|]. exists x'. split; [by right|done].
  - intros [= ->]. exists x. split; [by left|done].
Qed.

Lemma elem_of_concat {A} (x : A) (ls : list (list A)) :
  x ∈ concat ls ↔ ∃ l, x ∈ l ∧ l ∈ ls.
Proof.
  induction ls as [|l ls IH]; simpl.
  - split; [by intros ?%elem_of_nil|]. by intros (l & _ & ?%elem_of_nil).
  - rewrite elem_of_app, IH. setoid_rewrite elem_of_cons. naive_solver.
Qed.

Lemma list_segments_total (b : Base.t) (idx : Z) (layer : string) :
  (∀ item : WorkItem, item ∈ Py.slice (Base.todo b) idx (idx + Base.batch b) →
     is_Some (item !! layer)) →
  ∃ segs, Base.list_segments b idx layer = Ok segs.
Proof.
  intros Hall. unfold Base.list_segments.
  destruct (map_result_ok (λ x : WorkItem, from_option KeyError (x !! layer))
              (Py.slice (Base.todo b) idx (idx + Base.batch b))) as [xs Hxs].
  - intros item Hitem. destruct (Hall item Hitem) as [ids Hids]. exists ids. by rewrite Hids.
  - rewrite Hxs. simpl. by eexists.
Qed.

Lemma list_segments_key_error (b : Base.t) (idx : Z) (layer : string) (e : exn) :
  Base.list_segments b idx layer = Raise e →
  e = KeyError
  ∧ ∃ item : WorkItem,
      item ∈ Py.slice (Base.todo b) idx (idx + Base.batch b) ∧ item !! layer = None.
Proof.
  unfold Base.list_segments. intros He.
  destruct (map_result _ _) as [xs|e'] eqn:Hxs; simpl in He; [done|].
  injection He as ->. apply map_result_raise in Hxs as (item & Hitem & Hf).
  destruct (item !! layer) eqn:Hl; simpl in Hf; [done|].
  injection Hf as <-. split; [done|]. by exists item.
Qed.

Lemma list_segments_members (b : Base.t) (idx : Z) (layer : string) (segs : list Z) :
  Base.list_segments b idx layer = Ok segs →
  NoDup segs
  ∧ ∀ x, x ∈ segs ↔ ∃ (item : WorkItem) ids,
                       item ∈ Py.slice (Base.todo b) idx (idx + Base.batch b)
                       ∧ item !! layer = Some ids ∧ x ∈ ids.
Proof.
  unfold Base.list_segments. intros Hsegs.
  destruct (map_result _ _) as [xs|] eqn:Hxs; simpl in Hsegs; [|done].
  injection Hsegs as <-. split; [apply NoDup_remove_dups|].
  apply map_result_inv in Hxs. intros x. rewrite elem_of_remove_dups.
  rewrite elem_of_concat. split.
  - intros (ids & Hx & Hids).
    apply list_elem_of_lookup in Hids as [i Hi].
    destruct (Forall2_lookup_r _ _ _ _ _ Hxs Hi) as (item & Hitem & Hf).
    exists item, ids. split_and!; [by eapply list_elem_of_lookup_2| |done].
    by destruct (item !! layer); simplify_eq/=.
  - intros (item & ids & Hitem & Hids & Hx).
    apply list_elem_of_lookup in Hitem as [i Hi].
    destruct (Forall2_lookup_l _ _ _ _ _ Hxs Hi) as (ids' & Hids' & Hf).
    rewrite Hids in Hf. simpl in Hf. injection Hf as <-.
    exists ids. split; [done|]. by eapply list_elem_of_lookup_2.
Qed.

Lemma list_segments_lacks (b : Base.t) (idx : Z) (layer : string) (item : WorkItem) :
  item ∈ Py.slice (Base.todo b) idx (idx + Base.batch b) → item !! layer = None →
  Base.list_segments b idx layer = Raise KeyError.
Proof.
  intros Hitem Hnone. unfold Base.list_segments.
  assert (map_result (λ x : WorkItem, from_option KeyError (x !! layer))
            (Py.slice (Base.todo b) idx (idx + Base.batch b)) = Raise KeyError) as ->; [|done].
  induction (Py.slice (Base.todo b) idx (idx + Base.batch b)) as [|x l IH]; simpl.
  - by apply elem_of_nil in Hitem.
  - destruct (x !! layer) as [ids|] eqn:Hx; simpl; [|done].
    apply elem_of_cons in Hitem as [->|Hitem]; [congruence|].
    by rewrite (IH Hitem).
Qed.

(** X1. [list_segments(index, layer)] lists, without repetition, exactly
    the ids that some work item of [todo[index : index + batch]] has under
    [layer]; it raises exactly when a work item of that slice has no such
    layer, and what it raises then is [KeyError]; it returns exactly when
    every work item of the slice has the layer; past the end of the store
    it is the empty list. *)
Theorem list_segments_spec (b : Base.t) (idx : Z) (layer : string) :
  let items := Py.slice (Base.todo b) idx (idx + Base.batch b) in
  (∀ segs, Base.list_segments b idx layer = Ok segs →
     NoDup segs
     ∧ ∀ x, x ∈ segs ↔ ∃ item ids, item ∈ items ∧ item !! layer = Some ids ∧ x ∈ ids)
  ∧ ((∃ item : WorkItem, item ∈ items ∧ item !! layer = None)
     ↔ Base.list_segments b idx layer = Raise KeyError)
  ∧ (∀ e, Base.list_segments b idx layer = Raise e → e = KeyError)
  ∧ ((∀ item : WorkItem, item ∈ items → is_Some (item !! layer))
     ↔ ∃ segs, Base.list_segments b idx layer = Ok segs)
  ∧ (Py.len (Base.todo b) ≤ idx → Base.list_segments b idx layer = Ok []).
Proof.
  intros items. split_and!.
  - intros segs Hsegs. by apply list_segments_members.
  - split.
    + intros (item & Hitem & Hnone). by apply (list_segments_lacks b idx layer item).
    + intros He. by apply (list_segments_key_error b idx layer KeyError).
  - intros e He. by apply (list_segments_key_error b idx layer e).
  - split.
    + intros Hall. by apply (list_segments_total b idx layer).
    + intros [segs Hsegs] item Hitem.
      destruct (item !! layer) as [ids|] eqn:Hl; [by eexists|].
      rewrite (list_segments_lacks b idx layer item Hitem Hl) in Hsegs. done.
  - intros Hidx. unfold Base.list_segments. by rewrite slice_beyond.
Qed.

Lemma list_segments_spec_witness :
  (Base.list_segments Scenario.review25 0 "seg" = Ok [1; 2; 3; 4; 5]
   ∧ NoDup [1; 2; 3; 4; 5])
  ∧ Base.list_segments Scenario.review25 20 "split" = Raise KeyError.
Proof.
  split.
  - assert (Base.list_segments Scenario.review25 0 "seg" = Ok [1; 2; 3; 4; 5]) as H
      by (vm_compute; reflexivity).
    split; [exact H|].
    exact (proj1 (proj1 (list_segments_spec Scenario.review25 0 "seg") _ H)).
  - apply (proj1 (proj1 (proj2 (list_segments_spec Scenario.review25 20 "split")))).
    exists {[ "seg" := [21] ]}. split; [|reflexivity].
    apply (bool_decide_unpack _). by vm_compute.
Defined.

(** ** Showing a batch *)

(** The store and the viewer fit together: every work item has every
    managed layer, the viewer has a layer for each of them, equivalences
    are off, and there is one location per work item when locations are
    given (the assertion of the constructor). *)
Definition ready (b : Base.t) : Prop :=
  (∀ (item : WorkItem) layer, item ∈ Base.todo b → layer ∈ Base.managed_layers b →
     is_Some (item !! layer))
  ∧ (∀ layer, layer ∈ Base.managed_layers b →
       is_Some (ViewerState.layers (Viewer.state (Base.viewer b)) !! layer))
  ∧ Base.apply_equivs b = false
  ∧ (∀ ls, Base.locations b = Some ls → length ls = length (Base.todo b)).

(** [l.segments = segs; l.equivalences.clear()] *)
Definition shown (segs : list Z) (l : Layer.t) : Layer.t :=
  Layer.clear_equivalences (Layer.set_segments segs l).

(** The location that [update_batch] moves to, if any. *)
Definition batch_location (b : Base.t) : option Location :=
  if decide (Base.batch b = 1) then
    match Base.locations b with
    | Some ls => Py.index ls (Base.index b)
    | None => None
    end
  else None.

(** The viewer state [s] showing the batch of [b]. *)
Definition shows_batch (b : Base.t) (s : ViewerState.t) : Prop :=
  ∀ layer, layer ∈ Base.managed_layers b →
    ∃ l segs, ViewerState.layers (Viewer.state (Base.viewer b)) !! layer = Some l
              ∧ Base.list_segments b (Base.index b) layer = Ok segs
              ∧ ViewerState.layers s !! layer = Some (shown segs l).

Lemma list_segments_set_viewer (v : Viewer.t) (b : Base.t) (idx : Z) (layer : string) :
  Base.list_segments (Base.set_viewer v b) idx layer = Base.list_segments b idx layer.
Proof. reflexivity. Qed.

Lemma list_segments_ready (b : Base.t) (idx : Z) (layer : string) :
  ready b → layer ∈ Base.managed_layers b → ∃ segs, Base.list_segments b idx layer = Ok segs.
Proof.
  intros (Hitems & _) Hlayer. apply list_segments_total.
  intros item Hitem%elem_of_slice. by apply Hitems.
Qed.

Lemma update_segments_shown (b : Base.t) (segs : list Z) (loc : option Location)
  (layer : string) (l : Layer.t) :
  ViewerState.layers (Viewer.state (Base.viewer b)) !! layer = Some l →
  Base.apply_equivs b = false →
  Base.update_segments segs loc layer b
  = (Ok tt,
     Base.set_viewer
       (Viewer.set_state
          (let s := ViewerState.set_layers
                      (<[layer := shown segs l]>
                         (ViewerState.layers (Viewer.state (Base.viewer b))))
                      (Viewer.state (Base.viewer b)) in
           match loc with Some p => ViewerState.set_position p s | None => s end)
          (Base.viewer b)) b).
Proof.
  intros Hl Ha. unfold Base.update_segments.
  rewrite run_get. unfold ViewerState.layer. rewrite Hl. simpl from_option.
  rewrite run_lift_ok, Ha. reflexivity.
Qed.

(** The loop of [update_batch] over the layers [ls], from the viewer
    state [s0]. *)
Lemma show_layers_run (b : Base.t) (loc : option Location) (ls : list string)
  (s0 : ViewerState.t) :
  Base.apply_equivs b = false →
  (∀ layer, layer ∈ ls → ∃ segs, Base.list_segments b (Base.index b) layer = Ok segs) →
  (∀ layer, layer ∈ ls → is_Some (ViewerState.layers s0 !! layer)) →
  ∃ s,
    for_each ls (λ layer,
      b' ← get;
      segs ← lift_result (Base.list_segments b' (Base.index b') layer);
      Base.update_segments segs loc layer)
      (Base.set_viewer (Viewer.set_state s0 (Base.viewer b)) b)
    = (Ok tt, Base.set_viewer (Viewer.set_state s (Base.viewer b)) b)
    ∧ dom (ViewerState.layers s) = dom (ViewerState.layers s0)
    ∧ (∀ layer, layer ∈ ls →
         ∃ l segs, ViewerState.layers s0 !! layer = Some l
                   ∧ Base.list_segments b (Base.index b) layer = Ok segs
                   ∧ ViewerState.layers s !! layer = Some (shown segs l))
    ∧ (∀ layer, layer ∉ ls → ViewerState.layers s !! layer = ViewerState.layers s0 !! layer)
    ∧ ViewerState.layout s = ViewerState.layout s0
    ∧ ViewerState.position s
      = match ls, loc with
        | _ :: _, Some p => Some p
        | _, _ => ViewerState.position s0
        end.
Proof.
  intros Ha. revert s0. induction ls as [|layer ls IH]; intros s0 Hsegs Hlayers.
  - exists s0. simpl. split_and!; try done. by intros ? ?%elem_of_nil.
  - destruct (Hsegs layer) as [segs Hs]; [by left|].
    destruct (Hlayers layer) as [l Hl]; [by left|].
    set (s1 := let s := ViewerState.set_layers (<[layer := shown segs l]> (ViewerState.layers s0)) s0 in
               match loc with Some p => ViewerState.set_position p s | None => s end).
    assert (ViewerState.layers s1 = <[layer := shown segs l]> (ViewerState.layers s0)) as Hl1
      by (unfold s1; by destruct loc).
    destruct (IH s1) as (s & Hrun & Hdom & Hshown & Hother & Hlayout & Hpos).
    { intros layer' Hin. apply Hsegs. by right. }
    { intros layer' Hin. rewrite Hl1.
      destruct (decide (layer = layer')) as [->|Hne];
        [by rewrite lookup_insert_eq|rewrite lookup_insert_ne by done].
      apply Hlayers. by right. }
    exists s. split_and!.
    + simpl for_each. rewrite bind_run, run_get.
      rewrite list_segments_set_viewer. simpl Base.index. rewrite Hs, run_lift_ok.
      rewrite (update_segments_shown _ segs loc layer l); [|done|by destruct b].
      cbn [Base.viewer Base.set_viewer Viewer.state Viewer.set_state].
      destruct b as [[]]. apply Hrun.
    + rewrite Hdom, Hl1, dom_insert_L.
      apply (elem_of_dom_2 (D := gset string)) in Hl. set_solver.
    + intros layer' Hin. destruct (decide (layer' ∈ ls)) as [Hin'|Hnin].
      * destruct (Hshown layer' Hin') as (l' & segs' & Hl' & Hs' & Hsh).
        rewrite Hl1 in Hl'. destruct (decide (layer = layer')) as [->|Hne].
        -- rewrite lookup_insert_eq in Hl'. injection Hl' as <-.
           exists l, segs'. split_and!; [done..|]. rewrite Hsh.
           assert (segs' = segs) as -> by congruence. by destruct l.
        -- rewrite lookup_insert_ne in Hl' by done. by exists l', segs'.
      * apply elem_of_cons in Hin as [->|Hin]; [|done].
        exists l, segs. split_and!; [done..|].
        by rewrite (Hother layer Hnin), Hl1, lookup_insert_eq.
    + intros layer' Hnin. apply not_elem_of_cons in Hnin as [Hne Hnin].
      by rewrite (Hother layer' Hnin), Hl1, lookup_insert_ne.
    + rewrite Hlayout. unfold s1. by destruct loc.
    + rewrite Hpos. unfold s1. destruct ls, loc; done.
Qed.

Lemma index_in_range {A} (l : list A) (i : Z) :
  0 ≤ i < Py.len l → is_Some (Py.index l i).
Proof.
  intros Hi. unfold Py.index. rewrite decide_True by lia.
  apply lookup_lt_is_Some. unfold Py.len in Hi. lia.
Qed.

Lemma batch_location_ok (b : Base.t) :
  ready b → Nav.in_range b →
  lift_result (S := Base.t)
    (if decide (Base.batch b = 1) then
       match Base.locations b with
       | Some ls => p ← from_option IndexError (Py.index ls (Base.index b)); mret (Some p)
       | None => mret None
       end
     else mret None) b
  = (Ok (batch_location b), b).
Proof.
  intros (_ & _ & _ & Hlocs) Hr. unfold batch_location, lift_result. case_decide; [|done].
  destruct (Base.locations b) as [ls|] eqn:Hls; [|done].
  destruct (index_in_range ls (Base.index b)) as [p Hp].
  { unfold Nav.in_range, Py.len in *. rewrite (Hlocs ls eq_refl). lia. }
  by rewrite Hp.
Qed.

Lemma update_batch_ready (custom : custom_msg) (b : Base.t) :
  ready b → Nav.in_range b →
  ∃ s,
    Base.update_batch custom b
    = (Ok tt,
       Base.set_viewer
         (Viewer.set_status
            (MsgBatch (Base.index b) (Py.len (Base.todo b)) (Base.batch b) custom)
            (Viewer.set_state s (Base.viewer b))) b)
    ∧ shows_batch b s
    ∧ dom (ViewerState.layers s) = dom (ViewerState.layers (Viewer.state (Base.viewer b))).
Proof.
  intros Hready Hr. pose proof Hready as (Hitems & Hlayers & Ha & Hlocs).
  destruct (show_layers_run b (batch_location b) (Base.managed_layers b)
              (Viewer.state (Base.viewer b)) Ha) as (s & Hrun & Hdom & Hshown & _).
  { intros layer Hin. by apply list_segments_ready. }
  { done. }
  exists s. split_and!; [|done..].
  unfold Base.update_batch. rewrite run_get, bind_run, (batch_location_ok b Hready Hr).
  rewrite bind_run.
  replace (Base.set_viewer (Viewer.set_state (Viewer.state (Base.viewer b)) (Base.viewer b)) b)
    with b in Hrun by (by destruct b as [[]]).
  rewrite Hrun. by destruct b as [[]].
Qed.

(** X2. On a store and viewer that fit together, with the index in
    range, [update_batch] returns; afterwards every managed layer shows
    the ids of the batch ([list_segments]) with its equivalences cleared,
    the other layers and the layout are as before, the position is the
    location of the item when [batch == 1] and locations are given (and
    a layer is managed) and unchanged otherwise, and the status line is
    ['index:%d/%d  batch:%d  %s'] of the position. *)
Theorem update_batch_shows_batch (custom : custom_msg) (b : Base.t) :
  ready b → Nav.in_range b →
  ∃ s,
    Base.update_batch custom b
    = (Ok tt,
       Base.set_viewer
         (Viewer.set_status
            (MsgBatch (Base.index b) (Py.len (Base.todo b)) (Base.batch b) custom)
            (Viewer.set_state s (Base.viewer b))) b)
    ∧ shows_batch b s
    ∧ (∀ layer, layer ∉ Base.managed_layers b →
         ViewerState.layers s !! layer
         = ViewerState.layers (Viewer.state (Base.viewer b)) !! layer)
    ∧ dom (ViewerState.layers s) = dom (ViewerState.layers (Viewer.state (Base.viewer b)))
    ∧ ViewerState.layout s = ViewerState.layout (Viewer.state (Base.viewer b))
    ∧ ViewerState.position s
      = match Base.managed_layers b, batch_location b with
        | _ :: _, Some p => Some p
        | _, _ => ViewerState.position (Viewer.state (Base.viewer b))
        end.
Proof.
  intros Hready Hr. pose proof Hready as (Hitems & Hlayers & Ha & Hlocs).
  destruct (show_layers_run b (batch_location b) (Base.managed_layers b)
              (Viewer.state (Base.viewer b)) Ha)
    as (s & Hrun & Hdom & Hshown & Hother & Hlayout & Hpos).
  { intros layer Hin. by apply list_segments_ready. }
  { done. }
  exists s. split_and!; try done.
  unfold Base.update_batch. rewrite run_get, bind_run, (batch_location_ok b Hready Hr).
  rewrite bind_run.
  replace (Base.set_viewer (Viewer.set_state (Viewer.state (Base.viewer b)) (Base.viewer b)) b)
    with b in Hrun by (by destruct b as [[]]).
  rewrite Hrun. by destruct b as [[]].
Qed.

(** ** Navigation that never raises *)

Lemma prefetch_state_ok (b : Base.t) (idx : Z) :
  ready b → 0 ≤ idx < Py.len (Base.todo b) → ∃ s, Base.prefetch_state b idx = Ok s.
Proof.
  intros Hready Hidx. pose proof Hready as (Hitems & Hlayers & Ha & Hlocs).
  unfold Base.prefetch_state.
  match goal with
  | |- context [?f (Base.managed_layers b) (Viewer.state (Base.viewer b))] => set (fill := f)
  end.
  assert (∀ ls s,
            (∀ layer, layer ∈ ls → layer ∈ Base.managed_layers b) →
            (∀ layer, layer ∈ ls → is_Some (ViewerState.layers s !! layer)) →
            ∃ s', fill ls s = Ok s') as Hfill.
  { induction ls as [|layer ls IH]; intros s Hsub Hin; simpl; [by eexists|].
    destruct (list_segments_ready b idx layer Hready) as [segs ->]; [apply Hsub; by left|].
    simpl. unfold ViewerState.update_layer, ViewerState.layer.
    destruct (Hin layer) as [l ->]; [by left|]. simpl.
    apply IH.
    - intros layer' ?. apply Hsub. by right.
    - intros layer' ?. simpl. destruct (decide (layer = layer')) as [->|Hne];
        [by rewrite lookup_insert_eq|rewrite lookup_insert_ne by done].
      apply Hin. by right. }
  destruct (Hfill (Base.managed_layers b) (Viewer.state (Base.viewer b))) as [s' ->];
    [done..|].
  simpl. destruct (Base.locations b) as [ls|] eqn:Hls; [|by eexists].
  destruct (index_in_range ls idx) as [p ->]; [|by eexists].
  unfold Py.len in *. by rewrite (Hlocs ls eq_refl).
Qed.

Lemma prefetch_indices_bound (b : Base.t) (ivals : list Z) (idx : Z) :
  idx ∈ Base.prefetch_indices b ivals →
  idx < Py.len (Base.todo b) ∧ ∃ i, i ∈ ivals ∧ idx = candidate b i.
Proof.
  induction ivals as [|i ivals IH]; simpl; [by intros ?%elem_of_nil|].
  case_decide as Hc; [by intros ?%elem_of_nil|].
  intros [->|Hin]%elem_of_cons.
  - split; [lia|]. exists i. split; [by left|done].
  - destruct (IH Hin) as (Hlt & i' & Hi' & ->). split; [done|].
    exists i'. split; [by right|done].
Qed.

Lemma prefetch_ok (b : Base.t) :
  ready b → 0 ≤ Base.index b → 1 ≤ Base.batch b →
  ∃ states, Base.prefetch_loop b (Base.range (Base.num_to_prefetch b)) = Ok states.
Proof.
  intros Hready Hi Hb. rewrite prefetch_loop_indices. apply map_result_ok.
  intros idx Hidx. apply prefetch_indices_bound in Hidx as (Hlt & i & Hin & ->).
  apply prefetch_state_ok; [done|]. split; [|done].
  unfold Base.range in Hin. apply list_elem_of_fmap in Hin as (k & -> & _).
  unfold candidate. nia.
Qed.

(** ** The prefetch window *)

(** What the prefetch loop needs of the store and the viewer: every work
    item has every managed layer, the viewer has a layer for each of
    them, and there is one location per work item when locations are
    given (the assertion of the constructor). *)
Definition prefetchable (b : Base.t) : Prop :=
  (∀ (item : WorkItem) layer, item ∈ Base.todo b → layer ∈ Base.managed_layers b →
     is_Some (item !! layer))
  ∧ (∀ layer, layer ∈ Base.managed_layers b →
       is_Some (ViewerState.layers (Viewer.state (Base.viewer b)) !! layer))
  ∧ (∀ ls, Base.locations b = Some ls → length ls = length (Base.todo b)).

(** The viewer state [s] that an entry for the candidate [idx] holds: a
    copy of the viewer state in which every managed layer lists the ids
    of [todo[idx : idx + batch]] under that layer, the layout is ['3d']
    and the position is [locations[idx]] when locations are given. *)
Definition prefetched (b : Base.t) (idx : Z) (s : ViewerState.t) : Prop :=
  let s0 := Viewer.state (Base.viewer b) in
  (∀ layer, layer ∈ Base.managed_layers b →
     ∃ l segs,
       ViewerState.layers s0 !! layer = Some l
       ∧ ViewerState.layers s !! layer = Some (Layer.set_segments segs l)
       ∧ Base.list_segments b idx layer = Ok segs
       ∧ ∀ x, x ∈ segs ↔ ∃ (item : WorkItem) ids,
                            item ∈ Py.slice (Base.todo b) idx (idx + Base.batch b)
                            ∧ item !! layer = Some ids ∧ x ∈ ids)
  ∧ (∀ layer, layer ∉ Base.managed_layers b →
       ViewerState.layers s !! layer = ViewerState.layers s0 !! layer)
  ∧ ViewerState.layout s = Some "3d"
  ∧ ViewerState.position s
    = match Base.locations b with
      | Some ls => Py.index ls idx
      | None => ViewerState.position s0
      end.

Lemma prefetch_state_spec (b : Base.t) (idx : Z) :
  prefetchable b → 0 ≤ idx < Py.len (Base.todo b) →
  ∃ s, Base.prefetch_state b idx = Ok s ∧ prefetched b idx s.
Proof.
  intros (Hitems & Hlayers & Hlocs) Hidx.
  assert (∀ layer, layer ∈ Base.managed_layers b →
            ∃ segs, Base.list_segments b idx layer = Ok segs) as Hsegs.
  { intros layer Hin. apply list_segments_total.
    intros item Hitem%elem_of_slice. by apply Hitems. }
  unfold Base.prefetch_state.
  match goal with
  | |- context [?f (Base.managed_layers b) (Viewer.state (Base.viewer b))] => set (fill := f)
  end.
  assert (∀ ls s0,
            (∀ layer, layer ∈ ls → layer ∈ Base.managed_layers b) →
            (∀ layer, layer ∈ ls → is_Some (ViewerState.layers s0 !! layer)) →
            ∃ s, fill ls s0 = Ok s
                 ∧ (∀ layer, layer ∈ ls →
                      ∃ l segs, ViewerState.layers s0 !! layer = Some l
                                ∧ Base.list_segments b idx layer = Ok segs
                                ∧ ViewerState.layers s !! layer
                                  = Some (Layer.set_segments segs l))
                 ∧ (∀ layer, layer ∉ ls →
                      ViewerState.layers s !! layer = ViewerState.layers s0 !! layer)
                 ∧ ViewerState.layout s = ViewerState.layout s0
                 ∧ ViewerState.position s = ViewerState.position s0) as Hfill.
  { induction ls as [|layer ls IH]; intros s0 Hsub Hin.
    - exists s0. simpl. split_and!; try done. by intros ? ?%elem_of_nil.
    - destruct (Hsegs layer) as [segs Hs]; [apply Hsub; by left|].
      destruct (Hin layer) as [l Hl]; [by left|].
      set (s1 := ViewerState.set_layers
                   (<[layer := Layer.set_segments segs l]> (ViewerState.layers s0)) s0).
      destruct (IH s1) as (s & Hrun & Hshown & Hother & Hlayout & Hpos).
      { intros layer' ?. apply Hsub. by right. }
      { intros layer' ?. simpl. destruct (decide (layer = layer')) as [->|Hne];
          [by rewrite lookup_insert_eq|rewrite lookup_insert_ne by done].
        apply Hin. by right. }
      exists s. split_and!.
      + simpl. rewrite Hs. simpl. unfold ViewerState.update_layer, ViewerState.layer.
        rewrite Hl. simpl. exact Hrun.
      + intros layer' Hin'. destruct (decide (layer' ∈ ls)) as [Hls|Hnls].
        * destruct (Hshown layer' Hls) as (l' & segs' & Hl' & Hs' & Hsh).
          simpl in Hl'. destruct (decide (layer = layer')) as [->|Hne].
          -- rewrite lookup_insert_eq in Hl'. injection Hl' as <-.
             exists l, segs'. split_and!; [done..|]. rewrite Hsh.
             assert (segs' = segs) as -> by congruence. by destruct l.
          -- rewrite lookup_insert_ne in Hl' by done. by exists l', segs'.
        * apply elem_of_cons in Hin' as [->|Hin']; [|done].
          exists l, segs. split_and!; [done..|].
          rewrite (Hother layer Hnls). simpl. by rewrite lookup_insert_eq.
      + intros layer' Hnin. apply not_elem_of_cons in Hnin as [Hne Hnin].
        rewrite (Hother layer' Hnin). simpl. by rewrite lookup_insert_ne.
      + by rewrite Hlayout.
      + by rewrite Hpos. }
  destruct (Hfill (Base.managed_layers b) (Viewer.state (Base.viewer b)))
    as (s & -> & Hshown & Hother & Hlayout & Hpos); [done..|].
  assert (∀ layer, layer ∈ Base.managed_layers b →
            ∃ l segs,
              ViewerState.layers (Viewer.state (Base.viewer b)) !! layer = Some l
              ∧ ViewerState.layers s !! layer = Some (Layer.set_segments segs l)
              ∧ Base.list_segments b idx layer = Ok segs
              ∧ ∀ x, x ∈ segs ↔ ∃ (item : WorkItem) ids,
                                   item ∈ Py.slice (Base.todo b) idx (idx + Base.batch b)
                                   ∧ item !! layer = Some ids ∧ x ∈ ids) as Hshown'.
  { intros layer Hin. destruct (Hshown layer Hin) as (l & segs & Hl & Hs & Hsh).
    exists l, segs. split_and!; [done..|]. by apply list_segments_members. }
  simpl. destruct (Base.locations b) as [ls|] eqn:Hls.
  - destruct (index_in_range ls idx) as [p Hp].
    { unfold Py.len in *. by rewrite (Hlocs ls eq_refl). }
    rewrite Hp. simpl. eexists. split; [done|].
    unfold prefetched. rewrite Hls, Hp. by split_and!.
  - eexists. split; [done|]. unfold prefetched. rewrite Hls. by split_and!.
Qed.

(** C2. The loop stops at the first candidate that reaches the store
    length.  With [batch >= 1] the indices it builds entries for are the
    candidates [index + (i + 1) * batch], [i] in [range(num_to_prefetch)],
    below [len(todo)], in order; whenever the loop returns, [prefetch]
    stores one entry per such index, entry [i] with priority [-i], so
    priorities strictly decrease in request order.  On a store and viewer
    that fit together, from [index >= 0], [prefetch] does return, and the
    entry of the candidate [idx] holds a copy of the viewer state in which
    every managed layer lists the ids of [todo[idx : idx + batch]], the
    layout is ['3d'] and the position is [locations[idx]] when locations
    are given.  With store length 25, [index = 0], [batch = 5] and a
    window of 10 the indices are exactly 5, 10, 15, 20. *)
Theorem prefetch_window (b : Base.t) :
  1 ≤ Base.batch b →
  let window := Base.range (Base.num_to_prefetch b) in
  let kept := Base.prefetch_indices b window in
  kept = filter (λ idx, idx < Py.len (Base.todo b)) (candidate b <$> window)
  ∧ Base.prefetch_loop b window = map_result (Base.prefetch_state b) kept
  ∧ (∀ states, Base.prefetch_loop b window = Ok states →
       Base.prefetch b
       = (Ok tt, Base.set_viewer
                   (Viewer.set_prefetch (Base.prioritise states) (Base.viewer b)) b)
       ∧ length (Base.prioritise states) = length kept
       ∧ (∀ i idx e, kept !! i = Some idx → Base.prioritise states !! i = Some e →
            Base.prefetch_state b idx = Ok (pf_state e) ∧ pf_priority e = - Z.of_nat i)
       ∧ (∀ i j e1 e2, (i < j)%nat →
            Base.prioritise states !! i = Some e1 →
            Base.prioritise states !! j = Some e2 →
            pf_priority e2 < pf_priority e1))
  ∧ (prefetchable b → 0 ≤ Base.index b →
     ∃ entries,
       Base.prefetch b
       = (Ok tt, Base.set_viewer (Viewer.set_prefetch entries (Base.viewer b)) b)
       ∧ length entries = length kept
       ∧ ∀ i idx, kept !! i = Some idx →
           ∃ e, entries !! i = Some e
                ∧ pf_priority e = - Z.of_nat i
                ∧ prefetched b idx (pf_state e))
  ∧ (Py.len (Base.todo b) = 25 → Base.index b = 0 → Base.batch b = 5 →
     Base.num_to_prefetch b = 10 → kept = [5; 10; 15; 20]).
Proof.
  intros Hb window kept.
  assert (kept = filter (λ idx, idx < Py.len (Base.todo b)) (candidate b <$> window)) as Hkept.
  { apply prefetch_indices_filter, Hb. }
  split_and!; [done|apply prefetch_loop_indices| | |].
  - intros states Hloop. split_and!.
    + by apply prefetch_exec.
    + rewrite prefetch_loop_indices in Hloop.
      apply map_result_lookup in Hloop as [Hlen _].
      unfold Base.prioritise. by rewrite length_imap.
    + intros i idx e Hi He. apply prioritise_lookup in He as [Hp Hs].
      rewrite prefetch_loop_indices in Hloop.
      apply map_result_lookup in Hloop as [_ Hlk]. split; [by eapply Hlk|done].
    + intros i j e1 e2 Hij [H1 _]%prioritise_lookup [H2 _]%prioritise_lookup. lia.
  - intros Hfits Hi.
    assert (∀ idx, idx ∈ kept → 0 ≤ idx < Py.len (Base.todo b)) as Hrange.
    { intros idx Hidx. apply prefetch_indices_bound in Hidx as (Hlt & i & Hin & ->).
      split; [|done]. unfold window, Base.range in Hin.
      apply list_elem_of_fmap in Hin as (k & -> & _). unfold candidate. nia. }
    destruct (map_result_ok (Base.prefetch_state b) kept) as [states Hstates].
    { intros idx Hidx. destruct (prefetch_state_spec b idx Hfits (Hrange idx Hidx))
        as (s & Hs & _). by exists s. }
    pose proof (map_result_lookup _ _ _ Hstates) as [Hlen Hlk].
    exists (Base.prioritise states). split_and!.
    + apply prefetch_exec. by rewrite prefetch_loop_indices.
    + unfold Base.prioritise. by rewrite length_imap.
    + intros i idx Hidx.
      destruct (lookup_lt_is_Some_2 states i) as [s Hs].
      { rewrite Hlen. by eapply lookup_lt_Some. }
      exists (mkPrefetchState s (- Z.of_nat i)). split_and!.
      * unfold Base.prioritise. rewrite list_lookup_imap, Hs. done.
      * done.
      * simpl. destruct (prefetch_state_spec b idx Hfits) as (s' & Hs' & Hpf).
        { apply Hrange. by eapply list_elem_of_lookup_2. }
        rewrite (Hlk i idx s Hidx Hs) in Hs'. by injection Hs' as <-.
  - intros Hlen Hi Hbatch Hn. rewrite Hkept. unfold window, candidate.
    rewrite Hlen, Hi, Hbatch, Hn. reflexivity.
Qed.

Lemma prefetch_window_witness :
  1 ≤ Base.batch Scenario.review25
  ∧ prefetchable Scenario.review25
  ∧ 0 ≤ Base.index Scenario.review25
  ∧ Base.prefetch_indices Scenario.review25 (Base.range 10) = [5; 10; 15; 20]
  ∧ ∃ entries,
      Viewer.prefetch (Base.viewer (exec Base.prefetch Scenario.review25)) = entries
      ∧ length entries = 4%nat
      ∧ ∃ e, entries !! 1%nat = Some e
             ∧ pf_priority e = -1
             ∧ Layer.segments <$> ViewerState.layers (pf_state e) !! "seg"
               = Some [11; 12; 13; 14; 15]
             ∧ ViewerState.layout (pf_state e) = Some "3d".
Proof.
  assert (1 ≤ Base.batch Scenario.review25) as Hb by discriminate.
  assert (prefetchable Scenario.review25) as Hfits.
  { split_and!.
    - intros item layer Hitem Hlayer.
      apply list_elem_of_fmap in Hitem as (k & -> & _).
      apply list_elem_of_singleton in Hlayer as ->. cbv beta.
      eexists. apply lookup_singleton_eq.
    - intros layer Hlayer. apply list_elem_of_singleton in Hlayer as ->. by eexists.
    - intros ls Hls. discriminate Hls. }
  assert (0 ≤ Base.index Scenario.review25) as Hi by discriminate.
  destruct (prefetch_window Scenario.review25 Hb) as (_ & _ & _ & Hentries & Hexample).
  split; [exact Hb|]. split; [exact Hfits|]. split; [exact Hi|].
  split; [apply Hexample; reflexivity|].
  destruct (Hentries Hfits Hi) as (entries & Hrun & Hlen & Hentry).
  exists entries. split; [unfold exec; by rewrite Hrun|]. split; [exact Hlen|].
  destruct (Hentry 1%nat 10 eq_refl) as (e & He & Hp & Hshown & _ & Hlayout & _).
  exists e. split; [exact He|]. split; [exact Hp|]. split; [|exact Hlayout].
  destruct (Hshown "seg") as (l & segs & Hl0 & Hl & Hsegs & _); [by left|].
  assert (Base.list_segments Scenario.review25 10 "seg" = Ok [11; 12; 13; 14; 15]) as Hlist
    by (vm_compute; reflexivity).
  rewrite Hlist in Hsegs. injection Hsegs as <-. by rewrite Hl.
Defined.

Lemma ready_set_viewer (v : Viewer.t) (b : Base.t) :
  ready b →
  dom (ViewerState.layers (Viewer.state v))
  = dom (ViewerState.layers (Viewer.state (Base.viewer b))) →
  ready (Base.set_viewer v b).
Proof.
  intros (Hitems & Hlayers & Ha & Hlocs) Hdom. split_and!; try done.
  intros layer Hin. simpl. apply (elem_of_dom (D := gset string)). rewrite Hdom.
  apply elem_of_dom. by apply Hlayers.
Qed.

Lemma ready_set_index (i : Z) (b : Base.t) : ready b → ready (Base.set_index i b).
Proof. by intros (Hitems & Hlayers & Ha & Hlocs). Qed.

Lemma in_range_set_viewer (v : Viewer.t) (b : Base.t) :
  Nav.in_range (Base.set_viewer v b) ↔ Nav.in_range b.
Proof. done. Qed.

Lemma set_index_twice (i j : Z) (b : Base.t) :
  Base.set_index j (Base.set_index i b) = Base.set_index j b.
Proof. by destruct b. Qed.

(** The viewer of [b] displays the batch of [b]: every managed layer
    holds the ids of the batch and no equivalences. *)
Definition displays_batch (b : Base.t) : Prop :=
  ∀ layer, layer ∈ Base.managed_layers b →
    ∃ l segs, ViewerState.layers (Viewer.state (Base.viewer b)) !! layer = Some l
              ∧ Base.list_segments b (Base.index b) layer = Ok segs
              ∧ Layer.segments l = segs
              ∧ Layer.equivalences l = [].

Lemma step_ok custom (mv : Nav.move) (b : Base.t) :
  ready b → Nav.in_range b → 1 ≤ Base.batch b →
  outcome (Nav.step custom mv) b = Ok tt
  ∧ ready (exec (Nav.step custom mv) b)
  ∧ displays_batch (exec (Nav.step custom mv) b)
  ∧ Viewer.status (Base.viewer (exec (Nav.step custom mv) b))
    = Some (MsgBatch (Base.index (exec (Nav.step custom mv) b)) (Py.len (Base.todo b))
              (Base.batch b) custom).
Proof.
  intros Hready Hr Hb.
  destruct (step_in_range custom mv b Hr Hb) as (Hr' & _ & _).
  destruct (step_exec custom mv b) as (v0 & i & Hex & Hi).
  rewrite Hex in Hr'. apply in_range_set_viewer in Hr'.
  set (b1 := Base.set_index i b) in *.
  assert (ready b1) as Hready1 by by apply ready_set_index.
  assert (∃ v1, Viewer.state v1 = Viewer.state (Base.viewer b)
                ∧ Nav.step custom mv b = Base.update_batch custom (Base.set_viewer v1 b1))
    as (v1 & Hv1 & Hstep).
  { destruct mv; simpl in Hi.
    - destruct (prefetch_ok b1) as [states Hstates]; [done|apply Hr'|done|].
      exists (Viewer.set_prefetch (Base.prioritise states) (Base.viewer b)). split; [done|].
      unfold Nav.step, Base.next_batch. rewrite !run_modify.
      rewrite set_index_twice. simpl Base.index. simpl Base.todo. rewrite <- Hi. fold b1.
      by rewrite bind_run, (prefetch_exec b1 states Hstates).
    - exists (Base.viewer b). split; [done|].
      unfold Nav.step, Base.prev_batch. rewrite !run_modify.
      rewrite set_index_twice. simpl Base.index.
      replace (Z.max 0 (Base.index b - Base.batch b)) with i by lia. fold b1.
      by destruct b. }
  set (b2 := Base.set_viewer v1 b1) in *.
  assert (ready b2) as Hready2 by (apply ready_set_viewer; [done|by rewrite Hv1]).
  destruct (update_batch_ready custom b2 Hready2 Hr') as (s & Hrun & Hshows & Hdom).
  unfold outcome, exec. rewrite Hstep, Hrun. simpl. split_and!; [done| | |done].
  - apply ready_set_viewer; [done|]. simpl. by rewrite Hdom.
  - intros layer Hin. destruct (Hshows layer Hin) as (l & segs & Hl & Hs & Hsh).
    exists (shown segs l), segs. simpl. by split_and!.
Qed.

Lemma run_ready custom (mvs : list Nav.move) (b : Base.t) :
  ready b → Nav.in_range b → 1 ≤ Base.batch b → ready (Nav.run custom mvs b).
Proof.
  revert b. induction mvs as [|mv mvs IH]; intros b Hready Hr Hb; [done|].
  destruct (step_ok custom mv b Hready Hr Hb) as (_ & Hready' & _).
  destruct (step_in_range custom mv b Hr Hb) as (Hr' & Hb' & _).
  apply (IH (exec (Nav.step custom mv) b)); [done..|lia].
Qed.

(** X3. On a store and viewer that fit together (every work item has
    every managed layer, the viewer has the managed layers, equivalences
    off, one location per item), from an index in range and [batch >= 1],
    no [next_batch] or [prev_batch] of any sequence of them raises; after
    each one the viewer displays the ids of the batch at the new index and
    the status line names that index. *)
Theorem navigation_never_raises custom (b : Base.t) (mvs : list Nav.move) (mv : Nav.move) :
  ready b → Nav.in_range b → 1 ≤ Base.batch b →
  let before := Nav.run custom mvs b in
  let after := exec (Nav.step custom mv) before in
  outcome (Nav.step custom mv) before = Ok tt
  ∧ displays_batch after
  ∧ Viewer.status (Base.viewer after)
    = Some (MsgBatch (Base.index after) (Py.len (Base.todo b)) (Base.batch b) custom).
Proof.
  intros Hready Hr Hb before after.
  destruct (run_in_range custom mvs b Hr Hb) as (Hr' & Htodo & Hbatch).
  pose proof (run_ready custom mvs b Hready Hr Hb) as Hready'.
  destruct (step_ok custom mv before Hready' Hr') as (Hok & _ & Hshows & Hstatus);
    [fold before in Hbatch; lia|].
  split_and!; [done..|]. fold after in Hstatus. rewrite Hstatus.
  fold before in Htodo, Hbatch. by rewrite Htodo, Hbatch.
Qed.

Lemma ready_review25 : ready Scenario.review25.
Proof.
  split_and!.
  - intros item layer Hitem Hlayer.
    apply list_elem_of_fmap in Hitem as (k & -> & _).
    apply list_elem_of_singleton in Hlayer as ->. cbv beta.
    eexists. apply lookup_singleton_eq.
  - intros layer Hlayer. apply list_elem_of_singleton in Hlayer as ->. by eexists.
  - done.
  - done.
Qed.

Lemma navigation_never_raises_witness :
  ready Scenario.review25
  ∧ Nav.in_range Scenario.review25
  ∧ 1 ≤ Base.batch Scenario.review25
  ∧ outcome (Nav.step CustomNone Nav.Advance)
            (Nav.run CustomNone [Nav.Advance; Nav.Retreat; Nav.Retreat] Scenario.review25)
    = Ok tt.
Proof.
  assert (Nav.in_range Scenario.review25) as Hr by (by vm_compute).
  assert (1 ≤ Base.batch Scenario.review25) as Hb by (by vm_compute).
  split; [exact ready_review25|]. split; [exact Hr|]. split; [exact Hb|].
  exact (proj1 (navigation_never_raises CustomNone Scenario.review25
                  [Nav.Advance; Nav.Retreat; Nav.Retreat] Nav.Advance
                  ready_review25 Hr Hb)).
Defined.

Lemma update_batch_shows_batch_witness :
  ready Scenario.review25
  ∧ Nav.in_range Scenario.review25
  ∧ outcome (Base.update_batch CustomNone) Scenario.review25 = Ok tt.
Proof.
  assert (Nav.in_range Scenario.review25) as Hr by (by vm_compute).
  split; [exact ready_review25|]. split; [exact Hr|].
  destruct (update_batch_shows_batch CustomNone Scenario.review25 ready_review25 Hr)
    as (s & Hrun & _).
  unfold outcome. rewrite Hrun. reflexivity.
Defined.

(** ** Batch size *)

Module Resize.

(** The two batch size actions, bound to the keys [p] and [m]. *)
Inductive move := Grow | Shrink.

Definition step (custom : custom_msg) (mv : move) : M Base.t unit :=
  match mv with
  | Grow => Base.batch_inc custom
  | Shrink => Base.batch_dec custom
  end.

Definition run (custom : custom_msg) (mvs : list move) (b : Base.t) : Base.t :=
  foldl (λ b mv, exec (step custom mv) b) b mvs.

End Resize.

Lemma set_batch_twice (i j : Z) (b : Base.t) :
  Base.set_batch j (Base.set_batch i b) = Base.set_batch j b.
Proof. by destruct b. Qed.

Lemma batch_inc_exec custom (b : Base.t) :
  ∃ v, exec (Base.batch_inc custom) b = Base.set_viewer v (Base.set_batch (Base.batch b * 2) b).
Proof.
  unfold Base.batch_inc. rewrite exec_modify.
  apply (viewer_only_update_batch custom).
Qed.

Lemma batch_dec_exec custom (b : Base.t) :
  ∃ v, exec (Base.batch_dec custom) b
       = Base.set_viewer v (Base.set_batch (Z.max (Base.batch b `div` 2) 1) b).
Proof.
  unfold Base.batch_dec. rewrite !exec_modify, set_batch_twice.
  apply (viewer_only_update_batch custom).
Qed.

Lemma resize_step custom (mv : Resize.move) (b : Base.t) :
  ∃ v, exec (Resize.step custom mv) b
       = Base.set_viewer v
           (Base.set_batch
              match mv with
              | Resize.Grow => Base.batch b * 2
              | Resize.Shrink => Z.max (Base.batch b `div` 2) 1
              end b).
Proof. destruct mv; [apply batch_inc_exec|apply batch_dec_exec]. Qed.

Lemma resize_run custom (mvs : list Resize.move) (b : Base.t) :
  (∃ k : nat, Base.batch b = 2 ^ Z.of_nat k) →
  (∃ k : nat, Base.batch (Resize.run custom mvs b) = 2 ^ Z.of_nat k)
  ∧ Base.index (Resize.run custom mvs b) = Base.index b
  ∧ Base.todo (Resize.run custom mvs b) = Base.todo b.
Proof.
  revert b. induction mvs as [|mv mvs IH]; intros b [k Hk]; [by eauto|].
  destruct (resize_step custom mv b) as [v Hv].
  destruct (IH (exec (Resize.step custom mv) b)) as (Hpow & Hidx & Htodo).
  - rewrite Hv. simpl. destruct mv.
    + exists (S k). rewrite Hk, Nat2Z.inj_succ, Z.pow_succ_r by lia. lia.
    + destruct k as [|k].
      * exists 0%nat. rewrite Hk. reflexivity.
      * exists k. rewrite Hk, Nat2Z.inj_succ, Z.pow_succ_r by lia.
        rewrite (Z.mul_comm 2), Z.div_mul by lia.
        pose proof (Z.pow_pos_nonneg 2 (Z.of_nat k)). lia.
  - assert (Base.index (exec (Resize.step custom mv) b) = Base.index b
            ∧ Base.todo (exec (Resize.step custom mv) b) = Base.todo b) as [Hi Ht]
      by (by rewrite Hv).
    unfold Resize.run in *. simpl. split_and!; [done|congruence..].
Qed.

(** X4. [batch_inc] doubles [batch]; [batch_dec] halves it, rounding
    down, and never below 1, whatever it was; neither moves the index.
    Halving after doubling gives back a batch size that was [>= 1].  From a power
    of two (the initial 1), every sequence of the two keeps [batch] a
    power of two, hence [>= 1]. *)
Theorem batch_size_stays_power_of_two custom (b : Base.t) (mvs : list Resize.move) :
  Base.batch (exec (Base.batch_inc custom) b) = Base.batch b * 2
  ∧ Base.batch (exec (Base.batch_dec custom) b) = Z.max (Base.batch b `div` 2) 1
  ∧ 1 ≤ Base.batch (exec (Base.batch_dec custom) b)
  ∧ Base.index (exec (Base.batch_inc custom) b) = Base.index b
  ∧ Base.index (exec (Base.batch_dec custom) b) = Base.index b
  ∧ (1 ≤ Base.batch b →
     Base.batch (exec (Base.batch_dec custom) (exec (Base.batch_inc custom) b)) = Base.batch b)
  ∧ ((∃ k : nat, Base.batch b = 2 ^ Z.of_nat k) →
     (∃ k : nat, Base.batch (Resize.run custom mvs b) = 2 ^ Z.of_nat k)
     ∧ 1 ≤ Base.batch (Resize.run custom mvs b)
     ∧ Base.index (Resize.run custom mvs b) = Base.index b).
Proof.
  destruct (batch_inc_exec custom b) as [v1 H1].
  destruct (batch_dec_exec custom b) as [v2 H2].
  destruct (batch_dec_exec custom (exec (Base.batch_inc custom) b)) as [v3 H3].
  rewrite H3, H1, H2. simpl. split_and!; try done; try lia.
  - intros Hb. rewrite Z.div_mul by lia. lia.
  - intros Hpow. destruct (resize_run custom mvs b Hpow) as ([k Hk] & Hidx & _).
    split_and!; [by exists k| |done]. rewrite Hk.
    pose proof (Z.pow_pos_nonneg 2 (Z.of_nat k)). lia.
Qed.

Lemma batch_size_stays_power_of_two_witness :
  (∃ k : nat, Base.batch (GraphUpdater.base Scenario.editor) = 2 ^ Z.of_nat k)
  ∧ 1 ≤ Base.batch
          (Resize.run CustomNone [Resize.Grow; Resize.Grow; Resize.Shrink; Resize.Shrink;
                                  Resize.Shrink]
             (GraphUpdater.base Scenario.editor)).
Proof.
  assert (∃ k : nat, Base.batch (GraphUpdater.base Scenario.editor) = 2 ^ Z.of_nat k) as Hpow
    by (by exists 0%nat).
  split; [exact Hpow|].
  destruct (batch_size_stays_power_of_two CustomNone (GraphUpdater.base Scenario.editor)
              [Resize.Grow; Resize.Grow; Resize.Shrink; Resize.Shrink; Resize.Shrink])
    as (_ & _ & _ & _ & _ & _ & Hrun).
  exact (proj1 (proj2 (Hrun Hpow))).
Defined.

(** ** Round trips of the index *)

(** X5. From an index in range with [batch >= 1]: when [next_batch] is
    not clamped ([index + batch <= len(todo) - 1]), a following
    [prev_batch] returns to the index it started from; when it is
    clamped, the pair lands on [max(0, len(todo) - 1 - batch)], which is
    not after the start.  Symmetrically [next_batch] after an unclamped
    [prev_batch] ([index >= batch]) returns to the start.  At the last
    item [next_batch] stays, at the first [prev_batch] stays. *)
Theorem next_prev_round_trip custom (b : Base.t) :
  Nav.in_range b → 1 ≤ Base.batch b →
  let last := Py.len (Base.todo b) - 1 in
  let there_and_back := exec (Base.prev_batch custom) (exec (Base.next_batch custom) b) in
  let back_and_there := exec (Base.next_batch custom) (exec (Base.prev_batch custom) b) in
  (Base.index b + Base.batch b ≤ last → Base.index there_and_back = Base.index b)
  ∧ (last < Base.index b + Base.batch b →
     Base.index there_and_back = Z.max 0 (last - Base.batch b)
     ∧ Base.index there_and_back ≤ Base.index b)
  ∧ (Base.batch b ≤ Base.index b → Base.index back_and_there = Base.index b)
  ∧ (Base.index b = last → Base.index (exec (Base.next_batch custom) b) = last)
  ∧ (Base.index b = 0 → Base.index (exec (Base.prev_batch custom) b) = 0).
Proof.
  intros Hr Hb last there back. unfold Nav.in_range in Hr. fold last in Hr.
  destruct (next_batch_exec custom b) as [v1 H1].
  destruct (prev_batch_exec custom b) as [v2 H2].
  destruct (prev_batch_exec custom (exec (Base.next_batch custom) b)) as [v3 H3].
  destruct (next_batch_exec custom (exec (Base.prev_batch custom) b)) as [v4 H4].
  unfold there, back. rewrite H3, H4, H1, H2. simpl. fold last.
  split_and!; intros; lia.
Qed.

Lemma next_prev_round_trip_witness :
  Nav.in_range Scenario.review25
  ∧ 1 ≤ Base.batch Scenario.review25
  ∧ Base.index (exec (Base.prev_batch CustomNone)
                  (exec (Base.next_batch CustomNone) Scenario.review25))
    = Base.index Scenario.review25.
Proof.
  assert (Nav.in_range Scenario.review25) as Hr by (by vm_compute).
  assert (1 ≤ Base.batch Scenario.review25) as Hb by (by vm_compute).
  split; [exact Hr|]. split; [exact Hb|].
  apply (next_prev_round_trip CustomNone Scenario.review25 Hr Hb). by vm_compute.
Defined.

(** ** Prefetch reads, and writes the prefetch list only *)

Lemma prefetch_loop_set_prefetch (pf : list PrefetchState) (b : Base.t) (ivals : list Z) :
  Base.prefetch_loop (Base.set_viewer (Viewer.set_prefetch pf (Base.viewer b)) b) ivals
  = Base.prefetch_loop b ivals.
Proof.
  assert (∀ idx, Base.prefetch_state
                   (Base.set_viewer (Viewer.set_prefetch pf (Base.viewer b)) b) idx
                 = Base.prefetch_state b idx) as Hstate.
  { intros idx. destruct b as [[]]. reflexivity. }
  induction ivals as [|i ivals IH]; simpl; [done|].
  rewrite Hstate, IH. by destruct b as [[]].
Qed.

Lemma prefetch_run (b : Base.t) :
  Base.prefetch b
  = match Base.prefetch_loop b (Base.range (Base.num_to_prefetch b)) with
    | Ok states =>
        (Ok tt, Base.set_viewer
                  (Viewer.set_prefetch (Base.prioritise states) (Base.viewer b)) b)
    | Raise e => (Raise e, b)
    end.
Proof.
  unfold Base.prefetch. rewrite run_get, bind_run. unfold lift_result.
  by destruct (Base.prefetch_loop _ _).
Qed.

(** X6. [prefetch] changes nothing but the prefetch list of the viewer
    configuration: index, batch, store and the displayed viewer state are
    as before, and when it raises (a work item without a managed layer)
    the list is as before too.  Calling it again gives the same outcome
    and the same state. *)
Theorem prefetch_is_idempotent (b : Base.t) :
  let b' := exec Base.prefetch b in
  (∃ pf, b' = Base.set_viewer (Viewer.set_prefetch pf (Base.viewer b)) b)
  ∧ (outcome Base.prefetch b = Ok tt ∨ b' = b)
  ∧ outcome Base.prefetch b' = outcome Base.prefetch b
  ∧ exec Base.prefetch b' = b'.
Proof.
  intros b'. unfold b', exec, outcome. rewrite (prefetch_run b).
  destruct (Base.prefetch_loop b _) as [states|e] eqn:Hloop; simpl.
  - split_and!; [by eexists|by left| |].
    + rewrite prefetch_run. simpl Base.num_to_prefetch.
      by rewrite prefetch_loop_set_prefetch, Hloop.
    + rewrite prefetch_run. simpl Base.num_to_prefetch.
      rewrite prefetch_loop_set_prefetch, Hloop. by destruct b as [[]].
  - split_and!; [|by right| |].
    + exists (Viewer.prefetch (Base.viewer b)). by destruct b as [[]].
    + by rewrite prefetch_run, Hloop.
    + by rewrite prefetch_run, Hloop.
Qed.

(** X7. With no candidate inside the store, that is with
    [num_to_prefetch <= 0] or [index + batch >= len(todo)], [prefetch]
    returns and leaves an empty prefetch list, whatever the work items
    are. *)
Theorem prefetch_nothing_ahead (b : Base.t) :
  Base.num_to_prefetch b ≤ 0 ∨ Py.len (Base.todo b) ≤ Base.index b + Base.batch b →
  Base.prefetch b = (Ok tt, Base.set_viewer (Viewer.set_prefetch [] (Base.viewer b)) b).
Proof.
  intros Hnone. rewrite prefetch_run.
  assert (Base.prefetch_loop b (Base.range (Base.num_to_prefetch b)) = Ok []) as ->; [|done].
  unfold Base.range. destruct Hnone as [Hn|Hend].
  - by replace (Z.to_nat (Base.num_to_prefetch b)) with 0%nat by lia.
  - destruct (Z.to_nat (Base.num_to_prefetch b)) as [|n]; [done|].
    simpl. rewrite decide_True; [done|lia].
Qed.

Lemma prefetch_nothing_ahead_witness :
  Base.num_to_prefetch (GraphUpdater.base Scenario.editor) ≤ 0
  ∧ Viewer.prefetch (Base.viewer (exec Base.prefetch (GraphUpdater.base Scenario.editor))) = [].
Proof.
  assert (Base.num_to_prefetch (GraphUpdater.base Scenario.editor) ≤ 0) as Hn
    by (by vm_compute).
  split; [exact Hn|]. unfold exec.
  rewrite (prefetch_nothing_ahead (GraphUpdater.base Scenario.editor) (or_introl Hn)).
  reflexivity.
Defined.

(** ** Equivalences *)

Lemma union_equivs_raises (b : Base.t) (item : WorkItem) :
  item ∈ Py.slice (Base.todo b) (Base.index b) (Base.index b + Base.batch b) →
  item ≠ ∅ →
  Base.union_equivs b = Raise TypeError.
Proof.
  intros Hin Hne. unfold Base.union_equivs.
  destruct (map_result _ _) as [xs|e] eqn:Hxs; simpl.
  - apply map_result_inv in Hxs.
    apply list_elem_of_lookup in Hin as [i Hi].
    destruct (Forall2_lookup_l _ _ _ _ _ Hxs Hi) as (y & _ & Hf).
    by rewrite decide_False in Hf.
  - apply map_result_raise in Hxs as (x & _ & Hf). by case_decide.
Qed.

(** X8. With [apply_equivs] set, [update_segments] of a layer that the
    viewer has raises [TypeError] before it writes to the viewer whenever
    a work item of the active batch has a layer: the comprehension
    [[aa[layer] for aa in a]] indexes the layer names of the item.  Hence
    [toggle_equiv], called with equivalences off on a store and viewer
    that fit together, with a managed layer and such an item in the
    batch, raises [TypeError], leaves [apply_equivs] set and the viewer
    as it was. *)
Theorem toggle_equiv_raises custom (b : Base.t) (item : WorkItem) :
  ready b → Nav.in_range b →
  Base.managed_layers b ≠ [] →
  item ∈ Py.slice (Base.todo b) (Base.index b) (Base.index b + Base.batch b) →
  item ≠ ∅ →
  Base.toggle_equiv custom b = (Raise TypeError, Base.set_apply_equivs true b)
  ∧ ∀ segs loc layer,
      is_Some (ViewerState.layers (Viewer.state (Base.viewer b)) !! layer) →
      Base.update_segments segs loc layer (Base.set_apply_equivs true b)
      = (Raise TypeError, Base.set_apply_equivs true b).
Proof.
  intros Hready Hr Hlayers Hitem Hne.
  pose proof Hready as (Hitems & Hviewer & Ha & Hlocs).
  assert (Base.union_equivs (Base.set_apply_equivs true b) = Raise TypeError) as Hunion.
  { apply (union_equivs_raises _ item); [|done]. by destruct b. }
  assert (∀ segs loc layer,
            is_Some (ViewerState.layers (Viewer.state (Base.viewer b)) !! layer) →
            Base.update_segments segs loc layer (Base.set_apply_equivs true b)
            = (Raise TypeError, Base.set_apply_equivs true b)) as Hupdate.
  { intros segs loc layer [l Hl]. unfold Base.update_segments. rewrite run_get.
    unfold ViewerState.layer. simpl Base.viewer. rewrite Hl.
    simpl from_option. rewrite run_lift_ok. simpl Base.apply_equivs. cbv iota.
    rewrite bind_run. unfold lift_result at 1. by rewrite Hunion. }
  split; [|done].
  unfold Base.toggle_equiv. rewrite run_modify. rewrite Ha. simpl negb.
  unfold Base.update_batch. rewrite run_get, bind_run.
  assert (ready (Base.set_apply_equivs false b)) as Hready' by (by destruct b).
  pose proof (batch_location_ok (Base.set_apply_equivs true b)) as Hloc.
  destruct (Base.managed_layers b) as [|layer ls] eqn:Hml; [done|].
  destruct (list_segments_ready b (Base.index b) layer Hready) as [segs Hsegs];
    [first [by left|rewrite Hml; by left]|].
  destruct (Hviewer layer) as [l Hl]; [first [by left|rewrite Hml; by left]|].
  assert (lift_result (S := Base.t)
            (if decide (Base.batch (Base.set_apply_equivs true b) = 1) then
               match Base.locations (Base.set_apply_equivs true b) with
               | Some ls => p ← from_option IndexError
                                  (Py.index ls (Base.index (Base.set_apply_equivs true b)));
                            mret (Some p)
               | None => mret None
               end
             else mret None) (Base.set_apply_equivs true b)
          = (Ok (batch_location b), Base.set_apply_equivs true b)) as ->.
  { pose proof (batch_location_ok b Hready Hr) as Hb. unfold lift_result in *.
    injection Hb as Hb. simpl. by rewrite Hb. }
  rewrite bind_run. simpl Base.managed_layers. rewrite Hml. simpl for_each.
  rewrite bind_run, run_get.
  change (Base.list_segments (Base.set_apply_equivs true b)
            (Base.index (Base.set_apply_equivs true b)) layer)
    with (Base.list_segments b (Base.index b) layer).
  rewrite Hsegs, run_lift_ok, Hupdate by (by eexists). done.
Qed.

Lemma toggle_equiv_raises_witness :
  ready Scenario.review25
  ∧ Nav.in_range Scenario.review25
  ∧ Base.managed_layers Scenario.review25 ≠ []
  ∧ ({[ "seg" := [1] ]} : WorkItem)
    ∈ Py.slice (Base.todo Scenario.review25) (Base.index Scenario.review25)
        (Base.index Scenario.review25 + Base.batch Scenario.review25)
  ∧ ({[ "seg" := [1] ]} : WorkItem) ≠ ∅
  ∧ Base.toggle_equiv CustomNone Scenario.review25
    = (Raise TypeError, Base.set_apply_equivs true Scenario.review25).
Proof.
  assert (Nav.in_range Scenario.review25) as Hr by (by vm_compute).
  assert (Base.managed_layers Scenario.review25 ≠ []) as Hl by done.
  assert (({[ "seg" := [1] ]} : WorkItem)
          ∈ Py.slice (Base.todo Scenario.review25) (Base.index Scenario.review25)
              (Base.index Scenario.review25 + Base.batch Scenario.review25)) as Hin
    by (vm_compute; by left).
  assert (({[ "seg" := [1] ]} : WorkItem) ≠ ∅) as Hne.
  { intros H. apply (f_equal (λ m : WorkItem, m !! "seg")) in H. by vm_compute in H. }
  split_and!; [exact ready_review25|exact Hr|exact Hl|exact Hin|exact Hne|].
  exact (proj1 (toggle_equiv_raises CustomNone Scenario.review25 _
                  ready_review25 Hr Hl Hin Hne)).
Defined.

(** ** The classification map as a whole *)

(** No id is filed under two classes. *)
Definition one_class (res : gmap string (gset Z)) : Prop :=
  ∀ id c1 c2, id ∈ ObjectClassification.members c1 res →
              id ∈ ObjectClassification.members c2 res → c1 = c2.

Lemma classify_run (cls : option string) (st : ObjectClassification.t) :
  ObjectClassification.results (exec (ObjectClassification.classify cls) st)
  = match ObjectClassification.current_sid (ObjectClassification.base st) with
    | Ok sid => ObjectClassification.classify_results sid cls (ObjectClassification.results st)
    | Raise _ => ObjectClassification.results st
    end.
Proof.
  destruct (ObjectClassification.current_sid _) as [sid|e] eqn:Hsid.
  - by apply classify_exec.
  - unfold ObjectClassification.classify, exec.
    by rewrite run_get, Hsid, run_lift_raise.
Qed.

(** X9. [classify] keeps the classification map free of ids filed under
    two classes: if no id is in the sets of two classes before, none is
    after, whether [classify] returns or raises, and for every class
    argument.  The ids other than the current one stay where they are. *)
Theorem classify_keeps_one_class (cls : option string) (st : ObjectClassification.t) :
  one_class (ObjectClassification.results st) →
  one_class (ObjectClassification.results (exec (ObjectClassification.classify cls) st))
  ∧ ∀ sid other c,
      ObjectClassification.current_sid (ObjectClassification.base st) = Ok sid →
      other ≠ sid →
      (other ∈ ObjectClassification.members c
                 (ObjectClassification.results (exec (ObjectClassification.classify cls) st))
       ↔ other ∈ ObjectClassification.members c (ObjectClassification.results st)).
Proof.
  intros Hone. rewrite classify_run.
  destruct (ObjectClassification.current_sid _) as [sid|e]; [|by split].
  split.
  - intros id c1 c2. rewrite !members_classify_results.
    destruct (decide (id = sid)) as [->|Hne].
    + repeat case_decide; set_solver.
    + intros H1 H2. apply (Hone id); repeat case_decide; set_solver.
  - intros sid' other c [= <-] Hne. rewrite members_classify_results.
    case_decide; set_solver.
Qed.

Lemma classify_keeps_one_class_witness :
  one_class (ObjectClassification.results ClassifyScenario.st)
  ∧ one_class (ObjectClassification.results
                 (exec (ObjectClassification.classify (Some "glia")) ClassifyScenario.st)).
Proof.
  assert (one_class (ObjectClassification.results ClassifyScenario.st)) as Hone.
  { intros id c1 c2. unfold ObjectClassification.members. simpl.
    destruct (decide (c1 = "axon")) as [->|H1];
      [|rewrite lookup_singleton_ne by done; simpl; set_solver].
    destruct (decide (c2 = "axon")) as [->|H2];
      [done|rewrite (lookup_singleton_ne "axon" c2) by done; simpl; set_solver]. }
  split; [exact Hone|].
  exact (proj1 (classify_keeps_one_class (Some "glia") ClassifyScenario.st Hone)).
Defined.

(** ** An empty store, an empty work item *)

Lemma current_seg_empty_store (b : Base.t) :
  Base.todo b = [] → Base.current_seg b = Raise IndexError.
Proof.
  intros Hnil. unfold Base.current_seg, Py.index, Py.len. rewrite Hnil. simpl.
  by repeat case_decide.
Qed.

(** X10. On an empty store [mark_bad] (with [batch <= 1]) and [classify]
    raise [IndexError] and leave the bad set, the classification map and
    the rest of the state untouched; [classify] does the same on a work
    item whose [seg] list is empty, while [mark_bad] flags the empty
    frozenset for it.  [next_batch] on an empty store sets the index to
    [-1] (from [index + batch >= -1]). *)
Theorem empty_store_behaviour (r : ObjectReview.t) (c : ObjectClassification.t)
  (cls : option string) (custom : custom_msg) :
  (Base.todo (ObjectReview.base r) = [] → Base.batch (ObjectReview.base r) ≤ 1 →
   ObjectReview.mark_bad r = (Raise IndexError, r))
  ∧ (Base.todo (ObjectClassification.base c) = [] →
     ObjectClassification.classify cls c = (Raise IndexError, c))
  ∧ (Base.current_seg (ObjectClassification.base c) = Ok [] →
     ObjectClassification.classify cls c = (Raise IndexError, c))
  ∧ (Base.current_seg (ObjectReview.base r) = Ok [] → Base.batch (ObjectReview.base r) ≤ 1 →
     ObjectReview.bad (exec ObjectReview.mark_bad r) = ObjectReview.bad r ∪ {[ BadGroup ∅ ]})
  ∧ (Base.todo (ObjectReview.base r) = [] →
     -1 ≤ Base.index (ObjectReview.base r) + Base.batch (ObjectReview.base r) →
     Base.index (exec (Base.next_batch custom) (ObjectReview.base r)) = -1).
Proof.
  split_and!.
  - intros Hnil Hb. unfold ObjectReview.mark_bad.
    rewrite run_get, decide_False by lia.
    by rewrite (current_seg_empty_store _ Hnil), run_lift_raise.
  - intros Hnil. unfold ObjectClassification.classify, ObjectClassification.current_sid.
    by rewrite run_get, (current_seg_empty_store _ Hnil).
  - intros Hseg. unfold ObjectClassification.classify, ObjectClassification.current_sid.
    by rewrite run_get, Hseg.
  - intros Hseg Hb.
    destruct (review_mark_bad_one r [] (BadGroup ∅)) as (Hbad & _); [lia|done|done|done].
  - intros Hnil Hidx. destruct (next_batch_exec custom (ObjectReview.base r)) as [v ->].
    simpl. rewrite Hnil. unfold Py.len. simpl. lia.
Qed.

Module EmptyScenario.

(** A review of nothing. *)
Definition review : ObjectReview.t :=
  ObjectReview.mk (Base.mk Scenario.viewer 10 ["seg"] [] 0 1 false None) {[ BadId 3 ]}.

End EmptyScenario.

Lemma empty_store_behaviour_witness :
  Base.todo (ObjectReview.base EmptyScenario.review) = []
  ∧ Base.batch (ObjectReview.base EmptyScenario.review) ≤ 1
  ∧ ObjectReview.mark_bad EmptyScenario.review = (Raise IndexError, EmptyScenario.review)
  ∧ Base.index (exec (Base.next_batch CustomNone) (ObjectReview.base EmptyScenario.review)) = -1.
Proof.
  assert (Base.batch (ObjectReview.base EmptyScenario.review) ≤ 1) as Hb by (by vm_compute).
  assert (-1 ≤ Base.index (ObjectReview.base EmptyScenario.review)
               + Base.batch (ObjectReview.base EmptyScenario.review)) as Hi by (by vm_compute).
  destruct (empty_store_behaviour EmptyScenario.review ClassifyScenario.st None CustomNone)
    as (Hmark & _ & _ & _ & Hnext).
  split_and!; [reflexivity|exact Hb|exact (Hmark eq_refl Hb)|exact (Hnext eq_refl Hi)].
Defined.

(** ** Flagging the removed ids twice *)

(** X11. [mark_removed_bad] only adds to the bad set, and a second call
    right after the first changes nothing more: the state after two
    calls is the state after one.  When a work item of the batch has no
    [seg], it raises [KeyError] and the state is untouched; when every
    work item of the batch has [seg] and the viewer has a [seg] layer, it
    returns. *)
Theorem mark_removed_bad_idempotent (st : ObjectReview.t) :
  let st' := exec ObjectReview.mark_removed_bad st in
  let b := ObjectReview.base st in
  let items := Py.slice (Base.todo b) (Base.index b) (Base.index b + Base.batch b) in
  ObjectReview.bad st ⊆ ObjectReview.bad st'
  ∧ exec ObjectReview.mark_removed_bad st' = st'
  ∧ (∀ item : WorkItem, item ∈ items → item !! "seg" = None →
       ObjectReview.mark_removed_bad st = (Raise KeyError, st))
  ∧ ((∀ item : WorkItem, item ∈ items → is_Some (item !! "seg")) →
     is_Some (ViewerState.layers (Viewer.state (Base.viewer b)) !! "seg") →
     outcome ObjectReview.mark_removed_bad st = Ok tt).
Proof.
  intros st' b items. subst st' items b.
  assert (∀ item : WorkItem,
            item ∈ Py.slice (Base.todo (ObjectReview.base st))
                     (Base.index (ObjectReview.base st))
                     (Base.index (ObjectReview.base st) + Base.batch (ObjectReview.base st)) →
            item !! "seg" = None →
            ObjectReview.mark_removed_bad st = (Raise KeyError, st)) as Hlacks.
  { intros item Hitem Hnone. unfold ObjectReview.mark_removed_bad.
    by rewrite run_get, (list_segments_lacks _ _ _ item Hitem Hnone), run_lift_raise. }
  assert ((∀ item : WorkItem,
             item ∈ Py.slice (Base.todo (ObjectReview.base st))
                      (Base.index (ObjectReview.base st))
                      (Base.index (ObjectReview.base st) + Base.batch (ObjectReview.base st)) →
             is_Some (item !! "seg")) →
          is_Some (ViewerState.layers (Viewer.state (Base.viewer (ObjectReview.base st)))
                   !! "seg") →
          outcome ObjectReview.mark_removed_bad st = Ok tt) as Hreturns.
  { intros Hall [l Hl].
    destruct (list_segments_total (ObjectReview.base st) (Base.index (ObjectReview.base st))
                "seg" Hall) as [segs Hsegs].
    pose proof (mark_removed_bad_run st segs l Hsegs Hl) as Hrun. cbv zeta in Hrun.
    unfold outcome. rewrite Hrun. by case_decide. }
  cut (ObjectReview.bad st ⊆ ObjectReview.bad (exec ObjectReview.mark_removed_bad st)
       ∧ exec ObjectReview.mark_removed_bad (exec ObjectReview.mark_removed_bad st)
         = exec ObjectReview.mark_removed_bad st
       ∧ (outcome ObjectReview.mark_removed_bad st = Ok tt
          ∨ ObjectReview.mark_removed_bad st = (Raise KeyError, st))).
  { intros (H1 & H2 & _). by split_and!. }
  clear Hlacks Hreturns.
  destruct (Base.list_segments (ObjectReview.base st) (Base.index (ObjectReview.base st)) "seg")
    as [segs|e] eqn:Hsegs.
  - destruct (ViewerState.layers (Viewer.state (Base.viewer (ObjectReview.base st))) !! "seg")
      as [l|] eqn:Hl.
    + pose proof (mark_removed_bad_run st segs l Hsegs Hl) as Hrun. cbv zeta in Hrun.
      set (new_bad := list_to_set segs ∖ list_to_set (Layer.segments l)) in *.
      destruct (decide (new_bad ≠ ∅)) as [Hne|Hne].
      * unfold exec, outcome. rewrite Hrun. simpl.
        split_and!.
        { apply union_subseteq_l. }
        2:{ left. reflexivity. }
        rewrite (mark_removed_bad_run _ segs l); [|by destruct st|by destruct st].
        cbv zeta. fold new_bad. rewrite decide_True by exact Hne.
        generalize (set_map (D := gset bad_elem) BadId new_bad). intros added.
        assert (∀ X : gset bad_elem, X ∪ added ∪ added = X ∪ added) as Hu.
        { intros X. apply set_eq. intros x. rewrite !elem_of_union. tauto. }
        destruct st as [[[]]].
        unfold ObjectReview.set_base, ObjectReview.set_bad, with_status, Base.set_viewer,
          Viewer.set_status. simpl. by rewrite Hu.
      * unfold exec, outcome. rewrite Hrun. simpl. split_and!; [done| |by left].
        by rewrite Hrun.
    + assert (ObjectReview.mark_removed_bad st = (Raise KeyError, st)) as Hrun.
      { unfold ObjectReview.mark_removed_bad. rewrite run_get, Hsegs, run_lift_ok.
        unfold ViewerState.layer. by rewrite Hl. }
      unfold exec. rewrite Hrun. simpl. rewrite Hrun. split_and!; [done|done|by right].
  - assert (ObjectReview.mark_removed_bad st = (Raise KeyError, st)) as Hrun.
    { unfold ObjectReview.mark_removed_bad. rewrite run_get, Hsegs, run_lift_raise.
      by destruct (list_segments_key_error _ _ _ e Hsegs) as [-> _]. }
    unfold exec. rewrite Hrun. simpl. rewrite Hrun. split_and!; [done|done|by right].
Qed.

Module UnlabelledScenario.

(** A review whose only work item has a [split] entry and no [seg]. *)
Definition st : ObjectReview.t :=
  ObjectReview.mk
    (Base.mk Scenario.viewer 10 ["seg"] [ {[ "split" := [5] ]} ] 0 1 false None)
    {[ BadId 9 ]}.

End UnlabelledScenario.

Lemma mark_removed_bad_idempotent_witness :
  is_Some (ViewerState.layers
             (Viewer.state (Base.viewer (ObjectReview.base RemovedScenario.st))) !! "seg")
  ∧ outcome ObjectReview.mark_removed_bad RemovedScenario.st = Ok tt
  ∧ ({[ "split" := [5] ]} : WorkItem) !! "seg" = None
  ∧ outcome ObjectReview.mark_removed_bad UnlabelledScenario.st = Raise KeyError.
Proof.
  assert (is_Some (ViewerState.layers
                     (Viewer.state (Base.viewer (ObjectReview.base RemovedScenario.st)))
                   !! "seg")) as Hl by (by eexists).
  split; [exact Hl|]. split; [|split; [reflexivity|]].
  - apply (proj2 (proj2 (proj2 (mark_removed_bad_idempotent RemovedScenario.st)))); [|exact Hl].
    intros item Hin.
    change (item ∈ [ ({[ "seg" := [1; 2; 3] ]} : WorkItem) ]) in Hin.
    apply list_elem_of_singleton in Hin as ->. by eexists.
  - unfold outcome.
    rewrite (proj1 (proj2 (proj2 (mark_removed_bad_idempotent UnlabelledScenario.st)))
               {[ "split" := [5] ]}); [reflexivity| |reflexivity].
    change (({[ "split" := [5] ]} : WorkItem) ∈ [ ({[ "split" := [5] ]} : WorkItem) ]).
    by left.
Defined.

(** ** Starting a split *)

Lemma shortest_path_same (g : Nx.Graph) (a : Z) :
  Nx.has_node g a → Nx.shortest_path g a a = Ok [a].
Proof.
  intros Ha. unfold Nx.shortest_path. rewrite decide_True by done.
  destruct (size g); simpl; by rewrite decide_True.
Qed.

(** X12. When [shortest_path] finds a path between the two selected
    endpoints [a] and [d], the session that two [add_split] leave has
    [split_objects = [a, d]], a [split_path] that starts at [a], ends at
    [d] and walks along edges of the graph, and [split_index = 1] within
    [1 <= split_index <= len(split_path)]; the graph is untouched.
    Selecting one node of the graph twice gives the path of that single
    node, on which [accept_split] finds no edge and changes nothing. *)
Theorem start_split_gives_walk (st : GraphUpdater.t) (a d : Z) (path : list Z) :
  GraphUpdater.idle st →
  Nx.shortest_path (GraphUpdater.graph st) a d = Ok path →
  let st' := exec (GraphUpdater.add_split d) (exec (GraphUpdater.add_split a) st) in
  GraphUpdater.split_objects st' = [a; d]
  ∧ GraphUpdater.split_path st' = path
  ∧ GraphUpdater.split_index st' = 1
  ∧ GraphUpdater.graph st' = GraphUpdater.graph st
  ∧ head path = Some a ∧ last path = Some d
  ∧ Nx.is_walk (GraphUpdater.graph st') path
  ∧ Cursor.in_path st'
  ∧ (a = d → path = [a] ∧ GraphUpdater.accept_split st' = (Ok tt, st')).
Proof.
  intros Hidle Hsp st'. unfold GraphUpdater.idle in Hidle.
  assert (exec (GraphUpdater.add_split a) st
          = GraphUpdater.set_base
              (with_status (MsgSplit [a]) (GraphUpdater.base st))
              (GraphUpdater.set_split_objects [a] st)) as H1.
  { unfold exec. by rewrite add_split_first. }
  destruct (add_split_second (exec (GraphUpdater.add_split a) st) a d path)
    as [b2 H2]; [by rewrite H1|by rewrite H1|].
  fold st' in H2. rewrite H1 in H2. simpl in H2.
  pose proof (shortest_path_sound _ _ _ _ Hsp) as (Ha & Hd & Hhead & Hlast & Hwalk).
  assert (Cursor.in_path st') as Hin.
  { rewrite H2. unfold Cursor.in_path, Py.len. simpl.
    destruct path; [done|]. simpl length. lia. }
  rewrite H2 in Hin |- *.
  cbn [GraphUpdater.split_objects GraphUpdater.split_path GraphUpdater.split_index
       GraphUpdater.graph GraphUpdater.set_base GraphUpdater.set_split_index
       GraphUpdater.set_split_path GraphUpdater.set_split_objects].
  split_and!; [done..|].
  intros <-. rewrite (shortest_path_same _ a Ha) in Hsp. injection Hsp as <-.
  split; [done|]. by apply (accept_split_no_edge _ a).
Qed.

Lemma start_split_gives_walk_witness :
  GraphUpdater.idle Scenario.editor
  ∧ Nx.shortest_path (GraphUpdater.graph Scenario.editor) 2 4 = Ok [2; 3; 4]
  ∧ Nx.is_walk
      (GraphUpdater.graph
         (exec (GraphUpdater.add_split 4) (exec (GraphUpdater.add_split 2) Scenario.editor)))
      [2; 3; 4].
Proof.
  assert (GraphUpdater.idle Scenario.editor) as Hidle by reflexivity.
  assert (Nx.shortest_path (GraphUpdater.graph Scenario.editor) 2 4 = Ok [2; 3; 4])
    as Hsp by (by vm_compute).
  split; [exact Hidle|]. split; [exact Hsp|].
  destruct (start_split_gives_walk Scenario.editor 2 4 [2; 3; 4] Hidle Hsp)
    as (_ & _ & _ & _ & _ & _ & Hwalk & _).
  exact Hwalk.
Defined.

(** X13. With two endpoints already selected, [add_split] does not take
    the new value: [split_objects] stays as it is and [start_split] runs
    again on the same two endpoints, so that the path is computed anew in
    the current graph and the cursor goes back to 1 (or the error of
    [shortest_path] is raised again). *)
Theorem add_split_ignores_third (st : GraphUpdater.t) (a d value : Z) :
  GraphUpdater.split_objects st = [a; d] →
  GraphUpdater.add_split value st
  = GraphUpdater.start_split
      (GraphUpdater.set_base (with_status (MsgSplit [a; d]) (GraphUpdater.base st)) st)
  ∧ GraphUpdater.split_objects (exec (GraphUpdater.add_split value) st) = [a; d]
  ∧ (∀ path, Nx.shortest_path (GraphUpdater.graph st) a d = Ok path →
       GraphUpdater.split_path (exec (GraphUpdater.add_split value) st) = path
       ∧ GraphUpdater.split_index (exec (GraphUpdater.add_split value) st) = 1)
  ∧ (∀ e, Nx.shortest_path (GraphUpdater.graph st) a d = Raise e →
       outcome (GraphUpdater.add_split value) st = Raise e).
Proof.
  intros Hobj.
  assert (GraphUpdater.add_split value st
          = GraphUpdater.start_split
              (GraphUpdater.set_base (with_status (MsgSplit [a; d]) (GraphUpdater.base st)) st))
    as Hrun.
  { unfold GraphUpdater.add_split. rewrite run_get, Hobj.
    change (Py.len [a; d]) with 2. rewrite decide_False by lia.
    rewrite bind_run. cbn [mret M_ret]. rewrite run_get, Hobj.
    change (Py.len [a; d]) with 2. rewrite bind_run, run_update_msg.
    by rewrite decide_True. }
  split; [done|]. unfold exec, outcome. rewrite Hrun.
  set (st1 := GraphUpdater.set_base _ st).
  assert (GraphUpdater.split_objects st1 = [a; d]) as Hobj1 by done.
  split_and!.
  - destruct (Nx.shortest_path (GraphUpdater.graph st) a d) as [path|e] eqn:Hsp.
    + destruct (start_split_exec st1 a d path Hobj1 Hsp) as [b Hb].
      unfold exec in Hb. by rewrite Hb.
    + by rewrite (start_split_raise st1 a d e Hobj1 Hsp).
  - intros path Hsp. destruct (start_split_exec st1 a d path Hobj1 Hsp) as [b Hb].
    unfold exec in Hb. by rewrite Hb.
  - intros e Hsp. by rewrite (start_split_raise st1 a d e Hobj1 Hsp).
Qed.

Lemma add_split_ignores_third_witness :
  GraphUpdater.split_objects Scenario.trimmed = [1; 4]
  ∧ GraphUpdater.split_objects (exec (GraphUpdater.add_split 2) Scenario.trimmed) = [1; 4].
Proof.
  assert (GraphUpdater.split_objects Scenario.trimmed = [1; 4]) as Hobj by (by vm_compute).
  split; [exact Hobj|].
  exact (proj1 (proj2 (add_split_ignores_third Scenario.trimmed 1 4 2 Hobj))).
Defined.

(** ** What the split layer shows *)

Lemma slice_prefix {A} (l : list A) (c : Z) :
  0 ≤ c → Py.slice l 0 c = take (Z.to_nat c) l.
Proof.
  intros Hc. unfold Py.slice, Py.bound. rewrite !decide_False by lia.
  replace (Z.to_nat (0 `min` Py.len l)) with 0%nat by (unfold Py.len; lia).
  replace (0 `min` Py.len l) with 0 by (unfold Py.len; lia).
  simpl drop. rewrite Z.sub_0_r.
  destruct (decide (c ≤ Py.len l)).
  - by rewrite Z.min_l.
  - rewrite Z.min_r by lia. unfold Py.len in *.
    rewrite (take_ge l (Z.to_nat c)) by lia. apply take_ge. lia.
Qed.

Lemma update_split_run (st : GraphUpdater.t) :
  GraphUpdater.update_split st
  = match ViewerState.layers (Viewer.state (Base.viewer (GraphUpdater.base st))) !! "split" with
    | Some l =>
        (Ok tt,
         GraphUpdater.set_base
           (Base.set_viewer
              (Viewer.set_state
                 (ViewerState.set_layers
                    (<["split" := Layer.set_segments
                                   (Py.slice (GraphUpdater.split_path st) 0
                                             (GraphUpdater.split_index st)) l]>
                       (ViewerState.layers (Viewer.state (Base.viewer (GraphUpdater.base st)))))
                    (Viewer.state (Base.viewer (GraphUpdater.base st))))
                 (Base.viewer (GraphUpdater.base st)))
              (GraphUpdater.base st)) st)
    | None => (Raise KeyError, st)
    end.
Proof.
  unfold GraphUpdater.update_split, GraphUpdater.viewer_state.
  rewrite run_get, !bind_run. cbn -[Py.slice].
  unfold ViewerState.update_layer, ViewerState.layer.
  by destruct (ViewerState.layers _ !! "split").
Qed.

(** The ids shown in the [split] layer. *)
Definition split_shown (st : GraphUpdater.t) : option (list Z) :=
  Layer.segments
    <$> ViewerState.layers (Viewer.state (Base.viewer (GraphUpdater.base st))) !! "split".

(** X14. With a [split] layer in the viewer and the cursor within
    [1 <= split_index <= len(split_path)], [inc_split] and [dec_split]
    return and the [split] layer then shows the first [split_index] nodes
    of the path, for the new [split_index], which is the old one moved by
    one and kept within [1, len(split_path)]; the other layers of the
    viewer are as before. *)
Theorem cursor_move_shows_prefix (mv : Cursor.move) (st : GraphUpdater.t) :
  Cursor.in_path st →
  is_Some (split_shown st) →
  let st' := exec (Cursor.step mv) st in
  let layers s := ViewerState.layers (Viewer.state (Base.viewer (GraphUpdater.base s))) in
  outcome (Cursor.step mv) st = Ok tt
  ∧ GraphUpdater.split_index st'
    = match mv with
      | Cursor.Inc => Z.min (Py.len (GraphUpdater.split_path st))
                            (GraphUpdater.split_index st + 1)
      | Cursor.Dec => Z.max 1 (GraphUpdater.split_index st - 1)
      end
  ∧ split_shown st'
    = Some (take (Z.to_nat (GraphUpdater.split_index st')) (GraphUpdater.split_path st'))
  ∧ length (take (Z.to_nat (GraphUpdater.split_index st')) (GraphUpdater.split_path st'))
    = Z.to_nat (GraphUpdater.split_index st')
  ∧ ∀ name, name ≠ "split" → layers st' !! name = layers st !! name.
Proof.
  intros Hin Hshown st' layers.
  destruct (cursor_step mv st Hin) as (Hin' & Hpath & _). fold st' in Hin', Hpath.
  set (i := match mv with
            | Cursor.Inc => Z.min (Py.len (GraphUpdater.split_path st))
                                  (GraphUpdater.split_index st + 1)
            | Cursor.Dec => Z.max 1 (GraphUpdater.split_index st - 1)
            end).
  assert (Cursor.step mv st
          = GraphUpdater.update_split (GraphUpdater.set_split_index i st)) as Hrun.
  { unfold i. by destruct mv. }
  unfold layers, st', exec, outcome, split_shown in *.
  rewrite Hrun in *. rewrite update_split_run in *.
  cbn [GraphUpdater.base GraphUpdater.set_split_index] in *.
  destruct (ViewerState.layers _ !! "split") as [l|] eqn:Hl; simpl in *.
  - rewrite lookup_insert_eq. simpl.
    unfold Cursor.in_path in Hin'. simpl in Hin'.
    rewrite slice_prefix by lia. split_and!; [done..| |].
    + rewrite length_take. unfold Py.len in Hin'. lia.
    + intros name Hne. by rewrite lookup_insert_ne.
  - by destruct Hshown.
Qed.

Lemma cursor_move_shows_prefix_witness :
  Cursor.in_path Scenario.selected
  ∧ is_Some (split_shown Scenario.selected)
  ∧ split_shown (exec (Cursor.step Cursor.Inc) Scenario.selected) = Some [1; 2].
Proof.
  assert (Cursor.in_path Scenario.selected) as Hin by (by vm_compute).
  assert (is_Some (split_shown Scenario.selected)) as Hshown by (vm_compute; by eexists).
  split; [exact Hin|]. split; [exact Hshown|].
  destruct (cursor_move_shows_prefix Cursor.Inc Scenario.selected Hin Hshown)
    as (_ & _ & Hprefix & _).
  rewrite Hprefix. by vm_compute.
Defined.

(** ** Accepting a split that is not there *)

Lemma remove_edge_missing (g : Nx.Graph) (u v : Z) :
  ¬ Nx.has_edge g u v → Nx.remove_edge u v g = (Raise NetworkXError, g).
Proof.
  intros Hno. unfold Nx.remove_edge. rewrite run_get. by rewrite decide_False.
Qed.

Lemma accept_split_missing (st : GraphUpdater.t) (u v : Z) (rest : list Z) :
  Py.slice (GraphUpdater.split_path st)
           (GraphUpdater.split_index st - 1) (GraphUpdater.split_index st + 1)
  = u :: v :: rest →
  ¬ Nx.has_edge (GraphUpdater.graph st) u v →
  GraphUpdater.accept_split st = (Raise NetworkXError, st).
Proof.
  intros Hedge Hno. unfold GraphUpdater.accept_split.
  rewrite run_get, Hedge, bind_run. unfold GraphUpdater.on_graph.
  rewrite (remove_edge_missing _ u v Hno). by destruct st.
Qed.

(** X15. [accept_split] on an edge that the graph does not have raises
    [NetworkXError] and changes nothing.  This is what a second
    [accept_split] meets: after one has removed the edge at the cursor of
    a path in a well-formed graph, path and cursor still address that
    edge, so the next one raises and leaves graph and session as they
    are. *)
Theorem accept_split_twice_raises (st : GraphUpdater.t) (u v : Z) :
  Nx.wf (GraphUpdater.graph st) →
  Py.slice (GraphUpdater.split_path st)
           (GraphUpdater.split_index st - 1) (GraphUpdater.split_index st + 1)
  = [u; v] →
  let st' := exec GraphUpdater.accept_split st in
  (¬ Nx.has_edge (GraphUpdater.graph st) u v →
   GraphUpdater.accept_split st = (Raise NetworkXError, st))
  ∧ (Nx.has_edge (GraphUpdater.graph st) u v →
     ¬ Nx.has_edge (GraphUpdater.graph st') u v
     ∧ GraphUpdater.accept_split st' = (Raise NetworkXError, st')).
Proof.
  intros [Hnodes Hsym] Hedge st'. split.
  - intros Hno. by apply (accept_split_missing st u v []).
  - intros Huv.
    destruct (remove_edge_run (GraphUpdater.graph st) u v Huv (Hsym _ _ Huv))
      as (g' & Hrm & Hdom & Hedges).
    destruct (accept_split_exec st u v [] g' Hedge Hrm) as [b Hb].
    fold st' in Hb.
    assert (¬ Nx.has_edge (GraphUpdater.graph st') u v) as Hgone.
    { rewrite Hb. simpl. intros [_ Hno]%Hedges. apply Hno. by left. }
    split; [done|]. apply (accept_split_missing st' u v []); [|done].
    by rewrite Hb.
Qed.

Lemma accept_split_twice_raises_witness :
  Nx.wf (GraphUpdater.graph Scenario.trimmed)
  ∧ Py.slice (GraphUpdater.split_path Scenario.trimmed)
             (GraphUpdater.split_index Scenario.trimmed - 1)
             (GraphUpdater.split_index Scenario.trimmed + 1) = [3; 4]
  ∧ Nx.has_edge (GraphUpdater.graph Scenario.trimmed) 3 4
  ∧ GraphUpdater.accept_split (exec GraphUpdater.accept_split Scenario.trimmed)
    = (Raise NetworkXError, exec GraphUpdater.accept_split Scenario.trimmed).
Proof.
  assert (GraphUpdater.graph Scenario.trimmed = Scenario.path_graph) as Hg
    by (vm_compute; reflexivity).
  assert (Nx.wf (GraphUpdater.graph Scenario.trimmed)) as Hwf
    by (rewrite Hg; apply wf_add_edges_from, wf_empty).
  assert (Py.slice (GraphUpdater.split_path Scenario.trimmed)
            (GraphUpdater.split_index Scenario.trimmed - 1)
            (GraphUpdater.split_index Scenario.trimmed + 1) = [3; 4]) as Hedge
    by (vm_compute; reflexivity).
  assert (Nx.has_edge (GraphUpdater.graph Scenario.trimmed) 3 4) as Huv
    by (apply (bool_decide_unpack _); by vm_compute).
  split; [exact Hwf|]. split; [exact Hedge|]. split; [exact Huv|].
  exact (proj2 (proj2 (accept_split_twice_raises Scenario.trimmed 3 4 Hwf Hedge) Huv)).
Defined.

(** ** Merging connects the selection *)

Lemma chain_connected {A} (R : relation A) (l : list A) :
  (∀ (i : nat) a b, l !! i = Some a → l !! S i = Some b → R a b) →
  ∀ (i j : nat) a b, (i ≤ j)%nat → l !! i = Some a → l !! j = Some b → rtc R a b.
Proof.
  intros Hstep i j. induction j as [|j IH]; intros a b Hij Ha Hb.
  - assert (i = 0%nat) as -> by lia. rewrite Ha in Hb. injection Hb as ->. done.
  - destruct (decide (i = S j)) as [->|Hne].
    + rewrite Ha in Hb. injection Hb as ->. done.
    + destruct (lookup_lt_is_Some_2 l j) as [c Hc].
      { apply lookup_lt_Some in Hb. lia. }
      eapply rtc_r; [apply (IH a c); [lia|done..]|]. by eapply Hstep.
Qed.

Lemma merge_segments_graph (st : GraphUpdater.t) (l : Layer.t) :
  ViewerState.layers (Viewer.state (Base.viewer (GraphUpdater.base st))) !! "seg" = Some l →
  GraphUpdater.graph (exec GraphUpdater.merge_segments st)
  = Nx.add_edges_from (Py.zip_next (filter (λ sid, sid > 0) (Layer.segments l)))
      (GraphUpdater.graph st).
Proof.
  intros Hl. unfold exec, GraphUpdater.merge_segments. rewrite bind_run, seg_segments_run, Hl.
  reflexivity.
Qed.

(** X16. After [merge_segments] any two displayed ids [> 0] are
    connected in the graph, in both directions, and each of them is a
    node of the graph when at least two ids are kept; a graph that
    was well formed (neighbours are nodes, edges go both ways) is so
    afterwards. *)
Theorem merge_connects_selection (st : GraphUpdater.t) (l : Layer.t) :
  ViewerState.layers (Viewer.state (Base.viewer (GraphUpdater.base st))) !! "seg" = Some l →
  let sids := filter (λ sid, sid > 0) (Layer.segments l) in
  let g' := GraphUpdater.graph (exec GraphUpdater.merge_segments st) in
  (∀ a b, a ∈ sids → b ∈ sids → Nx.connected g' a b)
  ∧ ((2 ≤ length sids)%nat → ∀ a, a ∈ sids → Nx.has_node g' a)
  ∧ (Nx.wf (GraphUpdater.graph st) → Nx.wf g').
Proof.
  intros Hl sids g'.
  assert (g' = Nx.add_edges_from (Py.zip_next sids) (GraphUpdater.graph st)) as Hg'
    by apply (merge_segments_graph st l Hl).
  assert (∀ (k : nat) x y, sids !! k = Some x → sids !! S k = Some y →
            Nx.has_edge g' x y ∧ Nx.has_edge g' y x) as Hedges.
  { intros k x y Hx Hy. rewrite Hg', !has_edge_add_edges_from, !elem_of_zip_next.
    split; right; [left|right]; by exists k. }
  assert (∀ (i j : nat) a b, (i ≤ j)%nat → sids !! i = Some a → sids !! j = Some b →
            Nx.connected g' a b ∧ Nx.connected g' b a) as Hchain.
  { intros i j a b Hij Ha Hb. split.
    - apply (chain_connected (Nx.has_edge g') sids) with i j; [|done..].
      intros k x y Hx Hy. by destruct (Hedges k x y Hx Hy).
    - assert (rtc (λ x y, Nx.has_edge g' y x) a b) as Hrev.
      { apply (chain_connected (λ x y, Nx.has_edge g' y x) sids) with i j; [|done..].
        intros k x y Hx Hy. by destruct (Hedges k x y Hx Hy). }
      clear -Hrev. induction Hrev as [|x y z Hyx _ IH]; [apply rtc_refl|].
      eapply rtc_r; [exact IH|exact Hyx]. }
  split_and!.
  - intros a b [i Hi]%list_elem_of_lookup [j Hj]%list_elem_of_lookup.
    destruct (decide (i ≤ j)%nat).
    + by destruct (Hchain i j a b).
    + destruct (Hchain j i b a); [lia|done..].
  - intros Hlen a [i Hi]%list_elem_of_lookup. unfold Nx.has_node. rewrite Hg'.
    apply dom_add_edges_from. right.
    destruct (decide (i = 0)%nat) as [->|Hne].
    + destruct (lookup_lt_is_Some_2 sids 1) as [b Hb]; [lia|].
      exists (a, b). split; [|by left]. apply elem_of_zip_next. by exists 0%nat.
    + destruct (lookup_lt_is_Some_2 sids (pred i)) as [b Hb].
      { apply lookup_lt_Some in Hi. lia. }
      exists (b, a). split; [|by right]. apply elem_of_zip_next. exists (pred i).
      split; [done|]. by replace (S (pred i)) with i by lia.
  - intros Hwf. rewrite Hg'. by apply wf_add_edges_from.
Qed.

Lemma merge_connects_selection_witness :
  Nx.connected (GraphUpdater.graph (exec GraphUpdater.merge_segments MergeScenario.st)) 9 5.
Proof.
  apply (merge_connects_selection MergeScenario.st (Layer.mk [5; 7; 0; 9] true []) eq_refl).
  - vm_compute. right. right. by left.
  - vm_compute. by left.
Defined.

(** ** The editor as a whole: every action of its key bindings *)

Module Editor.

(** The actions that the constructor of [GraphUpdater] registers with the
    viewer; [AddSplit] carries the selected value of the event. *)
Inductive action :=
  | AddCcs | ClearSplits | AddSplit (value : Z) | AcceptSplit
  | SplitInc | SplitDec | MergeSegments | MarkBad | NextBatch | PrevBatch.

Definition perform (a : action) : M GraphUpdater.t unit :=
  match a with
  | AddCcs => GraphUpdater.add_ccs
  | ClearSplits => GraphUpdater.clear_splits
  | AddSplit value => GraphUpdater.add_split value
  | AcceptSplit => GraphUpdater.accept_split
  | SplitInc => GraphUpdater.inc_split
  | SplitDec => GraphUpdater.dec_split
  | MergeSegments => GraphUpdater.merge_segments
  | MarkBad => GraphUpdater.mark_bad
  | NextBatch => GraphUpdater.next_batch
  | PrevBatch => GraphUpdater.prev_batch
  end.

(** The actions one after the other; an exception ends its own action
    only. *)
Definition run (actions : list action) (st : GraphUpdater.t) : GraphUpdater.t :=
  foldl (λ st a, exec (perform a) st) st actions.

End Editor.

(** The graph [g'] has the nodes of [g], and is well formed if [g] is. *)
Definition evolves (g g' : Nx.Graph) : Prop :=
  (Nx.wf g → Nx.wf g') ∧ dom g ⊆ dom g'.

(** A method of [Base] that keeps batch size and store. *)
Definition base_keeps {A} (m : M Base.t A) : Prop :=
  ∀ b, Base.batch (m b).2 = Base.batch b ∧ Base.todo (m b).2 = Base.todo b.

(** A method of [GraphUpdater] that lets the graph evolve and keeps batch
    size and store. *)
Definition keeps {A} (m : M GraphUpdater.t A) : Prop :=
  ∀ st, evolves (GraphUpdater.graph st) (GraphUpdater.graph (m st).2)
        ∧ Base.batch (GraphUpdater.base (m st).2) = Base.batch (GraphUpdater.base st)
        ∧ Base.todo (GraphUpdater.base (m st).2) = Base.todo (GraphUpdater.base st).

Lemma evolves_refl (g : Nx.Graph) : evolves g g.
Proof. by split. Qed.

Lemma evolves_trans (g1 g2 g3 : Nx.Graph) : evolves g1 g2 → evolves g2 g3 → evolves g1 g3.
Proof. intros [H1 D1] [H2 D2]. split; [auto|set_solver]. Qed.

Lemma viewer_only_keeps {A} (m : M Base.t A) : viewer_only m → base_keeps m.
Proof. intros Hm b. destruct (Hm b) as [v ->]. by destruct b. Qed.

Lemma next_batch_keeps custom : base_keeps (Base.next_batch custom).
Proof. intros b. destruct (next_batch_exec custom b) as [v Hv]. unfold exec in Hv. by rewrite Hv. Qed.

Lemma prev_batch_keeps custom : base_keeps (Base.prev_batch custom).
Proof. intros b. destruct (prev_batch_exec custom b) as [v Hv]. unfold exec in Hv. by rewrite Hv. Qed.

Lemma keeps_ret {A} (a : A) : keeps (mret a).
Proof. intros st. split_and!; [apply evolves_refl|done..]. Qed.

Lemma keeps_lift {A} (r : result A) : keeps (lift_result r).
Proof. intros st. split_and!; [apply evolves_refl|done..]. Qed.

Lemma keeps_get : keeps get.
Proof. intros st. split_and!; [apply evolves_refl|done..]. Qed.

Lemma keeps_bind {A B} (m : M GraphUpdater.t A) (f : A → M GraphUpdater.t B) :
  keeps m → (∀ a, keeps (f a)) → keeps (m ≫= f).
Proof.
  intros Hm Hf st. rewrite bind_run. destruct (Hm st) as (He & Hb & Ht).
  destruct (m st) as [[a|e] st']; simpl in *; [|done].
  destruct (Hf a st') as (He' & Hb' & Ht').
  split_and!; [by eapply evolves_trans|congruence..].
Qed.

Lemma keeps_inherited {A} (m : M Base.t A) : base_keeps m → keeps (GraphUpdater.inherited m).
Proof.
  intros Hm st. rewrite inherited_run. simpl. destruct (Hm (GraphUpdater.base st)) as [Hb Ht].
  split_and!; [apply evolves_refl|done..].
Qed.

Lemma keeps_modify (f : GraphUpdater.t → GraphUpdater.t) :
  (∀ st, GraphUpdater.graph (f st) = GraphUpdater.graph st
         ∧ GraphUpdater.base (f st) = GraphUpdater.base st) →
  keeps (modify f).
Proof.
  intros Hf st. destruct (Hf st) as [Hg Hb]. simpl. rewrite Hg, Hb.
  split_and!; [apply evolves_refl|done..].
Qed.

Create HintDb keeps discriminated.
#[local] Hint Resolve keeps_ret keeps_lift keeps_get viewer_only_update_msg
  viewer_only_set_state viewer_only_update_segments next_batch_keeps prev_batch_keeps : keeps.

Ltac keeps :=
  repeat first
    [ apply keeps_bind; [|intros ?]
    | apply keeps_inherited
    | solve [auto with keeps]
    | apply viewer_only_keeps; solve [auto with keeps | viewer_only]
    | apply keeps_modify; intros ?; by split
    | match goal with
      | |- keeps (if ?c then _ else _) => destruct c
      | |- keeps (match ?x with _ => _ end) => destruct x
      end ].

Lemma keeps_update_split : keeps GraphUpdater.update_split.
Proof. unfold GraphUpdater.update_split, GraphUpdater.viewer_state. keeps. Qed.

Lemma keeps_clear_splits : keeps GraphUpdater.clear_splits.
Proof.
  unfold GraphUpdater.clear_splits, GraphUpdater.viewer_state, GraphUpdater.update_msg. keeps.
Qed.

Lemma keeps_start_split : keeps GraphUpdater.start_split.
Proof.
  unfold GraphUpdater.start_split, GraphUpdater.viewer_state, GraphUpdater.update_msg. keeps.
Qed.

Lemma keeps_next_batch : keeps GraphUpdater.next_batch.
Proof. unfold GraphUpdater.next_batch. keeps. Qed.

Lemma wf_remove_edge (g g' : Nx.Graph) (u v : Z) :
  Nx.wf g → Nx.remove_edge u v g = (Ok tt, g') → Nx.wf g'.
Proof.
  intros [Hnodes Hsym] Hrm.
  destruct (decide (Nx.has_edge g u v)) as [Huv|Hno].
  - destruct (remove_edge_run g u v Huv (Hsym _ _ Huv)) as (g'' & Hrm' & Hdom & Hedges).
    rewrite Hrm in Hrm'. injection Hrm' as <-. split.
    + intros x y [Hxy _]%Hedges. unfold Nx.has_node. rewrite Hdom. by eapply Hnodes.
    + intros x y [Hxy Hnot]%Hedges. apply Hedges. split; [by apply Hsym|]. naive_solver.
  - by rewrite (remove_edge_missing g u v Hno) in Hrm.
Qed.

Lemma remove_edge_evolves (g : Nx.Graph) (u v : Z) : evolves g (Nx.remove_edge u v g).2.
Proof.
  destruct (decide (Nx.has_edge g u v)) as [Huv|Hno];
    [|rewrite (remove_edge_missing g u v Hno); apply evolves_refl].
  split.
  - intros Hwf. destruct (remove_edge_run g u v Huv (proj2 Hwf _ _ Huv)) as (g' & Hrm & _).
    rewrite Hrm. by eapply wf_remove_edge.
  - unfold Nx.remove_edge. rewrite run_get, decide_True by done. rewrite bind_run. simpl.
    destruct (decide (u = v)); simpl; [rewrite dom_insert_L; set_solver|].
    rewrite bind_run. simpl. case_decide; simpl; rewrite ?dom_insert_L; set_solver.
Qed.

Lemma keeps_accept_split : keeps GraphUpdater.accept_split.
Proof.
  unfold GraphUpdater.accept_split. apply keeps_bind; [apply keeps_get|]. intros st0.
  destruct (Py.slice _ _ _) as [|u [|v rest]]; [apply keeps_ret..|].
  apply keeps_bind; [|intros _; apply keeps_clear_splits].
  intros st. unfold GraphUpdater.on_graph.
  pose proof (remove_edge_evolves (GraphUpdater.graph st) u v) as He.
  destruct (Nx.remove_edge u v (GraphUpdater.graph st)) as [r g']. by destruct st.
Qed.

Lemma keeps_merge_segments : keeps GraphUpdater.merge_segments.
Proof.
  unfold GraphUpdater.merge_segments, GraphUpdater.seg_segments, GraphUpdater.viewer_state.
  keeps. intros st. simpl. split_and!; [|done..]. split.
  - apply wf_add_edges_from.
  - intros x Hx. apply dom_add_edges_from. by left.
Qed.

Lemma keeps_perform (a : Editor.action) : keeps (Editor.perform a).
Proof.
  destruct a; simpl.
  - unfold GraphUpdater.add_ccs, GraphUpdater.try_acquire, GraphUpdater.seg_segments,
      GraphUpdater.viewer_state, GraphUpdater.release. keeps.
  - apply keeps_clear_splits.
  - unfold GraphUpdater.add_split, GraphUpdater.update_msg. keeps.
  - apply keeps_accept_split.
  - unfold GraphUpdater.inc_split. keeps.
  - unfold GraphUpdater.dec_split. keeps.
  - apply keeps_merge_segments.
  - unfold GraphUpdater.mark_bad, GraphUpdater.update_msg. keeps.
  - apply keeps_next_batch.
  - unfold GraphUpdater.prev_batch. keeps.
Qed.

(** X17. Whatever sequence of the registered actions is performed, and
    whichever of them raise, the graph of the editor stays well formed
    (neighbours are nodes, adjacency is symmetric) if it was, no node is
    ever removed from it, and batch size and store are never changed. *)
Theorem editor_keeps_graph_well_formed (actions : list Editor.action) (st : GraphUpdater.t) :
  Nx.wf (GraphUpdater.graph st) →
  Nx.wf (GraphUpdater.graph (Editor.run actions st))
  ∧ dom (GraphUpdater.graph st) ⊆ dom (GraphUpdater.graph (Editor.run actions st))
  ∧ Base.batch (GraphUpdater.base (Editor.run actions st)) = Base.batch (GraphUpdater.base st)
  ∧ Base.todo (GraphUpdater.base (Editor.run actions st)) = Base.todo (GraphUpdater.base st).
Proof.
  revert st. induction actions as [|a actions IH]; intros st Hwf; [done|].
  destruct (keeps_perform a st) as ([Hwf' Hdom] & Hb & Ht).
  destruct (IH (exec (Editor.perform a) st) (Hwf' Hwf)) as (H1 & H2 & H3 & H4).
  unfold Editor.run in *. simpl. unfold exec in *.
  split_and!; [done|set_solver|congruence..].
Qed.

Lemma editor_keeps_graph_well_formed_witness :
  Nx.wf (GraphUpdater.graph Scenario.editor)
  ∧ Nx.wf (GraphUpdater.graph
             (Editor.run [Editor.AddSplit 1; Editor.AddSplit 4; Editor.SplitInc;
                          Editor.AcceptSplit; Editor.AcceptSplit; Editor.MergeSegments;
                          Editor.AddCcs] Scenario.editor)).
Proof.
  assert (Nx.wf (GraphUpdater.graph Scenario.editor)) as Hwf
    by apply wf_add_edges_from, wf_empty.
  split; [exact Hwf|].
  exact (proj1 (editor_keeps_graph_well_formed _ Scenario.editor Hwf)).
Defined.

(** ** The semaphore of [add_ccs] *)

Lemma update_segments_raise (b : Base.t) (segs : list Z) (loc : option Location)
  (layer : string) (e : exn) :
  (Base.update_segments segs loc layer b).1 = Raise e →
  (Base.update_segments segs loc layer b).2 = b.
Proof.
  unfold Base.update_segments. rewrite run_get. unfold ViewerState.layer.
  destruct (ViewerState.layers _ !! layer) as [l|]; [|done]. simpl from_option.
  rewrite run_lift_ok. destruct (Base.apply_equivs b).
  - rewrite bind_run. unfold lift_result at 1.
    by destruct (Base.union_equivs b) as [[]|e'].
  - done.
Qed.

Lemma union_equivs_type_error (b : Base.t) (e : exn) :
  Base.union_equivs b = Raise e → e = TypeError.
Proof.
  unfold Base.union_equivs. destruct (map_result _ _) as [xs|e'] eqn:Hxs; simpl; [done|].
  intros [= <-]. apply map_result_raise in Hxs as (x & _ & Hf). by case_decide; simplify_eq.
Qed.

Lemma update_segments_present (b : Base.t) (segs : list Z) (loc : option Location)
  (layer : string) :
  is_Some (ViewerState.layers (Viewer.state (Base.viewer b)) !! layer) →
  (Base.update_segments segs loc layer b).1
  = if Base.apply_equivs b then Base.union_equivs b else Ok tt.
Proof.
  intros [l Hl]. unfold Base.update_segments. rewrite run_get. unfold ViewerState.layer.
  rewrite Hl. simpl from_option. rewrite run_lift_ok. destruct (Base.apply_equivs b).
  - rewrite bind_run. unfold lift_result at 1.
    by destruct (Base.union_equivs b) as [[]|e'].
  - done.
Qed.

(** X18. [add_ccs] releases its semaphore only when it gets to the end.
    With the semaphore free and a [seg] layer in the viewer: a call that
    returns leaves the counter as it was; a call that raises raises the
    [TypeError] of the equivalences, leaves the counter one lower and the
    rest of the state untouched, and from the initial counter 1 every
    later [add_ccs] returns at once without doing anything.  It raises
    when [apply_equivs] is set and a work item of the batch has a layer,
    and returns when [apply_equivs] is not set. *)
Theorem add_ccs_keeps_semaphore_on_error (st : GraphUpdater.t) :
  GraphUpdater.sem st > 0 →
  is_Some (ViewerState.layers (Viewer.state (Base.viewer (GraphUpdater.base st))) !! "seg") →
  let st' := exec GraphUpdater.add_ccs st in
  let b := GraphUpdater.base st in
  (outcome GraphUpdater.add_ccs st = Ok tt → GraphUpdater.sem st' = GraphUpdater.sem st)
  ∧ (∀ e, outcome GraphUpdater.add_ccs st = Raise e →
       e = TypeError
       ∧ st' = GraphUpdater.set_sem (GraphUpdater.sem st - 1) st
       ∧ (GraphUpdater.sem st = 1 → GraphUpdater.add_ccs st' = (Ok tt, st')))
  ∧ (∀ item : WorkItem,
       Base.apply_equivs b = true →
       item ∈ Py.slice (Base.todo b) (Base.index b) (Base.index b + Base.batch b) →
       item ≠ ∅ →
       outcome GraphUpdater.add_ccs st = Raise TypeError)
  ∧ (Base.apply_equivs b = false → outcome GraphUpdater.add_ccs st = Ok tt).
Proof.
  intros Hsem Hseg st' b. subst st' b. unfold exec, outcome.
  rewrite add_ccs_run, decide_True, add_ccs_body_run by done.
  change (GraphUpdater.base (GraphUpdater.set_sem (GraphUpdater.sem st - 1) st))
    with (GraphUpdater.base st).
  pose proof Hseg as [l Hl]. rewrite Hl. cbv zeta.
  match goal with |- context [Base.update_segments ?segs None "seg" ?b] =>
    pose proof (update_segments_raise b segs None "seg") as Hraise;
    pose proof (update_segments_present b segs None "seg" Hseg) as Hpresent;
    destruct (Base.update_segments segs None "seg" b) as [[[]|e] b'] eqn:Hup end.
  - simpl in *. split_and!; [intros _; lia|done| |done].
    intros item Ha Hitem Hne. rewrite Ha in Hpresent.
    by rewrite (union_equivs_raises _ item Hitem Hne) in Hpresent.
  - simpl in *. rewrite (Hraise e eq_refl).
    assert (e = TypeError ∧ Base.apply_equivs (GraphUpdater.base st) = true) as [-> Ha].
    { destruct (Base.apply_equivs (GraphUpdater.base st)); [|done].
      split; [|done]. by apply (union_equivs_type_error (GraphUpdater.base st)). }
    split_and!; [done| |done|by rewrite Ha].
    intros e' [= <-]. split; [done|]. split; [by destruct st|].
    intros H1. apply add_ccs_busy. destruct st. simpl in *. lia.
Qed.

Module StuckScenario.

(** An editor that shows the object [{1, 2}] with [apply_equivs] set. *)
Definition st : GraphUpdater.t :=
  GraphUpdater.mk
    (Base.mk Scenario.viewer 0 ["seg"] [ {[ "seg" := [1; 2] ]} ] 0 1 true None)
    Scenario.path_graph [] [] 1 1 ∅.

End StuckScenario.

Lemma add_ccs_keeps_semaphore_on_error_witness :
  GraphUpdater.sem StuckScenario.st > 0
  ∧ is_Some (ViewerState.layers
               (Viewer.state (Base.viewer (GraphUpdater.base StuckScenario.st))) !! "seg")
  ∧ outcome GraphUpdater.add_ccs StuckScenario.st = Raise TypeError
  ∧ GraphUpdater.sem (exec GraphUpdater.add_ccs StuckScenario.st) = 0
  ∧ GraphUpdater.add_ccs (exec GraphUpdater.add_ccs StuckScenario.st)
    = (Ok tt, exec GraphUpdater.add_ccs StuckScenario.st).
Proof.
  assert (GraphUpdater.sem StuckScenario.st > 0) as Hsem by reflexivity.
  assert (is_Some (ViewerState.layers
                     (Viewer.state (Base.viewer (GraphUpdater.base StuckScenario.st)))
                   !! "seg")) as Hseg by (by eexists).
  destruct (add_ccs_keeps_semaphore_on_error StuckScenario.st Hsem Hseg)
    as (_ & Hraise & Hequivs & _).
  assert (outcome GraphUpdater.add_ccs StuckScenario.st = Raise TypeError) as Hout.
  { apply (Hequivs {[ "seg" := [1; 2] ]}); [reflexivity| |].
    - change (({[ "seg" := [1; 2] ]} : WorkItem) ∈ [ ({[ "seg" := [1; 2] ]} : WorkItem) ]).
      by left.
    - intros H. apply (f_equal (λ m : WorkItem, m !! "seg")) in H. by vm_compute in H. }
  split; [exact Hsem|]. split; [exact Hseg|]. split; [exact Hout|].
  destruct (Hraise TypeError Hout) as (_ & Hst & Hnext).
  split; [rewrite Hst; reflexivity|exact (Hnext eq_refl)].
Defined.

(** ** Cancelling a split *)

Lemma clear_splits_run (st : GraphUpdater.t) :
  let b := with_status MsgSplitsCleared (GraphUpdater.base st) in
  let st1 := GraphUpdater.set_base b (GraphUpdater.set_split_objects [] st) in
  let s := Viewer.state (Base.viewer (GraphUpdater.base st)) in
  GraphUpdater.clear_splits st
  = match ViewerState.layers s !! "split" with
    | Some split =>
        let layers1 := <["split" := Layer.set_visible false split]> (ViewerState.layers s) in
        match layers1 !! "seg" with
        | Some seg =>
            (Ok tt,
             GraphUpdater.set_base
               (Base.set_viewer
                  (Viewer.set_state
                     (ViewerState.set_layers (<["seg" := Layer.set_visible true seg]> layers1) s)
                     (Base.viewer b)) b) st1)
        | None => (Raise KeyError, st1)
        end
    | None => (Raise KeyError, st1)
    end.
Proof.
  intros b st1 s. unfold st1, b, s. clear b st1 s.
  destruct st as [[[[layers position layout] status prefetch] ? ? ? ? ? ? ?] ? ? ? ? ? ?].
  unfold GraphUpdater.clear_splits, GraphUpdater.viewer_state, GraphUpdater.update_msg,
    GraphUpdater.inherited, ViewerState.update_layer, ViewerState.layer, with_status.
  unfold modify, mbind, M_bind, result_bind, mret, M_ret, result_ret, lift_result, get,
    from_option, Base.update_msg, Base.set_state, modify. cbn.
  destruct (layers !! "split") as [split|]; [|done]. cbn.
  destruct (<["split" := _]> layers !! "seg") as [seg|]; done.
Qed.

(** X19. [clear_splits] always empties [split_objects] and sets the
    status line to ['splits cleared'], and never touches graph, path,
    cursor, bad set or semaphore.  With [split] and [seg] layers in the
    viewer it returns, having hidden the [split] layer and made the [seg]
    layer visible without changing what they hold, and the other layers
    are as before. *)
Theorem clear_splits_cancels (st : GraphUpdater.t) :
  let st' := exec GraphUpdater.clear_splits st in
  let layers := ViewerState.layers (Viewer.state (Base.viewer (GraphUpdater.base st))) in
  let layers' := ViewerState.layers (Viewer.state (Base.viewer (GraphUpdater.base st'))) in
  GraphUpdater.idle st'
  ∧ Viewer.status (Base.viewer (GraphUpdater.base st')) = Some MsgSplitsCleared
  ∧ GraphUpdater.graph st' = GraphUpdater.graph st
  ∧ GraphUpdater.split_path st' = GraphUpdater.split_path st
  ∧ GraphUpdater.split_index st' = GraphUpdater.split_index st
  ∧ GraphUpdater.bad st' = GraphUpdater.bad st
  ∧ GraphUpdater.sem st' = GraphUpdater.sem st
  ∧ (∀ split seg, layers !! "split" = Some split → layers !! "seg" = Some seg →
       outcome GraphUpdater.clear_splits st = Ok tt
       ∧ layers' !! "split" = Some (Layer.set_visible false split)
       ∧ layers' !! "seg" = Some (Layer.set_visible true seg)
       ∧ ∀ name, name ≠ "split" → name ≠ "seg" → layers' !! name = layers !! name).
Proof.
  intros st' layers layers'. unfold layers', st', exec, outcome. clear st' layers'.
  pose proof (clear_splits_run st) as Hrun. cbv zeta in Hrun. fold layers in Hrun.
  rewrite Hrun. clear Hrun.
  destruct (layers !! "split") as [split|] eqn:Hsplit.
  - assert (<["split" := Layer.set_visible false split]> layers !! "seg" = layers !! "seg")
      as -> by (by apply lookup_insert_ne).
    destruct (layers !! "seg") as [seg|] eqn:Hseg.
    + set (m := <["seg" := Layer.set_visible true seg]>
                  (<["split" := Layer.set_visible false split]> layers)).
      assert (m !! "split" = Some (Layer.set_visible false split)) as Hm1
        by (unfold m; by rewrite lookup_insert_ne, lookup_insert_eq).
      assert (m !! "seg" = Some (Layer.set_visible true seg)) as Hm2
        by (unfold m; by rewrite lookup_insert_eq).
      assert (∀ name, name ≠ "split" → name ≠ "seg" → m !! name = layers !! name) as Hm3
        by (intros name H1 H2; unfold m; by rewrite !lookup_insert_ne).
      clearbody m. simpl. split_and!; try done.
      intros split' seg' [= <-] [= <-]. by split_and!.
    + simpl. by split_and!.
  - simpl. by split_and!.
Qed.

Lemma clear_splits_cancels_witness :
  outcome GraphUpdater.clear_splits Scenario.trimmed = Ok tt
  ∧ GraphUpdater.idle (exec GraphUpdater.clear_splits Scenario.trimmed).
Proof.
  pose proof (clear_splits_cancels Scenario.trimmed) as (Hidle & _ & _ & _ & _ & _ & _ & Hok).
  split; [|exact Hidle].
  eapply Hok; vm_compute; reflexivity.
Defined.

(** ** Building the store *)

(** An element of [objects]: a mapping from layer name to ids, an
    iterable of ids, or a single id. *)
Inductive todo_object :=
  | Mapping (o : WorkItem)
  | Iterable (o : list Z)
  | Scalar (o : Z).

(** The work item that [_set_todo] appends for [o]. *)
Definition work_item (o : todo_object) : WorkItem :=
  match o with
  | Mapping o => o
  | Iterable o => {[ "seg" := o ]}
  | Scalar o => {[ "seg" := [o] ]}
  end.

(** [_set_todo(objects)], on the pair of [self.todo] and
    [self.managed_layers]. *)
Definition _set_todo (objects : list todo_object) (st : list WorkItem * gset string)
  : list WorkItem * gset string :=
  foldl (λ '(todo, managed_layers) o,
           match o with
           | Mapping m => (todo ++ [m], managed_layers ∪ dom m)
           | _ => (todo ++ [work_item o], managed_layers)
           end) st objects.

Lemma seg_item_lookup (ids : list Z) (layer : string) :
  ({[ "seg" := ids ]} : WorkItem) !! layer = if decide (layer = "seg") then Some ids else None.
Proof.
  case_decide as Hl.
  - subst. apply (lookup_singleton_eq (M := gmap string)).
  - apply (lookup_singleton_ne (M := gmap string)). congruence.
Qed.

Lemma set_todo_fold (objects : list todo_object) (todo : list WorkItem) (managed : gset string) :
  _set_todo objects (todo, managed)
  = (todo ++ (work_item <$> objects),
     managed ∪ ⋃ ((λ o, match o with Mapping m => dom m | _ => ∅ end) <$> objects)).
Proof.
  unfold _set_todo. revert todo managed.
  induction objects as [|o objects IH]; intros todo managed; simpl.
  - rewrite app_nil_r. f_equal. set_solver.
  - destruct o; rewrite IH, <- app_assoc; simpl; f_equal; set_solver.
Qed.

(** X20. [_set_todo], from the empty store and the managed layers
    [{'seg'}] of the constructor, appends one work item per object, in
    order: a mapping as it is, an iterable or a single id under [seg].
    [seg] stays managed, every layer of every work item is managed, and
    every managed layer other than [seg] comes from a mapping.  When no
    object is a mapping, [seg] is the only managed layer and every work
    item has it. *)
Theorem set_todo_builds_store (objects : list todo_object) :
  let '(todo, managed) := _set_todo objects ([], {[ "seg" ]}) in
  todo = work_item <$> objects
  ∧ "seg" ∈ managed
  ∧ (∀ (item : WorkItem) layer, item ∈ todo → is_Some (item !! layer) → layer ∈ managed)
  ∧ (∀ layer, layer ∈ managed →
       layer = "seg" ∨ ∃ m, Mapping m ∈ objects ∧ is_Some (m !! layer))
  ∧ ((∀ m, Mapping m ∉ objects) →
       managed = {[ "seg" ]}
       ∧ ∀ (item : WorkItem) layer, item ∈ todo → layer ∈ managed → is_Some (item !! layer)).
Proof.
  rewrite set_todo_fold. simpl.
  set (extra := ⋃ _).
  assert (∀ layer, layer ∈ extra ↔ ∃ m, Mapping m ∈ objects ∧ is_Some (m !! layer)) as Hextra.
  { intros layer. unfold extra. rewrite elem_of_union_list. split.
    - intros (X & HX & Hin). apply list_elem_of_fmap in HX as (o & -> & Ho).
      destruct o as [m| |]; [|set_solver..]. exists m. split; [done|]. by apply elem_of_dom.
    - intros (m & Hm & Hin). exists (dom m). split; [|by apply elem_of_dom].
      apply list_elem_of_fmap. by exists (Mapping m). }
  split_and!.
  - done.
  - set_solver.
  - intros item layer Hitem Hlayer. apply list_elem_of_fmap in Hitem as (o & -> & Ho).
    destruct o as [m|ids|id]; cbn [work_item] in *.
    + apply elem_of_union_r, Hextra. by exists m.
    + rewrite seg_item_lookup in Hlayer. case_decide; [set_solver|by destruct Hlayer].
    + rewrite seg_item_lookup in Hlayer. case_decide; [set_solver|by destruct Hlayer].
  - intros layer [->%elem_of_singleton|Hin%Hextra]%elem_of_union; [by left|by right].
  - intros Hnone.
    assert (extra = ∅) as ->.
    { apply set_eq. intros layer. rewrite Hextra. split; [|set_solver].
      intros (m & Hm & _). by destruct (Hnone m). }
    split; [set_solver|].
    intros item layer Hitem Hlayer. apply list_elem_of_fmap in Hitem as (o & -> & Ho).
    assert (layer = "seg") as -> by set_solver.
    destruct o as [m|ids|id]; cbn [work_item].
    + by destruct (Hnone m).
    + rewrite seg_item_lookup, decide_True by done. by eexists.
    + rewrite seg_item_lookup, decide_True by done. by eexists.
Qed.

Lemma set_todo_builds_store_witness :
  (∀ m, Mapping m ∉ [Scalar 42; Iterable [42; 43]])
  ∧ (_set_todo [Scalar 42; Iterable [42; 43]] ([], {[ "seg" ]})).1
    = [ {[ "seg" := [42] ]}; {[ "seg" := [42; 43] ]} ].
Proof.
  assert (∀ m, Mapping m ∉ [Scalar 42; Iterable [42; 43]]) as Hnone.
  { intros m Hin. apply elem_of_cons in Hin as [[=]|Hin].
    apply elem_of_cons in Hin as [[=]|Hin]. by apply elem_of_nil in Hin. }
  split; [exact Hnone|].
  pose proof (set_todo_builds_store [Scalar 42; Iterable [42; 43]]) as H.
  destruct (_set_todo [Scalar 42; Iterable [42; 43]] ([], {[ "seg" ]})) as [todo managed].
  destruct H as (Htodo & _). exact Htodo.
Defined.

(** ** Accepting the split at the cursor *)

Lemma is_walk_lookup (g : Nx.Graph) (p : list Z) (i : nat) (u v : Z) :
  Nx.is_walk g p → p !! i = Some u → p !! S i = Some v → Nx.has_edge g u v.
Proof.
  revert i. induction p as [|a [|b p] IH]; intros i Hw Hu Hv; [done..|].
  destruct Hw as [Hab Hw]. destruct i as [|i]; simpl in *.
  - by simplify_eq.
  - by apply (IH i).
Qed.

(** X21. On a well-formed graph, with a [split_path] that walks along
    edges of the graph and the cursor at an edge
    ([1 <= split_index <= len(split_path) - 1]), [accept_split] removes
    the edge between [split_path[split_index - 1]] and
    [split_path[split_index]], in both directions, and no other edge or
    node; it empties [split_objects] and keeps path and cursor. *)
Theorem accept_split_removes_cursor_edge (st : GraphUpdater.t) :
  Nx.wf (GraphUpdater.graph st) →
  Nx.is_walk (GraphUpdater.graph st) (GraphUpdater.split_path st) →
  1 ≤ GraphUpdater.split_index st ≤ Py.len (GraphUpdater.split_path st) - 1 →
  let st' := exec GraphUpdater.accept_split st in
  ∃ u v,
    GraphUpdater.split_path st !! Z.to_nat (GraphUpdater.split_index st - 1) = Some u
    ∧ GraphUpdater.split_path st !! Z.to_nat (GraphUpdater.split_index st) = Some v
    ∧ Nx.has_edge (GraphUpdater.graph st) u v
    ∧ (∀ x y, Nx.has_edge (GraphUpdater.graph st') x y
              ↔ Nx.has_edge (GraphUpdater.graph st) x y
                ∧ ¬ ((x = u ∧ y = v) ∨ (x = v ∧ y = u)))
    ∧ dom (GraphUpdater.graph st') = dom (GraphUpdater.graph st)
    ∧ GraphUpdater.idle st'
    ∧ GraphUpdater.split_path st' = GraphUpdater.split_path st
    ∧ GraphUpdater.split_index st' = GraphUpdater.split_index st.
Proof.
  intros [Hnodes Hsym] Hwalk Hc st'.
  destruct (lookup_lt_is_Some_2 (GraphUpdater.split_path st)
              (Z.to_nat (GraphUpdater.split_index st - 1))) as [u Hu];
    [unfold Py.len in Hc; lia|].
  destruct (lookup_lt_is_Some_2 (GraphUpdater.split_path st)
              (Z.to_nat (GraphUpdater.split_index st))) as [v Hv];
    [unfold Py.len in Hc; lia|].
  pose proof (slice_pair _ _ u v (proj1 Hc) Hu Hv) as Hslice.
  assert (Nx.has_edge (GraphUpdater.graph st) u v) as Huv.
  { apply (is_walk_lookup _ _ (Z.to_nat (GraphUpdater.split_index st - 1)) u v Hwalk Hu).
    rewrite <- Hv. f_equal. lia. }
  destruct (remove_edge_run _ u v Huv (Hsym _ _ Huv)) as (g' & Hrm & Hdom & Hedges).
  destruct (accept_split_exec st u v [] g' Hslice Hrm) as [b Hb].
  exists u, v. unfold st'. rewrite Hb. simpl. by split_and!.
Qed.

Module WalkScenario.

(** The editor on [1 - 2 - 3 - 4] with that path and the cursor at 1. *)
Definition st : GraphUpdater.t :=
  GraphUpdater.mk (GraphUpdater.base Scenario.editor) Scenario.path_graph
    [1; 4] [1; 2; 3; 4] 1 1 ∅.

End WalkScenario.

Lemma accept_split_removes_cursor_edge_witness :
  Nx.wf (GraphUpdater.graph WalkScenario.st)
  ∧ Nx.is_walk (GraphUpdater.graph WalkScenario.st) (GraphUpdater.split_path WalkScenario.st)
  ∧ 1 ≤ GraphUpdater.split_index WalkScenario.st
      ≤ Py.len (GraphUpdater.split_path WalkScenario.st) - 1
  ∧ GraphUpdater.idle (exec GraphUpdater.accept_split WalkScenario.st).
Proof.
  assert (Nx.wf (GraphUpdater.graph WalkScenario.st)) as Hwf
    by apply wf_add_edges_from, wf_empty.
  assert (Nx.is_walk (GraphUpdater.graph WalkScenario.st)
            (GraphUpdater.split_path WalkScenario.st)) as Hwalk.
  { simpl. split_and!; [apply (bool_decide_unpack _); by vm_compute..|done]. }
  assert (1 ≤ GraphUpdater.split_index WalkScenario.st
            ≤ Py.len (GraphUpdater.split_path WalkScenario.st) - 1) as Hc by (by vm_compute).
  split; [exact Hwf|]. split; [exact Hwalk|]. split; [exact Hc|].
  destruct (accept_split_removes_cursor_edge WalkScenario.st Hwf Hwalk Hc)
    as (u & v & _ & _ & _ & _ & _ & Hidle & _).
  exact Hidle.
Defined.

(** ** The status line after marking bad *)

Lemma ready_with_status (msg : status_msg) (b : Base.t) : ready b → ready (with_status msg b).
Proof. intros Hready. by apply ready_set_viewer. Qed.

(** X22. On a store and viewer that fit together, with the index in
    range and [batch == 1], [mark_bad] of [ObjectReview] returns, and the
    status line it leaves is the one of [update_batch], with the new
    index and [num_bad] counting the object just flagged: the message
    ['marked bad: ...'] set in between is overwritten by [next_batch];
    the viewer then displays the batch at the new index. *)
Theorem mark_bad_status_line (st : ObjectReview.t) :
  ready (ObjectReview.base st) → Nav.in_range (ObjectReview.base st) →
  Base.batch (ObjectReview.base st) = 1 →
  "seg" ∈ Base.managed_layers (ObjectReview.base st) →
  let st' := exec ObjectReview.mark_bad st in
  outcome ObjectReview.mark_bad st = Ok tt
  ∧ Viewer.status (Base.viewer (ObjectReview.base st'))
    = Some (MsgBatch (Base.index (ObjectReview.base st'))
              (Py.len (Base.todo (ObjectReview.base st))) 1
              (CustomNumBad (Z.of_nat (size (ObjectReview.bad st')))))
  ∧ displays_batch (ObjectReview.base st').
Proof.
  intros Hready Hr Hb Hseg st'.
  pose proof Hready as (Hitems & _).
  destruct (index_in_range (Base.todo (ObjectReview.base st)) (Base.index (ObjectReview.base st)))
    as [item Hitem]; [unfold Nav.in_range in Hr; lia|].
  assert (item ∈ Base.todo (ObjectReview.base st)) as Hin.
  { unfold Py.index in Hitem. rewrite decide_True in Hitem by (unfold Nav.in_range in Hr; lia).
    by eapply list_elem_of_lookup_2. }
  destruct (Hitems item "seg" Hin Hseg) as [sids Hsids].
  assert (Base.current_seg (ObjectReview.base st) = Ok sids) as Hcur.
  { unfold Base.current_seg. rewrite Hitem. simpl. by rewrite Hsids. }
  destruct (bad_of_ok sids) as (x & Hx & _).
  set (st1 := ObjectReview.set_base
                (with_status (MsgMarkedBad sids) (ObjectReview.base st))
                (ObjectReview.set_bad (ObjectReview.bad st ∪ {[x]}) st)).
  assert (ObjectReview.mark_bad st = ObjectReview.next_batch st1) as Hrun.
  { unfold ObjectReview.mark_bad. rewrite run_get, decide_False by lia.
    by rewrite Hcur, run_lift_ok, Hx, run_lift_ok, run_modify. }
  assert (ObjectReview.next_batch st1
          = ((Base.next_batch (ObjectReview.custom_msg st1) (ObjectReview.base st1)).1,
             ObjectReview.set_base
               (Base.next_batch (ObjectReview.custom_msg st1) (ObjectReview.base st1)).2 st1))
    as Hnext.
  { unfold ObjectReview.next_batch. rewrite run_get. unfold ObjectReview.inherited.
    by destruct (Base.next_batch _ _). }
  destruct (step_ok (ObjectReview.custom_msg st1) Nav.Advance (ObjectReview.base st1))
    as (Hok & _ & Hshow & Hstatus).
  { by apply ready_with_status. }
  { done. }
  { simpl. lia. }
  unfold st', outcome, exec in *. rewrite Hrun, Hnext. simpl in *.
  split_and!; [done| |done]. rewrite Hstatus. by rewrite Hb.
Qed.

Lemma ready_mark_scenario : ready (MarkScenario.base 1).
Proof.
  split_and!; try done.
  - intros item layer Hitem Hlayer. apply list_elem_of_singleton in Hlayer as ->.
    repeat (apply elem_of_cons in Hitem as [->|Hitem];
            [rewrite seg_item_lookup, decide_True by done; by eexists|]).
    by apply elem_of_nil in Hitem.
  - intros layer Hlayer. apply list_elem_of_singleton in Hlayer as ->. by eexists.
Qed.

Lemma mark_bad_status_line_witness :
  ready (MarkScenario.base 1)
  ∧ Nav.in_range (MarkScenario.base 1)
  ∧ outcome ObjectReview.mark_bad (MarkScenario.review 1) = Ok tt.
Proof.
  assert (Nav.in_range (MarkScenario.base 1)) as Hr by (by vm_compute).
  split; [exact ready_mark_scenario|]. split; [exact Hr|].
  refine (proj1 (mark_bad_status_line (MarkScenario.review 1) ready_mark_scenario Hr
                   eq_refl _)).
  by left.
Defined.
